(** * MMM-SynPhotoSlideshow: image list, cache and metadata pipeline

    A shallow embedding of the back-end classes of the slideshow module
    ([ImageListManager], [SynologyPhotosClient.removeDuplicatePhotos],
    [ImageCache], [ExifExtractor]) together with the properties that the
    specification states about them.

    Conventions.
    - A JavaScript [number] that holds an integer (array index, byte count,
      millisecond time stamp, provider id) is a [Z]; a value that the runtime
      guarantees to be non-negative ([Date.now()], the raw bits behind
      [Math.random()]) is an [N].
    - Strings are sequences of character codes below 256.
    - An object used as a dictionary is a [gmap], a [Set] is a [gset]; the
      index of the cache, which is read in insertion order, is a list of keys.
    - The file system, the clock and the network are explicit arguments:
      every function that touches them takes the part of the world it reads
      and returns the part it writes. *)

From Stdlib Require Import ZArith NArith Ascii String List Lia Bool.
From stdpp Require Import base tactics option list gmap strings pretty sorting.

Local Open Scope Z_scope.

(** ** Built-ins of the JavaScript runtime *)

Module JS.

(** [String.prototype.toLowerCase], on the letters A to Z. *)
Definition lower_ascii (c : ascii) : ascii :=
  let n := nat_of_ascii c in
  if ((65 <=? n) && (n <=? 90))%nat then ascii_of_nat (n + 32) else c.

Fixpoint toLowerCase (s : string) : string :=
  match s with
  | EmptyString => EmptyString
  | String c r => String (lower_ascii c) (toLowerCase r)
  end.

(** [a > b] on strings: lexicographic on character codes. *)
Definition str_gt (a b : string) : bool := String.ltb b a.

(** White space as [String.prototype.trim] sees it (codes 9 to 13, the
    blank and the no-break space). *)
Definition is_space (c : ascii) : bool :=
  let n := nat_of_ascii c in
  (((9 <=? n) && (n <=? 13)) || (n =? 32) || (n =? 160))%nat.

Fixpoint trimStart (s : string) : string :=
  match s with
  | EmptyString => EmptyString
  | String c r => if is_space c then trimStart r else s
  end.

Definition rev_string (s : string) : string :=
  string_of_list_ascii (rev (list_ascii_of_string s)).

Definition trimEnd (s : string) : string := rev_string (trimStart (rev_string s)).

Definition trim (s : string) : string := trimEnd (trimStart s).

(** Truthiness of a string: the empty string is falsy. *)
Definition nonempty (s : string) : bool :=
  match s with EmptyString => false | _ => true end.

(** Truthiness of an optional string field ([undefined] and [""] are
    falsy). *)
Definition truthy (o : option string) : bool :=
  match o with Some s => nonempty s | None => false end.

(** [s.split(c)] for a one-character separator: always at least one part. *)
Fixpoint split_aux (sep : ascii) (s : string) (cur : list ascii) : list string :=
  match s with
  | EmptyString => [string_of_list_ascii (rev cur)]
  | String c r =>
      if Ascii.eqb c sep
      then string_of_list_ascii (rev cur) :: split_aux sep r []
      else split_aux sep r (c :: cur)
  end.

Definition split (sep : ascii) (s : string) : list string := split_aux sep s [].

(** [s.split(/\r?\n/u)]: a line ends at a line feed, and one carriage
    return right before the line feed belongs to the separator. *)
Definition drop_cr (cur : list ascii) : list ascii :=
  match cur with
  | c :: r => if Ascii.eqb c "013"%char then r else cur
  | [] => []
  end.

Fixpoint split_lines_aux (s : string) (cur : list ascii) : list string :=
  match s with
  | EmptyString => [string_of_list_ascii (rev cur)]
  | String c r =>
      if Ascii.eqb c "010"%char
      then string_of_list_ascii (rev (drop_cr cur)) :: split_lines_aux r []
      else split_lines_aux r (c :: cur)
  end.

Definition split_lines (s : string) : list string := split_lines_aux s [].

(** [Array.prototype.sort(comparefn)].

    The engine under Node.js sorts a short array by insertion: each element
    in turn is the pivot, it is compared as [comparefn(pivot, e)] with the
    elements [e] of the already sorted prefix, and it is placed before [e]
    when the result is negative.  (For an array of two elements this is the
    single call [comparefn(a[1], a[0])], and a negative answer exchanges the
    two.)  [insert_pivot] works on the prefix kept in reverse, so that the
    pivot walks from the right end to the left.  For a comparator that is
    consistent in the sense of ECMAScript every stable sort returns this
    same array; for one that is not, the order is the one this procedure
    yields. *)
Fixpoint insert_pivot {A} (comparefn : A -> A -> Z) (pivot : A) (rprefix : list A)
  : list A :=
  match rprefix with
  | [] => [pivot]
  | e :: r =>
      if comparefn pivot e <? 0
      then e :: insert_pivot comparefn pivot r
      else pivot :: rprefix
  end.

Definition sort {A} (comparefn : A -> A -> Z) (l : list A) : list A :=
  rev (fold_left (fun rprefix pivot => insert_pivot comparefn pivot rprefix) l []).

(** [Math.floor(num / den * n)] for a draw [num / den] from the unit
    interval, the arithmetic taken exactly. *)
Definition floor_scaled (num den : Z) (n : nat) : nat :=
  Z.to_nat ((num * Z.of_nat n) / den).

(** [[a[i], a[j]] = [a[j], a[i]]].  Both indices of every swap that
    [shuffleArray] performs lie inside the array (see
    [firstPass_indices] and [secondPass_indices]); an assignment past the
    end, which would grow a JavaScript array, is left out of the model and
    keeps the list as it is. *)
Definition swap {A} (l : list A) (i j : nat) : list A :=
  match l !! i, l !! j with
  | Some x, Some y => <[j:=x]> (<[i:=y]> l)
  | _, _ => l
  end.

(** [Number.parseFloat]: [None] stands for [NaN]; a number is represented
    by the decimal numeral that was read (sign, digits, fraction, exponent),
    or by [Infinity]. *)
Definition is_digit (c : ascii) : bool :=
  let n := nat_of_ascii c in ((48 <=? n) && (n <=? 57))%nat.

Fixpoint span_digits (s : string) : string * string :=
  match s with
  | String c r =>
      if is_digit c
      then let '(ds, rest) := span_digits r in (String c ds, rest)
      else (EmptyString, s)
  | EmptyString => (EmptyString, EmptyString)
  end.

Definition read_sign (s : string) : string * string :=
  match s with
  | String c r =>
      if Ascii.eqb c "-"%char then ("-"%string, r)
      else if Ascii.eqb c "+"%char then (EmptyString, r)
      else (EmptyString, s)
  | EmptyString => (EmptyString, s)
  end.

Definition read_exponent (s : string) : string :=
  match s with
  | String c r =>
      if Ascii.eqb c "e"%char || Ascii.eqb c "E"%char
      then
        let '(sign, r) := read_sign r in
        let '(ds, _) := span_digits r in
        if nonempty ds then ("e" ++ sign ++ ds)%string else EmptyString
      else EmptyString
  | EmptyString => EmptyString
  end.

Definition parseFloat (input : string) : option string :=
  let '(sign, body) := read_sign (trimStart input) in
  if String.prefix "Infinity" body then Some (sign ++ "Infinity")%string
  else
    let '(int, r1) := span_digits body in
    let '(frac, r2) :=
      match r1 with
      | String c r => if Ascii.eqb c "."%char then span_digits r else (EmptyString, r1)
      | EmptyString => (EmptyString, r1)
      end in
    if nonempty int || nonempty frac
    then Some (sign ++ int ++ (if nonempty frac then "." ++ frac else "") ++ read_exponent r2)%string
    else None.

(** [l[z]] for an integer [z]: [undefined] below zero and past the end. *)
Definition at_index {A} (l : list A) (z : Z) : option A :=
  if z <? 0 then None else l !! Z.to_nat z.

End JS.

(** ** ImageListManager.ts *)

Module ImageListManager.

Inductive IdValue := IdNum (n : Z) | IdStr (s : string).

(** [PhotoItem] with the fields that [processPhotoList] adds to it. *)
Record PhotoItem := {
  path : string;
  url : option string;
  created : Z;
  modified : Z;
  id : option IdValue;
  synologyId : option Z;
  spaceId : option Z
}.

(** The options of [ModuleConfig] that the list manager reads. *)
Record ModuleConfig := {
  showAllImagesBeforeRestart : bool;
  randomizeImageOrder : bool;
  sortImagesBy : string;
  sortImagesDescending : bool
}.

Record t := {
  imageList : list PhotoItem;
  nextBatchList : list PhotoItem;
  alreadyShownSet : gset string;
  index : Z;
  currentBatchOffset : Z
}.

(** The state of a freshly constructed manager. *)
Definition init : t :=
  {| imageList := []; nextBatchList := []; alreadyShownSet := ∅;
     index := 0; currentBatchOffset := 0 |}.

(** The tracker file [filesShownTracker.txt]: its text when it exists, and
    whether the file system refuses to write it. *)
Record TrackerFile := {
  text : option string;
  writeRefused : bool
}.

(** *** shuffleArray *)

(** One step of the generator: [seed = (seed * 9301 + 49297) % 233280];
    the value handed out is [seed / 233280]. *)
Definition seededRandom (seed : Z) : Z := Z.rem (seed * 9301 + 49297) 233280.

Fixpoint firstPass (i : nat) (seed : Z) (shuffled : list PhotoItem) : list PhotoItem :=
  match i with
  | O => shuffled
  | S i' =>
      let seed' := seededRandom seed in
      let j := JS.floor_scaled seed' 233280 (S i) in
      firstPass i' seed' (JS.swap shuffled i j)
  end.

(** [Math.random()]: the [k]-th call of the sweep returns
    [(random k mod 2^53) / 2^53]. *)
Definition two53 : Z := 9007199254740992.

Fixpoint secondPass (i : nat) (k : nat) (random : nat -> N) (shuffled : list PhotoItem)
  : list PhotoItem :=
  match i with
  | O => shuffled
  | S i' =>
      let j := JS.floor_scaled (Z.of_N (random k) mod two53) two53 (S i) in
      secondPass i' (S k) random (JS.swap shuffled i j)
  end.

Definition shuffleArray (now : N) (random : nat -> N) (array : list PhotoItem)
  : list PhotoItem :=
  let shuffled := array in
  let shuffled := firstPass (length shuffled - 1) (Z.of_N now) shuffled in
  secondPass (length shuffled - 1) 0 random shuffled.

(** In both sweeps every exchange happens between two cells of the array:
    the sweeps agree with the ones that check the indices. *)
Definition checkedSwap {A} (l : list A) (i j : nat) : option (list A) :=
  if bool_decide (i < length l ∧ j < length l)%nat then Some (JS.swap l i j) else None.

Fixpoint checkedFirstPass (i : nat) (seed : Z) (shuffled : list PhotoItem)
  : option (list PhotoItem) :=
  match i with
  | O => Some shuffled
  | S i' =>
      let seed' := seededRandom seed in
      match checkedSwap shuffled i (JS.floor_scaled seed' 233280 (S i)) with
      | Some l => checkedFirstPass i' seed' l
      | None => None
      end
  end.

Fixpoint checkedSecondPass (i : nat) (k : nat) (random : nat -> N)
    (shuffled : list PhotoItem) : option (list PhotoItem) :=
  match i with
  | O => Some shuffled
  | S i' =>
      match checkedSwap shuffled i
              (JS.floor_scaled (Z.of_N (random k) mod two53) two53 (S i)) with
      | Some l => checkedSecondPass i' (S k) random l
      | None => None
      end
  end.

Definition checkedShuffleArray (now : N) (random : nat -> N) (array : list PhotoItem)
  : option (list PhotoItem) :=
  match checkedFirstPass (length array - 1) (Z.of_N now) array with
  | Some shuffled => checkedSecondPass (length shuffled - 1) 0 random shuffled
  | None => None
  end.

(** *** Sorting *)

Definition sortByFilename (a b : PhotoItem) : Z :=
  let aL := JS.toLowerCase (path a) in
  let bL := JS.toLowerCase (path b) in
  if JS.str_gt aL bL then 1 else -1.

Definition sortByCreated (a b : PhotoItem) : Z := created a - created b.

Definition sortByModified (a b : PhotoItem) : Z := modified a - modified b.

Definition sortImageList (imageList : list PhotoItem) (sortBy : string)
    (sortDescending : bool) : list PhotoItem :=
  let sortedList :=
    if String.eqb sortBy "created" then JS.sort sortByCreated imageList
    else if String.eqb sortBy "modified" then JS.sort sortByModified imageList
    else JS.sort sortByFilename imageList in
  if sortDescending then rev sortedList else sortedList.

(** *** The shown-images tracker *)

Definition readShownImagesTracker (f : TrackerFile) : gset string :=
  match text f with
  | Some filesShown =>
      list_to_set
        (List.filter (fun line => JS.nonempty (JS.trim line)) (JS.split_lines filesShown))
  | None => ∅
  end.

Definition with_shown (s : gset string) (m : t) : t :=
  {| imageList := imageList m; nextBatchList := nextBatchList m;
     alreadyShownSet := s; index := index m;
     currentBatchOffset := currentBatchOffset m |}.

(** [addImageToShown]: [None] when the write throws (nothing catches it
    here). *)
Definition addImageToShown (imgPath : string) (m : t) (f : TrackerFile)
  : option (t * TrackerFile) :=
  let m' := with_shown ({[ imgPath ]} ∪ alreadyShownSet m) m in
  if writeRefused f then None
  else
    let line := (imgPath ++ String "010"%char EmptyString)%string in
    match text f with
    | Some old => Some (m', {| text := Some (old ++ line)%string; writeRefused := false |})
    | None => Some (m', {| text := Some line; writeRefused := false |})
    end.

(** [resetShownImagesTracker]: the file is truncated first; when that
    throws, the in-memory set is not cleared and the error is only
    logged. *)
Definition resetShownImagesTracker (m : t) (f : TrackerFile) : t * TrackerFile :=
  if writeRefused f then (m, f)
  else (with_shown ∅ m, {| text := Some EmptyString; writeRefused := false |}).

(** *** prepareImageList *)

Definition prepareImageList (images : list PhotoItem) (config : ModuleConfig)
    (isPreload : bool) (now : N) (random : nat -> N) (m : t) (f : TrackerFile)
  : list PhotoItem * t * TrackerFile :=
  let workingList := images in
  let m :=
    if showAllImagesBeforeRestart config
    then with_shown (readShownImagesTracker f) m else m in
  let imageListToUse :=
    if showAllImagesBeforeRestart config
    then List.filter (fun image => negb (bool_decide (path image ∈ alreadyShownSet m)))
           workingList
    else workingList in
  let '(m, f, imageListToUse) :=
    if showAllImagesBeforeRestart config
       && (length imageListToUse =? 0)%nat
       && (0 <? length workingList)%nat
       && negb isPreload
    then
      let '(m', f') := resetShownImagesTracker m f in
      (m', f', workingList)
    else (m, f, imageListToUse) in
  let finalImageList :=
    if randomizeImageOrder config
    then shuffleArray now random imageListToUse
    else sortImageList imageListToUse (sortImagesBy config) (sortImagesDescending config) in
  if isPreload
  then (finalImageList,
        {| imageList := imageList m; nextBatchList := finalImageList;
           alreadyShownSet := alreadyShownSet m; index := index m;
           currentBatchOffset := currentBatchOffset m |},
        f)
  else (finalImageList,
        {| imageList := finalImageList; nextBatchList := nextBatchList m;
           alreadyShownSet := alreadyShownSet m; index := 0;
           currentBatchOffset := currentBatchOffset m |},
        f).

(** *** The cursor *)

Definition with_index (i : Z) (m : t) : t :=
  {| imageList := imageList m; nextBatchList := nextBatchList m;
     alreadyShownSet := alreadyShownSet m; index := i;
     currentBatchOffset := currentBatchOffset m |}.

Definition getNextImage (m : t) : option PhotoItem * t :=
  if (length (imageList m) =? 0)%nat then (None, m)
  else if index m >=? Z.of_nat (length (imageList m)) then (None, m)
  else (JS.at_index (imageList m) (index m), with_index (index m + 1) m).

Definition areAllImagesShown (m : t) : bool :=
  index m >=? Z.of_nat (length (imageList m)).

Definition hasNextBatchPreloaded (m : t) : bool :=
  (0 <? length (nextBatchList m))%nat.

Definition switchToNextBatch (m : t) : t :=
  if (0 <? length (nextBatchList m))%nat
  then {| imageList := nextBatchList m; nextBatchList := [];
          alreadyShownSet := alreadyShownSet m; index := 0;
          currentBatchOffset := currentBatchOffset m |}
  else m.

Definition getPreviousImage (m : t) : option PhotoItem * t :=
  let i := index m - 2 in
  let i := if i <? 0 then 0 else i in
  getNextImage (with_index i m).

Definition reset (m : t) : t := with_index 0 m.

Definition isEmpty (m : t) : bool := (length (imageList m) =? 0)%nat.

Definition getList (m : t) : list PhotoItem := imageList m.

(** [count] calls of [getNextImage] in a row: the photos they return, up to
    the first call that returns [null] (every later call would return
    [null] as well, see [getNextImage]), and the manager after the last
    call. *)
Fixpoint serveNext (count : nat) (m : t) : list PhotoItem * t :=
  match count with
  | O => ([], m)
  | S count' =>
      match getNextImage m with
      | (Some image, m') =>
          let '(images, m'') := serveNext count' m' in (image :: images, m'')
      | (None, m') => ([], m')
      end
  end.

(** The tracker file is absent, empty, or ends with a line feed: the three
    shapes that [addImageToShown] and [resetShownImagesTracker] leave. *)
Definition wholeLines (f : TrackerFile) : Prop :=
  match text f with
  | Some body =>
      body = EmptyString ∨ exists lines, body = (lines ++ String "010"%char EmptyString)%string
  | None => True
  end.

(** A path that survives the round trip through the tracker file: it holds
    no line feed, it does not end with a carriage return, and it is not
    blank. *)
Definition storable (imgPath : string) : Prop :=
  ("010"%char ∉ list_ascii_of_string imgPath)
  ∧ last (list_ascii_of_string imgPath) ≠ Some "013"%char
  ∧ JS.nonempty (JS.trim imgPath) = true.

(** The set that [readShownImagesTracker] makes of the lines of the file:
    the lines that are not blank. *)
Definition lineSet (lines : list string) : gset string :=
  list_to_set (List.filter (fun line => JS.nonempty (JS.trim line)) lines).


(** The cursor stays between the start and the end of the current list. *)
Definition cursorInvariant (m : t) : Prop :=
  0 <= index m <= Z.of_nat (length (imageList m)).

(** What the filter of [prepareImageList] leaves of [images] when the
    tracker file is [f]. *)
Definition notYetShown (f : TrackerFile) (images : list PhotoItem) : list PhotoItem :=
  List.filter (fun image => negb (bool_decide (path image ∈ readShownImagesTracker f)))
    images.

End ImageListManager.

(** ** SynologyPhotosClient.ts *)

Module SynologyPhotosClient.
Import ImageListManager.

(** The values a [Set<string | number>] tells apart; [undefined] is a key
    like any other. *)
Inductive DedupeKey := KeyNum (n : Z) | KeyStr (s : string) | KeyUndefined.

#[export] Instance DedupeKey_eq_dec : EqDecision DedupeKey.
Proof. solve_decision. Defined.

#[export] Instance DedupeKey_countable : Countable DedupeKey.
Proof.
  refine (inj_countable'
            (fun k => match k with
                      | KeyNum n => inl (inl n)
                      | KeyStr s => inl (inr s)
                      | KeyUndefined => inr tt
                      end)
            (fun x => match x with
                      | inl (inl n) => KeyNum n
                      | inl (inr s) => KeyStr s
                      | inr _ => KeyUndefined
                      end) _).
  by intros [].
Defined.

(** [photo.synologyId || photo.id]: a missing or zero [synologyId] falls
    through to [id]. *)
Definition idKey (photo : PhotoItem) : DedupeKey :=
  match id photo with
  | Some (IdNum n) => KeyNum n
  | Some (IdStr s) => KeyStr s
  | None => KeyUndefined
  end.

Definition dedupeKey (photo : PhotoItem) : DedupeKey :=
  match synologyId photo with
  | Some n => if n =? 0 then idKey photo else KeyNum n
  | None => idKey photo
  end.

(** [photos.filter(...)] with the set [seen] threaded through the calls of
    the predicate. *)
Fixpoint filterUnseen (seen : gset DedupeKey) (photos : list PhotoItem)
  : list PhotoItem :=
  match photos with
  | [] => []
  | photo :: rest =>
      if bool_decide (dedupeKey photo ∈ seen)
      then filterUnseen seen rest
      else photo :: filterUnseen ({[ dedupeKey photo ]} ∪ seen) rest
  end.

Definition removeDuplicatePhotos (photos : list PhotoItem) : list PhotoItem :=
  filterUnseen ∅ photos.

(** An item of the lists that the Photos API returns; [cache_key] stands
    for [additional?.thumbnail?.cache_key]. *)
Record SynologyPhoto := {
  photo_id : Z;
  type : string;
  filename : option string;
  time : option Z;
  indexed_time : option Z;
  cache_key : option string
}.

(** The fields of the client that the functions below read.  The
    constructor sets [useSharedAlbum] to [Boolean(shareToken)]; [sid] is
    [null] until [authenticate] has run. *)
Record t := {
  baseUrl : string;
  shareToken : string;
  useSharedAlbum : bool;
  sid : option string
}.

Definition photosApiPath : string := "/webapi/entry.cgi".

(** The double quote. *)
Definition quote : string := String "034"%char EmptyString.

(** An optional string inside a template literal. *)
Definition orUndefined (o : option string) : string :=
  match o with Some s => s | None => "undefined" end.

Definition orNull (o : option string) : string :=
  match o with Some s => s | None => "null" end.

Definition getPhotoUrl (client : t) (photoId : Z) (cacheKey : option string)
    (spaceId : option Z) : string :=
  let quotedCacheKey := (quote ++ orUndefined cacheKey ++ quote)%string in
  if useSharedAlbum client
  then (baseUrl client ++ photosApiPath
        ++ "?api=SYNO.Foto.Thumbnail&version=2&method=get&id=" ++ pretty photoId
        ++ "&cache_key=" ++ quotedCacheKey
        ++ "&type=" ++ quote ++ "unit" ++ quote ++ "&size=" ++ quote ++ "xl" ++ quote
        ++ "&passphrase=" ++ shareToken client)%string
  else
    let api :=
      if bool_decide (spaceId = Some 1) then "SYNO.FotoTeam.Thumbnail"
      else "SYNO.Foto.Thumbnail" in
    let url :=
      (baseUrl client ++ photosApiPath
       ++ "?api=" ++ api ++ "&version=2&method=get&id=" ++ pretty photoId
       ++ "&cache_key=" ++ quotedCacheKey
       ++ "&type=" ++ quote ++ "unit" ++ quote ++ "&size=" ++ quote ++ "xl" ++ quote
       ++ "&_sid=" ++ orNull (sid client))%string in
    if bool_decide (spaceId = Some 0) then (url ++ "&space_id=0")%string else url.

Definition getOriginalPhotoUrl (client : t) (photoId : Z) (spaceId : option Z)
  : string :=
  if useSharedAlbum client
  then (baseUrl client ++ photosApiPath
        ++ "?api=SYNO.Foto.Download&version=2&method=download&id=" ++ pretty photoId
        ++ "&passphrase=" ++ shareToken client)%string
  else
    let api :=
      if bool_decide (spaceId = Some 1) then "SYNO.FotoTeam.Download"
      else "SYNO.Foto.Download" in
    let url :=
      (baseUrl client ++ photosApiPath
       ++ "?api=" ++ api ++ "&version=2&method=download&unit_id=[" ++ pretty photoId
       ++ "]&_sid=" ++ orNull (sid client))%string in
    if bool_decide (spaceId = Some 0) || bool_decide (spaceId = None)
    then (url ++ "&space_id=0")%string else url.

(** [photo.time ? photo.time * 1000 : Date.now()]: a missing or zero time
    is falsy. *)
Definition millisOr (seconds : option Z) (now : Z) : Z :=
  match seconds with
  | Some s => if s =? 0 then now else s * 1000
  | None => now
  end.

Definition isPhoto (photo : SynologyPhoto) : bool :=
  String.eqb (type photo) "photo" || String.eqb (type photo) "live_photo".

(** [processPhotoList].  [Date.now()] is read where a time is missing;
    [clock k] is what its [k]-th evaluation returns.  The two fields
    [personId] and [isSynology] of the objects it pushes are read by the
    downloader only and are not part of [PhotoItem]. *)
Fixpoint processPhotoList (client : t) (photos : list SynologyPhoto)
    (spaceId : option Z) (clock : nat -> Z) (k : nat) : list PhotoItem :=
  match photos with
  | [] => []
  | photo :: rest =>
      if negb (isPhoto photo) then processPhotoList client rest spaceId clock k
      else
        let imageUrl := getPhotoUrl client (photo_id photo) (cache_key photo) spaceId in
        let uniqueId :=
          match spaceId with
          | None => IdNum (photo_id photo)
          | Some space => IdStr (pretty space ++ "_" ++ pretty (photo_id photo))
          end in
        let created := millisOr (time photo) (clock k) in
        let k := match time photo with
                 | Some s => if s =? 0 then S k else k
                 | None => S k
                 end in
        let modified := millisOr (indexed_time photo) (clock k) in
        let k := match indexed_time photo with
                 | Some s => if s =? 0 then S k else k
                 | None => S k
                 end in
        {| path := match filename photo with
                   | Some f => if JS.nonempty f then f
                               else ("photo_" ++ pretty (photo_id photo))%string
                   | None => ("photo_" ++ pretty (photo_id photo))%string
                   end;
           url := Some imageUrl;
           created := created;
           modified := modified;
           id := Some uniqueId;
           synologyId := Some (photo_id photo);
           spaceId := spaceId |}
        :: processPhotoList client rest spaceId clock k
  end.

(** The tail of [fetchPhotosByTags]: the lists that the requests returned,
    one per tag and space, are flattened and freed of duplicates. *)
Definition mergeTagResults (photoArrays : list (list PhotoItem)) : list PhotoItem :=
  let photos := concat photoArrays in
  removeDuplicatePhotos photos.

(** The composite identity of the data model. *)
Definition identity (photo : PhotoItem) : option Z * option Z :=
  (synologyId photo, spaceId photo).

Definition hasKey (k : DedupeKey) (photo : PhotoItem) : bool :=
  bool_decide (dedupeKey photo = k).

(** [synologyId] is present and not zero. *)
Definition hasProviderId (photo : PhotoItem) : Prop :=
  exists n, synologyId photo = Some n ∧ n ≠ 0.

End SynologyPhotosClient.

(** ** ImageCache.ts *)

Module ImageCache.

(** What [readdir] and [stat] report about one entry of the cache
    directory, and whether the file system refuses [stat] or [unlink] on
    it. *)
Record DirEntry := {
  name : string;
  isFile : bool;
  size : Z;
  mtime : Z;
  statFails : bool;
  unlinkFails : bool
}.

(** The cache directory: its entries in [readdir] order. *)
Record Disk := {
  entries : list DirEntry;
  readdirFails : bool
}.

Record FileStats := {
  fs_name : string;
  fs_size : Z;
  fs_mtime : Z
}.

(** The [ImageCache] object.  [cache] holds the keys of the NodeCache index
    in insertion order (its values are all [true]; the seven-day expiry of
    an entry is outside this model). *)
Record t := {
  cacheDir : option string;
  cache : option (list string);
  currentCacheSize : Z;
  maxCacheSize : Z
}.

Definition maxKeys : nat := 1000.

(** [NodeCache.set(key, true)]: throws when the index is full. *)
Definition cache_set (key : string) (keys : list string) : option (list string) :=
  if (maxKeys <=? length keys)%nat then None
  else if bool_decide (key ∈ keys) then Some keys
  else Some (keys ++ [key]).

Definition cache_del (key : string) (keys : list string) : list string :=
  List.filter (fun k => negb (String.eqb k key)) keys.

Definition endsWith (s suffix : string) : bool :=
  String.prefix (JS.rev_string suffix) (JS.rev_string s).

Definition dropEnd (n : nat) (s : string) : string :=
  String.substring 0 (String.length s - n) s.

(** [name.replace(/\.(jpg|jpeg|png|heic|webp)$/i, '')]. *)
Definition extensions : list string := [".jpg"; ".jpeg"; ".png"; ".heic"; ".webp"]%string.

Definition stripExtension (fileName : string) : string :=
  match List.find (fun ext => endsWith (JS.toLowerCase fileName) ext) extensions with
  | Some ext => dropEnd (String.length ext) fileName
  | None => fileName
  end.

Definition isProtected (fileName : string) : bool :=
  String.eqb fileName "photo_metadata.json" || endsWith fileName "photo_metadata.json".

(** [fsPromises.stat] on one entry, keeping regular files only. *)
Definition statEntry (e : DirEntry) : option FileStats :=
  if statFails e then None
  else if isFile e then Some {| fs_name := name e; fs_size := size e; fs_mtime := mtime e |}
  else None.

(** [fsPromises.unlink]: fails on a missing file and where the file system
    refuses. *)
Definition unlink (fileName : string) (d : Disk) : option Disk :=
  match List.find (fun e => String.eqb (name e) fileName) (entries d) with
  | Some e =>
      if unlinkFails e then None
      else Some {| entries := List.filter (fun e => negb (String.eqb (name e) fileName))
                                (entries d);
                   readdirFails := readdirFails d |}
  | None => None
  end.

(** [currentCacheSize <= maxCacheSize * 0.9].  Both sizes are whole numbers
    of bytes, and on those the comparison with the rounded product agrees
    with the exact one. *)
Definition atTarget (currentCacheSize maxCacheSize : Z) : bool :=
  10 * currentCacheSize <=? 9 * maxCacheSize.

Definition with_eviction (key : string) (fileSize : Z) (c : t) : t :=
  {| cacheDir := cacheDir c;
     cache := option_map (cache_del key) (cache c);
     currentCacheSize := currentCacheSize c - fileSize;
     maxCacheSize := maxCacheSize c |}.

(** The loop over the sorted [fileStats]. *)
Fixpoint evictLoop (fileStats : list FileStats) (c : t) (d : Disk) : t * Disk :=
  match fileStats with
  | [] => (c, d)
  | file :: rest =>
      if atTarget (currentCacheSize c) (maxCacheSize c) then (c, d)
      else if isProtected (fs_name file) then evictLoop rest c d
      else
        match unlink (fs_name file) d with
        | Some d' =>
            evictLoop rest
              (with_eviction (stripExtension (fs_name file)) (fs_size file) c) d'
        | None => evictLoop rest c d
        end
  end.

Definition byMtime (a b : FileStats) : Z := fs_mtime a - fs_mtime b.

Definition isNone {A} (o : option A) : bool :=
  match o with None => true | Some _ => false end.

Definition evictOldFiles (c : t) (d : Disk) : t * Disk :=
  if (currentCacheSize c <=? maxCacheSize c) || isNone (cacheDir c) || isNone (cache c)
  then (c, d)
  else if readdirFails d then (c, d)
  else
    let fileStats := omap statEntry (entries d) in
    let fileStats := JS.sort byMtime fileStats in
    evictLoop fileStats c d.

(** [fsPromises.writeFile(filePath, buffer)] at time [now]: an existing
    entry keeps its place in the directory, a new one goes to the end. *)
Definition writeFile (fileName : string) (dataSize now : Z) (d : Disk) : Disk :=
  let fresh := {| name := fileName; isFile := true; size := dataSize; mtime := now;
                  statFails := false; unlinkFails := false |} in
  if existsb (fun e => String.eqb (name e) fileName) (entries d)
  then {| entries :=
            map (fun e => if String.eqb (name e) fileName
                          then {| name := fileName; isFile := isFile e; size := dataSize;
                                  mtime := now; statFails := statFails e;
                                  unlinkFails := unlinkFails e |}
                          else e) (entries d);
          readdirFails := readdirFails d |}
  else {| entries := entries d ++ [fresh]; readdirFails := readdirFails d |}.

Section WithHash.

(** [crypto.createHash('md5').update(s).digest('hex')]. *)
Variable md5hex : string -> string.

Definition startsWith (s p : string) : bool := String.prefix p s.

Definition includes (s sub : string) : bool :=
  match String.index 0 sub s with Some _ => true | None => false end.

(** [spaceId || 0]. *)
Definition orZero (spaceId : option Z) : Z :=
  match spaceId with Some n => n | None => 0 end.

Definition getCacheKey (imageIdentifier : string) (synologyId : option Z)
    (spaceId : option Z) : string :=
  if startsWith imageIdentifier "original_" || startsWith imageIdentifier "thumbnail_"
  then imageIdentifier
  else
    match synologyId with
    | Some sid =>
        if includes imageIdentifier "SYNO.Foto.Download"
           || includes imageIdentifier "SYNO.FotoTeam.Download"
        then ("original_" ++ pretty sid ++ "_" ++ pretty (orZero spaceId))%string
        else ("thumbnail_" ++ pretty sid ++ "_" ++ pretty (orZero spaceId))%string
    | None => md5hex imageIdentifier
    end.

Definition with_keys (keys : list string) (c : t) : t :=
  {| cacheDir := cacheDir c; cache := Some keys;
     currentCacheSize := currentCacheSize c; maxCacheSize := maxCacheSize c |}.

(** [set].  The payload is represented by its length in bytes, the one
    thing that the accounting reads; [writeRefused] says whether
    [writeFile] throws.  The eviction that [set] starts without awaiting
    it is run here to its end before [set] returns: with insertions made
    one after the other nothing else touches the cache in between. *)
Definition set (imageIdentifier : string) (dataSize : Z) (fileExtension : string)
    (synologyId : option Z) (spaceId : option Z) (now : Z) (writeRefused : bool)
    (c : t) (d : Disk) : option string * t * Disk :=
  match cache c, cacheDir c with
  | Some keys, Some dir =>
      let key := getCacheKey imageIdentifier synologyId spaceId in
      let filePath := (dir ++ "/" ++ key ++ fileExtension)%string in
      let keys :=
        if (1000 <=? length keys)%nat then drop 100 keys else keys in
      let stored :=
        match cache_set key keys with
        | Some keys' => Some keys'
        | None => cache_set key (drop 200 keys)
        end in
      match stored with
      | None =>
          (None, with_keys (drop 200 keys) c, d)
      | Some keys' =>
          let c := with_keys keys' c in
          if writeRefused then (None, c, d)
          else
            let d := writeFile (key ++ fileExtension)%string dataSize now d in
            let c := {| cacheDir := cacheDir c; cache := cache c;
                        currentCacheSize := currentCacheSize c + dataSize;
                        maxCacheSize := maxCacheSize c |} in
            let '(c, d) :=
              if maxCacheSize c <? currentCacheSize c then evictOldFiles c d
              else (c, d) in
            (Some filePath, c, d)
      end
  | _, _ => (None, c, d)
  end.

(** [fsPromises.access(path.join(cacheDir, fileName))]: served when the
    directory has an entry of that name. *)
Definition access (fileName : string) (d : Disk) : bool :=
  existsb (fun e => String.eqb (name e) fileName) (entries d).

(** The loop over [extensions] in [get]: the path of the first file found. *)
Definition firstOnDisk (dir key : string) (d : Disk) : option string :=
  match List.find (fun ext => access (key ++ ext)%string d) extensions with
  | Some ext => Some (dir ++ "/" ++ key ++ ext)%string
  | None => None
  end.

(** [get].  With the key in the index, a file found is a hit, and no file
    found removes the key.  Without the key in the index, a file found puts
    the key into the index; [NodeCache.set] throws when the index is full,
    and [get] then returns [null] from its [catch]. *)
Definition get (imageIdentifier : string) (synologyId : option Z) (spaceId : option Z)
    (c : t) (d : Disk) : option string * t :=
  match cache c, cacheDir c with
  | Some keys, Some dir =>
      let key := getCacheKey imageIdentifier synologyId spaceId in
      if bool_decide (key ∈ keys)
      then
        match firstOnDisk dir key d with
        | Some filePath => (Some filePath, c)
        | None => (None, with_keys (cache_del key keys) c)
        end
      else
        match firstOnDisk dir key d with
        | Some filePath =>
            match cache_set key keys with
            | Some keys' => (Some filePath, with_keys keys' c)
            | None => (None, c)
            end
        | None => (None, c)
        end
  | _, _ => (None, c)
  end.

Definition getFilePath (imageIdentifier : string) (synologyId : option Z)
    (spaceId : option Z) (c : t) (d : Disk) : option string * t :=
  get imageIdentifier synologyId spaceId c d.

End WithHash.

(** [for (let i = 0; i < files.length; i += batchSize)] with
    [files.slice(i, i + batchSize)]: the batches in turn.  [rounds] bounds
    the number of iterations. *)
Fixpoint slices {A} (rounds : nat) (batchSize : nat) (i : nat) (files : list A)
  : list (list A) :=
  match rounds with
  | O => []
  | S rounds' =>
      if (i <? length files)%nat
      then take batchSize (drop i files) :: slices rounds' batchSize (i + batchSize) files
      else []
  end.

(** The size that one [stat] of [calculateCacheSize] contributes. *)
Definition sizeOrZero (e : DirEntry) : Z :=
  if statFails e then 0 else if isFile e then size e else 0.

(** [calculateCacheSize].  Every failure of [readdir] ends with a total of
    zero: [ENOENT] is swallowed with nothing added, any other error reaches
    the outer [catch]. *)
Definition calculateCacheSize (c : t) (d : Disk) : t :=
  match cacheDir c with
  | None => c
  | Some _ =>
      let totalSize :=
        if readdirFails d then 0
        else
          fold_left
            (fun totalSize batch =>
               totalSize + fold_left (fun sum size => sum + size) (map sizeOrZero batch) 0)
            (slices (length (entries d)) 10 0 (entries d)) 0 in
      {| cacheDir := cacheDir c; cache := cache c;
         currentCacheSize := totalSize; maxCacheSize := maxCacheSize c |}
  end.

(** [Math.round(currentCacheSize / 1024 / 1024)], halves rounded up. *)
Definition getCurrentCacheSize (c : t) (d : Disk) : Z * t :=
  let c := calculateCacheSize c d in
  ((2 * currentCacheSize c + 1048576) / 2097152, c).

(** [fsPromises.unlink] on any entry: a directory cannot be unlinked. *)
Definition unlinkPath (fileName : string) (d : Disk) : option Disk :=
  match List.find (fun e => String.eqb (name e) fileName) (entries d) with
  | Some e => if isFile e then unlink fileName d else None
  | None => None
  end.

(** One file of a batch in [clear]: the protected file is skipped, a
    failure of [unlink] is ignored. *)
Definition clearFile (d : Disk) (file : string) : Disk :=
  if isProtected file then d
  else match unlinkPath file d with Some d' => d' | None => d end.

(** [clear].  [code] is the code of the error that [readdir] throws when
    it fails: [ENOENT] is swallowed, any other error skips the reset of the
    running total.  The files of one batch are removed one after the
    other: each removal touches its own file only. *)
Definition clear (code : string) (c : t) (d : Disk) : t * Disk :=
  match cache c, cacheDir c with
  | Some _, Some _ =>
      let flushed :=
        {| cacheDir := cacheDir c; cache := Some [];
           currentCacheSize := currentCacheSize c; maxCacheSize := maxCacheSize c |} in
      let emptied :=
        {| cacheDir := cacheDir c; cache := Some [];
           currentCacheSize := 0; maxCacheSize := maxCacheSize c |} in
      if readdirFails d
      then if String.eqb code "ENOENT" then (emptied, d) else (flushed, d)
      else
        let files := map name (entries d) in
        (emptied,
         fold_left (fun d batch => fold_left clearFile batch d)
           (slices (length files) 10 0 files) d)
  | _, _ => (c, d)
  end.

(** *** Vocabulary of the statements *)

Definition unprotected (file : FileStats) : bool := negb (isProtected (fs_name file)).

(** The entry carries one of the [names]. *)
Definition named (names : list string) (e : DirEntry) : bool :=
  existsb (String.eqb (name e)) names.

Definition totalSize (fileStats : list FileStats) : Z :=
  fold_right (fun file acc => fs_size file + acc) 0 fileStats.

(** The bytes that the regular files of the directory occupy. *)
Definition diskSize (d : Disk) : Z :=
  fold_right (fun e acc => (if isFile e then size e else 0) + acc) 0 (entries d).

(** The files that an eviction considers, in the order in which it
    considers them: the regular files that [stat] reports, oldest
    modification first, without the protected ones. *)
Definition candidates (d : Disk) : list FileStats :=
  List.filter unprotected (JS.sort byMtime (omap statEntry (entries d))).

(** The directory is well formed (no two entries of one name) and lets
    every file be removed. *)
Definition removable (d : Disk) : Prop :=
  NoDup (map name (entries d)) ∧ Forall (fun e => unlinkFails e = false) (entries d).

(** The identifier is a key already: [getCacheKey] returns it as it is. *)
Definition consistent (key : string) : bool :=
  startsWith key "original_" || startsWith key "thumbnail_".

(** A character of the decimal numeral of an integer. *)
Definition numeric (c : ascii) : Prop := JS.is_digit c = true ∨ c = "-"%char.

(** The text [sub] occurs in [s]. *)
Definition occurs (sub s : string) : Prop :=
  exists before behind, s = (before ++ sub ++ behind)%string.

(** The entries that [clear] leaves in place: the protected file, what is
    not a regular file, and what the file system refuses to remove. *)
Definition survivesClear (e : DirEntry) : bool :=
  isProtected (name e) || negb (isFile e) || unlinkFails e.

(** The running total is the number of bytes that the regular files of the
    directory occupy. *)
Definition accurate (c : t) (d : Disk) : Prop := currentCacheSize c = diskSize d.

End ImageCache.

(** ** ExifExtractor.ts *)

Module ExifExtractor.

Record PhotoMetadataEntry := {
  location : option string;
  captureDate : option string;
  address : option string;
  FullAddress : option string;
  ShortAddress : option string;
  synologyId : Z;
  spaceId : option Z
}.

(** The fields of [ExifMetadata] that the database functions read. *)
Record ExifMetadata := {
  md_captureDate : option string;
  md_location : option string
}.

(** A queued closure of [enqueueGeocoding], by the values it captured. *)
Record Task := {
  key : string;
  lat : string;
  lon : string
}.

(** What a file holds, as [loadMetadataDatabase] tells contents apart:
    text that is empty after [trim], the serialisation of a database, or
    anything else ([JSON.parse] throws). *)
Inductive Content :=
| Blank (raw : string)
| Json (database : gmap string PhotoMetadataEntry)
| Corrupt (raw : string).

(** What the file system does to the next call: it serves it, it fails it,
    or (for a call that writes) it fails it after leaving [residue] in the
    target. *)
Inductive Fault := NoFault | Fails | FailsHalfway (residue : Content).

Inductive Errno := ENOENT | EIO.

Inductive Result (A : Type) := Done (a : A) | Threw (e : Errno).
Arguments Done {A} a.
Arguments Threw {A} e.

Inductive Op :=
| Access (p : string)
| CopyFile (src dst : string)
| ReadFile (p : string)
| WriteFile (p : string)
| Rename (src dst : string)
| Unlink (p : string)
| Enqueue (task : Task)
| Request (time : Z) (lat lon : string).

(** One observable step: the operation, whether it succeeded, and the
    files as they are right after it. *)
Record Step := {
  op : Op;
  ok : bool;
  after : gmap string Content
}.

(** The answer of the geocoding service. *)
Record Address := {
  city : option string;
  town : option string;
  village : option string;
  municipality : option string;
  county : option string;
  country : option string
}.

Record Body := {
  error : bool;
  display_name : option string;
  addr : option Address
}.

(** [Response status data]: [axios.get] resolves ([data] is [None] for a
    falsy body); [Failure]: it rejects (time-out, network error). *)
Inductive Reply := Response (status : Z) (data : option Body) | Failure.

(** What the environment contributes to one call of [reverseGeocode]: the
    time that passed before the call reads the clock, by how much a timer
    fires late, how long the request takes, and the answer. *)
Record Exchange := {
  delayBefore : N;
  timerLag : N;
  latency : N;
  reply : Reply
}.

(** The [ExifExtractor] object (first four fields) and its environment:
    the files, the faults and exchanges still to come, the clock
    ([Date.now()]) and the steps taken so far, newest first. *)
Record World := {
  metadataFilePath : option string;
  lastGeocodingRequestTime : Z;
  geocodingQueue : list Task;
  isProcessingGeocodingQueue : bool;
  files : gmap string Content;
  faults : list Fault;
  exchanges : list Exchange;
  clock : Z;
  trace : list Step
}.

Definition geocodingRateLimitMs : Z := 5000.

Definition set_last (v : Z) (w : World) : World :=
  {| metadataFilePath := metadataFilePath w; lastGeocodingRequestTime := v;
     geocodingQueue := geocodingQueue w;
     isProcessingGeocodingQueue := isProcessingGeocodingQueue w;
     files := files w; faults := faults w; exchanges := exchanges w;
     clock := clock w; trace := trace w |}.

Definition set_queue (v : list Task) (w : World) : World :=
  {| metadataFilePath := metadataFilePath w;
     lastGeocodingRequestTime := lastGeocodingRequestTime w;
     geocodingQueue := v;
     isProcessingGeocodingQueue := isProcessingGeocodingQueue w;
     files := files w; faults := faults w; exchanges := exchanges w;
     clock := clock w; trace := trace w |}.

Definition set_processing (v : bool) (w : World) : World :=
  {| metadataFilePath := metadataFilePath w;
     lastGeocodingRequestTime := lastGeocodingRequestTime w;
     geocodingQueue := geocodingQueue w;
     isProcessingGeocodingQueue := v;
     files := files w; faults := faults w; exchanges := exchanges w;
     clock := clock w; trace := trace w |}.

Definition set_files (v : gmap string Content) (w : World) : World :=
  {| metadataFilePath := metadataFilePath w;
     lastGeocodingRequestTime := lastGeocodingRequestTime w;
     geocodingQueue := geocodingQueue w;
     isProcessingGeocodingQueue := isProcessingGeocodingQueue w;
     files := v; faults := faults w; exchanges := exchanges w;
     clock := clock w; trace := trace w |}.

Definition set_faults (v : list Fault) (w : World) : World :=
  {| metadataFilePath := metadataFilePath w;
     lastGeocodingRequestTime := lastGeocodingRequestTime w;
     geocodingQueue := geocodingQueue w;
     isProcessingGeocodingQueue := isProcessingGeocodingQueue w;
     files := files w; faults := v; exchanges := exchanges w;
     clock := clock w; trace := trace w |}.

Definition set_exchanges (v : list Exchange) (w : World) : World :=
  {| metadataFilePath := metadataFilePath w;
     lastGeocodingRequestTime := lastGeocodingRequestTime w;
     geocodingQueue := geocodingQueue w;
     isProcessingGeocodingQueue := isProcessingGeocodingQueue w;
     files := files w; faults := faults w; exchanges := v;
     clock := clock w; trace := trace w |}.

Definition set_clock (v : Z) (w : World) : World :=
  {| metadataFilePath := metadataFilePath w;
     lastGeocodingRequestTime := lastGeocodingRequestTime w;
     geocodingQueue := geocodingQueue w;
     isProcessingGeocodingQueue := isProcessingGeocodingQueue w;
     files := files w; faults := faults w; exchanges := exchanges w;
     clock := v; trace := trace w |}.

Definition set_trace (v : list Step) (w : World) : World :=
  {| metadataFilePath := metadataFilePath w;
     lastGeocodingRequestTime := lastGeocodingRequestTime w;
     geocodingQueue := geocodingQueue w;
     isProcessingGeocodingQueue := isProcessingGeocodingQueue w;
     files := files w; faults := faults w; exchanges := exchanges w;
     clock := clock w; trace := v |}.

(** *** Computations in the world *)

Definition M (A : Type) : Type := World -> A * World.

Definition ret {A} (a : A) : M A := fun w => (a, w).

Definition bind {A B} (m : M A) (k : A -> M B) : M B :=
  fun w => let '(a, w') := m w in k a w'.

Notation "'do' x <- m ; k" := (bind m (fun x => k))
  (at level 10, x name, m at level 100, k at level 200).
Notation "'do_' m ; k" := (bind m (fun _ => k))
  (at level 10, m at level 100, k at level 200).

Definition note (o : Op) (success : bool) : M unit :=
  fun w => (tt, set_trace ({| op := o; ok := success; after := files w |} :: trace w) w).

Definition nextFault : M Fault :=
  fun w =>
    match faults w with
    | [] => (NoFault, w)
    | f :: rest => (f, set_faults rest w)
    end.

Definition lookupFile (p : string) : M (option Content) :=
  fun w => (files w !! p, w).

Definition store (p : string) (c : Content) : M unit :=
  fun w => (tt, set_files (<[p := c]> (files w)) w).

Definition remove (p : string) : M unit :=
  fun w => (tt, set_files (delete p (files w)) w).

(** *** node:fs/promises *)

Definition access (p : string) : M (Result unit) :=
  do f <- nextFault;
  do c <- lookupFile p;
  match f, c with
  | NoFault, Some _ => do_ note (Access p) true; ret (Done tt)
  | NoFault, None => do_ note (Access p) false; ret (Threw ENOENT)
  | _, _ => do_ note (Access p) false; ret (Threw EIO)
  end.

Definition readFile (p : string) : M (Result Content) :=
  do f <- nextFault;
  do c <- lookupFile p;
  match f, c with
  | NoFault, Some c => do_ note (ReadFile p) true; ret (Done c)
  | NoFault, None => do_ note (ReadFile p) false; ret (Threw ENOENT)
  | _, _ => do_ note (ReadFile p) false; ret (Threw EIO)
  end.

Definition copyFile (src dst : string) : M (Result unit) :=
  do f <- nextFault;
  do c <- lookupFile src;
  match f, c with
  | NoFault, Some c => do_ store dst c; do_ note (CopyFile src dst) true; ret (Done tt)
  | NoFault, None => do_ note (CopyFile src dst) false; ret (Threw ENOENT)
  | Fails, _ => do_ note (CopyFile src dst) false; ret (Threw EIO)
  | FailsHalfway residue, _ =>
      do_ store dst residue; do_ note (CopyFile src dst) false; ret (Threw EIO)
  end.

Definition writeFile (p : string) (c : Content) : M (Result unit) :=
  do f <- nextFault;
  match f with
  | NoFault => do_ store p c; do_ note (WriteFile p) true; ret (Done tt)
  | Fails => do_ note (WriteFile p) false; ret (Threw EIO)
  | FailsHalfway residue => do_ store p residue; do_ note (WriteFile p) false; ret (Threw EIO)
  end.

(** [rename] replaces the target in one step or not at all. *)
Definition rename (src dst : string) : M (Result unit) :=
  do f <- nextFault;
  do c <- lookupFile src;
  match f, c with
  | NoFault, Some c =>
      do_ remove src; do_ store dst c; do_ note (Rename src dst) true; ret (Done tt)
  | NoFault, None => do_ note (Rename src dst) false; ret (Threw ENOENT)
  | _, _ => do_ note (Rename src dst) false; ret (Threw EIO)
  end.

Definition unlink (p : string) : M (Result unit) :=
  do f <- nextFault;
  do c <- lookupFile p;
  match f, c with
  | NoFault, Some _ => do_ remove p; do_ note (Unlink p) true; ret (Done tt)
  | NoFault, None => do_ note (Unlink p) false; ret (Threw ENOENT)
  | _, _ => do_ note (Unlink p) false; ret (Threw EIO)
  end.

Definition backupPath (p : string) : string := (p ++ ".backup")%string.
Definition tempPath (p : string) : string := (p ++ ".tmp")%string.

(** *** The metadata database *)

(** [saveMetadataDatabase], in its two phases.  First the inner [try]: a
    best-effort copy of the existing file to the backup path. *)
Definition backupExistingFile (p : string) : M unit :=
  do a <- access p;
  match a with
  | Done _ => do_ copyFile p (backupPath p); ret tt
  | Threw _ => ret tt
  end.

(** Then the write to the temporary path and the rename;
    [JSON.stringify(database, null, 2)] is the content [Json database].  A
    failure of either leads to the [catch] block, which removes the
    temporary file. *)
Definition replaceThroughTemp (p : string) (database : gmap string PhotoMetadataEntry)
  : M unit :=
  do r <- writeFile (tempPath p) (Json database);
  match r with
  | Done _ =>
      do r' <- rename (tempPath p) p;
      match r' with
      | Done _ => ret tt
      | Threw _ => do_ unlink (tempPath p); ret tt
      end
  | Threw _ => do_ unlink (tempPath p); ret tt
  end.

Definition saveMetadataDatabase (database : gmap string PhotoMetadataEntry) : M unit :=
  fun w =>
    match metadataFilePath w with
    | None => (tt, w)
    | Some p => (do_ backupExistingFile p; replaceThroughTemp p database) w
    end.

Definition loadMetadataDatabase : M (gmap string PhotoMetadataEntry) :=
  fun w =>
    match metadataFilePath w with
    | None => (∅, w)
    | Some p =>
        (do r <- readFile p;
         match r with
         | Done (Blank _) => ret ∅
         | Done (Json database) => ret database
         | Done (Corrupt _) =>
             do b <- readFile (backupPath p);
             match b with
             | Done (Json backupDb) =>
                 do_ saveMetadataDatabase backupDb; ret backupDb
             | _ => ret ∅
             end
         | Threw _ => ret ∅
         end) w
    end.

(** [parseLocation]: ["51.12, 13.77"] gives the two numbers. *)
Definition parseLocation (loc : string) : option (string * string) :=
  match map JS.trim (JS.split ","%char loc) with
  | [a; b] =>
      match JS.parseFloat a, JS.parseFloat b with
      | Some lat, Some lon => Some (lat, lon)
      | _, _ => None
      end
  | _ => None
  end.

(** [`${synologyId}_${spaceId || 0}`]. *)
Definition dbKey (synologyId : Z) (spaceId : option Z) : string :=
  (pretty synologyId ++ "_" ++ pretty (match spaceId with Some n => n | None => 0 end))%string.

(** [enqueueGeocoding]: the closure goes to the end of the queue.  The
    call of [processGeocodingQueue] that follows the push is the function
    of that name below, applied when the caller has yielded. *)
Definition enqueueGeocoding (k lat lon : string) : M unit :=
  let task := {| key := k; lat := lat; lon := lon |} in
  fun w => note (Enqueue task) true (set_queue (geocodingQueue w ++ [task]) w).

Definition savePhotoMetadata (synologyId : Z) (spaceId : option Z)
    (metadata : ExifMetadata) : M unit :=
  fun w =>
    match metadataFilePath w with
    | None => (tt, w)
    | Some _ =>
        if negb (JS.truthy (md_location metadata))
           && negb (JS.truthy (md_captureDate metadata))
        then (tt, w)
        else
          (do database <- loadMetadataDatabase;
           let key := dbKey synologyId spaceId in
           match database !! key with
           | Some existingEntry =>
               if JS.truthy (location existingEntry)
                  && negb (JS.truthy (FullAddress existingEntry))
               then
                 match parseLocation (default EmptyString (location existingEntry)) with
                 | Some (lat, lon) => enqueueGeocoding key lat lon
                 | None => ret tt
                 end
               else ret tt
           | None =>
               let entry := {| location := md_location metadata;
                               captureDate := md_captureDate metadata;
                               address := None; FullAddress := None;
                               ShortAddress := None;
                               synologyId := synologyId; spaceId := spaceId |} in
               do_ saveMetadataDatabase (<[key := entry]> database);
               if JS.truthy (md_location metadata)
               then
                 match parseLocation (default EmptyString (md_location metadata)) with
                 | Some (lat, lon) => enqueueGeocoding key lat lon
                 | None => ret tt
                 end
               else ret tt
           end) w
    end.

Definition updatePhotoAddress (k full short : string) : M unit :=
  fun w =>
    match metadataFilePath w with
    | None => (tt, w)
    | Some _ =>
        (do database <- loadMetadataDatabase;
         match database !! k with
         | Some e =>
             saveMetadataDatabase
               (<[k := {| location := location e; captureDate := captureDate e;
                          address := address e; FullAddress := Some full;
                          ShortAddress := Some short;
                          synologyId := synologyId e; spaceId := spaceId e |}]> database)
         | None => ret tt
         end) w
    end.

(** [checkAndLogGeocodingUrl]: the record decides whether a task is due,
    the coordinates come from the [location] that the caller passes. *)
Definition checkAndLogGeocodingUrl (synologyId : Z) (spaceId : option Z)
    (loc : string) : M unit :=
  fun w =>
    match metadataFilePath w with
    | None => (tt, w)
    | Some _ =>
        (do database <- loadMetadataDatabase;
         let key := dbKey synologyId spaceId in
         match database !! key with
         | Some entry =>
             if JS.truthy (location entry) && negb (JS.truthy (FullAddress entry))
             then
               match parseLocation loc with
               | Some (lat, lon) => enqueueGeocoding key lat lon
               | None => ret tt
               end
             else ret tt
         | None => ret tt
         end) w
    end.

(** The [ExifMetadata] object that [loadMetadataFromDatabase] fills.  A
    field that is not assigned is [None]; [captureTimestamp] holds
    [Some None] for [NaN]. *)
Record DatabaseMetadata := {
  latitude : option string;
  longitude : option string;
  dm_location : option string;
  dm_captureDate : option string;
  captureTimestamp : option (option Z);
  dm_FullAddress : option string;
  dm_ShortAddress : option string
}.

(** An optional string field copied under [if (entry.field)]. *)
Definition whenTruthy (o : option string) : option string :=
  if JS.truthy o then o else None.

Section WithDate.

(** [new Date(s).getTime()]; [None] stands for [NaN]. *)
Variable getTime : string -> option Z.

(** The block of [loadMetadataFromDatabase] that converts a database entry
    to [ExifMetadata]. *)
Definition toExifMetadata (entry : PhotoMetadataEntry) : DatabaseMetadata :=
  let coords :=
    if JS.truthy (location entry)
    then parseLocation (default EmptyString (location entry))
    else None in
  {| latitude := option_map fst coords;
     longitude := option_map snd coords;
     dm_location := match coords with Some _ => location entry | None => None end;
     dm_captureDate := whenTruthy (captureDate entry);
     captureTimestamp :=
       if JS.truthy (captureDate entry)
       then Some (getTime (default EmptyString (captureDate entry)))
       else None;
     dm_FullAddress := whenTruthy (FullAddress entry);
     dm_ShortAddress := whenTruthy (ShortAddress entry) |}.

Definition loadMetadataFromDatabase (synologyId : Z) (spaceId : option Z)
  : M (option DatabaseMetadata) :=
  fun w =>
    match metadataFilePath w with
    | None => (None, w)
    | Some _ =>
        (do database <- loadMetadataDatabase;
         let key := dbKey synologyId spaceId in
         match database !! key with
         | Some entry => ret (Some (toExifMetadata entry))
         | None => ret None
         end) w
    end.

End WithDate.

(** *** Reverse geocoding *)

(** [a || b] on optional strings. *)
Definition orElse (a b : option string) : option string :=
  if JS.truthy a then a else b.

Definition text (o : option string) : string := default EmptyString o.

Definition shortAddress (body : Body) (full : string) : string :=
  let fromAddress :=
    match addr body with
    | Some a =>
        let cityName :=
          text (orElse (city a) (orElse (town a) (orElse (village a)
                 (orElse (municipality a) (orElse (county a) (Some EmptyString)))))) in
        let countryName := text (orElse (country a) (Some EmptyString)) in
        if JS.nonempty cityName && JS.nonempty countryName
        then (cityName ++ " - " ++ countryName)%string
        else if JS.nonempty countryName then countryName
        else if JS.nonempty cityName then cityName
        else EmptyString
    | None => EmptyString
    end in
  let shortened :=
    if negb (JS.nonempty fromAddress) && JS.nonempty full
    then
      let parts := List.filter JS.nonempty (map JS.trim (JS.split ","%char full)) in
      match rev parts with
      | lastPart :: secondLastPart :: _ => (secondLastPart ++ " - " ++ lastPart)%string
      | [only] => only
      | [] => full
      end
    else fromAddress in
  if JS.nonempty shortened then shortened else full.

Definition nextExchange : M Exchange :=
  fun w =>
    match exchanges w with
    | [] => ({| delayBefore := 0; timerLag := 0; latency := 0; reply := Failure |}, w)
    | x :: rest => (x, set_exchanges rest w)
    end.

Definition sleep (ms : Z) : M unit := fun w => (tt, set_clock (clock w + ms) w).

(** [this.lastGeocodingRequestTime = Date.now()]. *)
Definition stamp : M unit := fun w => (tt, set_last (clock w) w).

Definition reverseGeocode (lat lon : string) : M (option (string * string)) :=
  do x <- nextExchange;
  do_ sleep (Z.of_N (delayBefore x));
  fun w =>
    let now := clock w in
    let timeSinceLastRequest := now - lastGeocodingRequestTime w in
    (do_ (if timeSinceLastRequest <? geocodingRateLimitMs
          then
            let waitTime := geocodingRateLimitMs - timeSinceLastRequest in
            sleep (waitTime + Z.of_N (timerLag x))
          else ret tt);
     do_ (fun w => note (Request (clock w) lat lon) true w);
     do_ sleep (Z.of_N (latency x));
     match reply x with
     | Failure => do_ stamp; ret None
     | Response status data =>
         if 500 <=? status then do_ stamp; ret None
         else if (400 <=? status) && (status <? 500) then do_ stamp; ret None
         else
           match data with
           | None => do_ stamp; ret None
           | Some body =>
               if error body then do_ stamp; ret None
               else if JS.truthy (display_name body)
               then
                 do_ stamp;
                 let full := JS.trim (text (display_name body)) in
                 ret (Some (full, shortAddress body full))
               else ret None
           end
     end) w.

(** The closure that [enqueueGeocoding] pushes. *)
Definition runTask (task : Task) : M unit :=
  do addressData <- reverseGeocode (lat task) (lon task);
  match addressData with
  | Some (full, short) => updatePhotoAddress (key task) full short
  | None => ret tt
  end.

(** The [while] loop of [processGeocodingQueue]; [fuel] bounds the number
    of rounds. *)
Fixpoint drain (fuel : nat) (w : World) : World :=
  match fuel with
  | O => w
  | S fuel' =>
      match geocodingQueue w with
      | [] => w
      | task :: rest => drain fuel' (snd (runTask task (set_queue rest w)))
      end
  end.

Definition processGeocodingQueue (w : World) : World :=
  if isProcessingGeocodingQueue w then w
  else set_processing false (drain (length (geocodingQueue w)) (set_processing true w)).

(** The times at which the service was called, oldest first. *)
Definition requestTimes (w : World) : list Z :=
  rev (omap (fun s => match op s with Request time _ _ => Some time | _ => None end)
         (trace w)).

(** *** Callers that enqueue while the queue is being drained

    The queue as a transition system: any caller may push at any moment
    ([Push]), and the task in flight settles at some later moment
    ([Settle]).  [inFlight] lists the tasks that are executing. *)
Record Queue := {
  pending : list Task;
  processing : bool;
  inFlight : list Task
}.

Inductive Event := Push (task : Task) | Settle.

(** The loop head: take the next task, or leave the loop and clear the
    flag. *)
Definition loopHead (q : Queue) : Queue :=
  match pending q with
  | [] => {| pending := []; processing := false; inFlight := inFlight q |}
  | task :: rest =>
      {| pending := rest; processing := processing q; inFlight := task :: inFlight q |}
  end.

(** [processGeocodingQueue] up to its first [await]. *)
Definition startProcessing (q : Queue) : Queue :=
  if processing q then q
  else loopHead {| pending := pending q; processing := true; inFlight := inFlight q |}.

Definition react (q : Queue) (e : Event) : Queue :=
  match e with
  | Push task =>
      startProcessing
        {| pending := pending q ++ [task]; processing := processing q;
           inFlight := inFlight q |}
  | Settle =>
      match inFlight q with
      | [] => q
      | _ :: others =>
          loopHead {| pending := pending q; processing := processing q;
                      inFlight := others |}
      end
  end.

Definition idle : Queue := {| pending := []; processing := false; inFlight := [] |}.

Definition run (events : list Event) : Queue := fold_left react events idle.

(** *** Vocabulary of the statements *)

(** The fields of the object, the clock and the pending exchanges are the
    same in both worlds. *)
Definition sameObject (w w' : World) : Prop :=
  metadataFilePath w' = metadataFilePath w
  ∧ lastGeocodingRequestTime w' = lastGeocodingRequestTime w
  ∧ geocodingQueue w' = geocodingQueue w
  ∧ isProcessingGeocodingQueue w' = isProcessingGeocodingQueue w
  ∧ exchanges w' = exchanges w
  ∧ clock w' = clock w.

(** Only the file at [q] may differ between the two worlds. *)
Definition touchesOnly (q : string) (w w' : World) : Prop :=
  forall p, p ≠ q -> files w' !! p = files w !! p.

(** The world has taken the one step [o], with outcome [success]. *)
Definition stepped (o : Op) (success : bool) (w w' : World) : Prop :=
  trace w' = {| op := o; ok := success; after := files w' |} :: trace w.

#[export] Instance Task_eq_dec : EqDecision Task.
Proof. solve_decision. Defined.

#[export] Instance Op_eq_dec : EqDecision Op.
Proof. solve_decision. Defined.

(** The step in which the temporary file replaced the file at [p]. *)
Definition renamed (p : string) (s : Step) : Prop :=
  op s = Rename (tempPath p) p ∧ ok s = true.

#[export] Instance renamed_dec p s : Decision (renamed p s).
Proof. unfold renamed. apply _. Defined.

(** The record that [savePhotoMetadata] inserts: location and capture date
    from the metadata, no address yet. *)
Definition freshEntry (synologyId : Z) (spaceId : option Z) (metadata : ExifMetadata)
  : PhotoMetadataEntry :=
  {| location := md_location metadata; captureDate := md_captureDate metadata;
     address := None; FullAddress := None; ShortAddress := None;
     synologyId := synologyId; spaceId := spaceId |}.

(** A character of a numeral in fixed notation. *)
Definition inNumeral (c : ascii) : Prop :=
  JS.is_digit c = true ∨ c = "-"%char ∨ c = "."%char.

(** One or more decimal digits. *)
Definition digits (s : string) : bool :=
  JS.nonempty s && forallb JS.is_digit (list_ascii_of_string s).

(** The numeral that [toFixed] writes for a finite number below 1e21: a
    minus sign for a negative number, the digits of the integer part, a
    point and the digits of the fraction. *)
Definition fixed (negative : bool) (int frac : string) : string :=
  ((if negative then "-" else "") ++ int ++ "." ++ frac)%string.

(** The record [e] with the two fields that [updatePhotoAddress] assigns. *)
Definition withAddress (e : PhotoMetadataEntry) (full short : string)
  : PhotoMetadataEntry :=
  {| location := location e; captureDate := captureDate e; address := address e;
     FullAddress := Some full; ShortAddress := Some short;
     synologyId := synologyId e; spaceId := spaceId e |}.

(** Right after step [s] the file at [p] holds [v]. *)
Definition holds (p : string) (v : option Content) (s : Step) : Prop :=
  after s !! p = v.

(** Step [s] is a read of the file at [p]. *)
Definition reads (p : string) (s : Step) : Prop := op s = ReadFile p.

(** The geocoding task for the record at [k] with location text [loc]: one
    task when the text parses into two numbers, none otherwise. *)
Definition tasksFor (k : string) (loc : option string) : list Task :=
  match parseLocation (text loc) with
  | Some (lat, lon) => [{| key := k; lat := lat; lon := lon |}]
  | None => []
  end.

(** The step that records the push of [task]. *)
Definition isEnqueue (task : Task) (s : Step) : Prop := op s = Enqueue task.

(** Consecutive times of a list (oldest first) are at least [gap] apart. *)
Fixpoint spaced (gap : Z) (times : list Z) : Prop :=
  match times with
  | a :: rest =>
      match rest with
      | b :: _ => a + gap <= b ∧ spaced gap rest
      | [] => True
      end
  | [] => True
  end.

(** The answers after which [reverseGeocode] sets
    [lastGeocodingRequestTime]: every answer but a response below 400 whose
    body is present, carries no [error] and has no [display_name]. *)
Definition stampsClock (x : Exchange) : bool :=
  match reply x with
  | Failure => true
  | Response status data =>
      (500 <=? status) || ((400 <=? status) && (status <? 500))
      || match data with
         | None => true
         | Some body => error body || JS.truthy (display_name body)
         end
  end.

(** The exchange that the next call of [reverseGeocode] will see. *)
Definition headExchange (w : World) : Exchange :=
  match exchanges w with
  | x :: _ => x
  | [] => {| delayBefore := 0; timerLag := 0; latency := 0; reply := Failure |}
  end.

(** The calls so far are at least the rate limit apart, and none is later
    than [lastGeocodingRequestTime]. *)
Definition paced (w : World) : Prop :=
  spaced geocodingRateLimitMs (requestTimes w)
  ∧ Forall (fun t => t <= lastGeocodingRequestTime w) (requestTimes w).

(** At most one task executes, and the flag is set exactly while one
    does. *)
Definition singleFlight (q : Queue) : Prop :=
  (processing q = true ∧ length (inFlight q) = 1%nat)
  ∨ (processing q = false ∧ pending q = [] ∧ inFlight q = []).

(** Step [s] is a call into the file system. *)
Definition isFileStep (s : Step) : Prop :=
  match op s with
  | Enqueue _ | Request _ _ _ => False
  | _ => True
  end.

End ExifExtractor.

(** ** Logger.ts *)

Module Logger.

Definition LOG_PREFIX : string := "[MMM-SynPhotoSlideshow]".

(** The type [LogLevel]. *)
Inductive LogLevel := LevelError | LevelWarn | LevelInfo | LevelDebug.

(** [levels.indexOf(level)] in [['error', 'warn', 'info', 'debug']]. *)
Definition indexOf (level : LogLevel) : Z :=
  match level with
  | LevelError => 0
  | LevelWarn => 1
  | LevelInfo => 2
  | LevelDebug => 3
  end.

Definition _shouldLog (_logLevel : LogLevel) (level : LogLevel) : bool :=
  let currentLevelIndex := indexOf _logLevel in
  let messageLevelIndex := indexOf level in
  messageLevelIndex <=? currentLevelIndex.

Definition _formatMessage (message : string) : string :=
  if String.prefix LOG_PREFIX message then message
  else (LOG_PREFIX ++ " " ++ message)%string.

(** What one of [error], [warn], [info] and [debug] hands to the
    MagicMirror logger: the formatted message, or nothing. *)
Definition emit (_logLevel : LogLevel) (level : LogLevel) (message : string)
  : option string :=
  if _shouldLog _logLevel level then Some (_formatMessage message) else None.

End Logger.

(** ** Sample data *)

Module Samples.
Import ImageListManager.

Definition photo (name : string) (time : Z) : PhotoItem :=
  {| path := name; url := None; created := time; modified := time;
     id := None; synologyId := None; spaceId := None |}.

Definition nameOrder : ModuleConfig :=
  {| showAllImagesBeforeRestart := true; randomizeImageOrder := false;
     sortImagesBy := "name"; sortImagesDescending := false |}.

Definition threePhotos : list PhotoItem :=
  [photo "b.jpg" 1; photo "a.jpg" 2; photo "a2.jpg" 3].

Definition newline : string := String "010"%char EmptyString.

(** The tracker after the three photos have been shown. *)
Definition allShown : TrackerFile :=
  {| text := Some ("b.jpg" ++ newline ++ "a.jpg" ++ newline ++ "a2.jpg" ++ newline)%string;
     writeRefused := false |}.

Definition allShownReadOnly : TrackerFile :=
  {| text := text allShown; writeRefused := true |}.

(** One round of the serve loop: take the next photo and record it as
    shown. *)
Definition serve (state : t * TrackerFile) : option (t * TrackerFile) :=
  match getNextImage (fst state) with
  | (Some image, m) => addImageToShown (path image) m (snd state)
  | (None, _) => None
  end.

Definition noTracker : TrackerFile := {| text := None; writeRefused := false |}.

(** [prepare], then three photos served. *)
Definition threeServed : option (t * TrackerFile) :=
  let '(_, m, f) :=
    prepareImageList threePhotos nameOrder false 0 (fun _ => 0%N) init noTracker in
  match serve (m, f) with
  | Some s1 => match serve s1 with Some s2 => serve s2 | None => None end
  | None => None
  end.

(** Photos as [processPhotoList] builds them. *)
Definition provided (name : string) (photoId space : Z) : PhotoItem :=
  {| path := name; url := None; created := 0; modified := 0;
     id := Some (IdStr (pretty space ++ "_" ++ pretty photoId));
     synologyId := Some photoId; spaceId := Some space |}.

(** A client with a session, and two answers of the Photos API: photo 5
    carries both tags. *)
Definition client : SynologyPhotosClient.t :=
  {| SynologyPhotosClient.baseUrl := "https://nas.example:5001";
     SynologyPhotosClient.shareToken := EmptyString;
     SynologyPhotosClient.useSharedAlbum := false;
     SynologyPhotosClient.sid := Some "session"%string |}.

Definition listed (photoId : Z) (kind : string) : SynologyPhotosClient.SynologyPhoto :=
  {| SynologyPhotosClient.photo_id := photoId; SynologyPhotosClient.type := kind;
     SynologyPhotosClient.filename := None;
     SynologyPhotosClient.time := Some 1700000000;
     SynologyPhotosClient.indexed_time := None;
     SynologyPhotosClient.cache_key := Some "5_1700000000"%string |}.

Definition tagAnswers
  : list (list SynologyPhotosClient.SynologyPhoto * option Z * (nat -> Z)) :=
  [ ([listed 5 "photo"; listed 6 "video"], Some 0, fun _ => 0);
    ([listed 5 "photo"; listed 7 "live_photo"], Some 0, fun _ => 0) ].

Definition midBatch : t :=
  {| imageList := threePhotos; nextBatchList := []; alreadyShownSet := ∅;
     index := 1; currentBatchOffset := 0 |}.

Definition newestFirst : ModuleConfig :=
  {| showAllImagesBeforeRestart := false; randomizeImageOrder := false;
     sortImagesBy := "created"; sortImagesDescending := true |}.

End Samples.

Module Caches.
Import ImageCache.

Definition megabyte : Z := 1048576.

(** An empty cache of at most 10 MB. *)
Definition fresh : t :=
  {| cacheDir := Some ".image-cache"%string; cache := Some [];
     currentCacheSize := 0; maxCacheSize := 10 * megabyte |}.

Definition emptyDirectory : Disk := {| entries := []; readdirFails := false |}.

(** [set] of a 3 MB original under the key [original_{i}_0], written at time
    [i]; a hash is never needed for such identifiers. *)
Definition insert (i : Z) (state : t * Disk) : t * Disk :=
  let '(_, c, d) :=
    set (fun s => s) ("original_" ++ pretty i ++ "_0")%string (3 * megabyte) ".jpg"
      None None i false (fst state) (snd state) in
  (c, d).

Definition afterFour : t * Disk :=
  insert 4 (insert 3 (insert 2 (insert 1 (fresh, emptyDirectory)))).

Definition afterFive : t * Disk := insert 5 afterFour.

(** The fifth insertion up to the point where it starts its eviction: the
    file is written and counted. *)
Definition fifthWritten : t * Disk :=
  ({| cacheDir := cacheDir (fst afterFour);
      cache := option_map (fun keys => keys ++ ["original_5_0"%string]) (cache (fst afterFour));
      currentCacheSize := currentCacheSize (fst afterFour) + 3 * megabyte;
      maxCacheSize := maxCacheSize (fst afterFour) |},
   writeFile "original_5_0.jpg" (3 * megabyte) 5 (snd afterFour)).

Definition names (d : Disk) : list string := map name (entries d).

(** A directory in which the protected database file has ended up. *)
Definition withDatabaseFile : Disk :=
  {| entries :=
       [ {| name := "photo_metadata.json"; isFile := true; size := 100; mtime := 1;
            statFails := false; unlinkFails := false |};
         {| name := "original_1_0.jpg"; isFile := true; size := 40; mtime := 2;
            statFails := false; unlinkFails := false |} ]%string;
     readdirFails := false |}.

Definition overBudget : t :=
  {| cacheDir := Some ".image-cache"%string; cache := Some ["original_1_0"%string];
     currentCacheSize := 140; maxCacheSize := 100 |}.

End Caches.

Module Worlds.
Import ExifExtractor.

Definition dbPath : string := "photo_metadata.json".

Definition berlin : PhotoMetadataEntry :=
  {| location := Some "52.52, 13.405"%string;
     captureDate := Some "2024-05-01T10:00:00.000Z"%string;
     address := None; FullAddress := None; ShortAddress := None;
     synologyId := 42; spaceId := None |}.

(** A record whose location text does not parse. *)
Definition nowhere : PhotoMetadataEntry :=
  {| location := Some "unknown"%string; captureDate := None;
     address := None; FullAddress := None; ShortAddress := None;
     synologyId := 7; spaceId := None |}.

Definition oneRecord : gmap string PhotoMetadataEntry := {[ "42_0"%string := berlin ]}.

Definition twoRecords : gmap string PhotoMetadataEntry :=
  <[ "7_0"%string := nowhere ]> oneRecord.

Definition world (fs : gmap string Content) (pending : list Fault) : World :=
  {| metadataFilePath := Some dbPath; lastGeocodingRequestTime := 0;
     geocodingQueue := []; isProcessingGeocodingQueue := false;
     files := fs; faults := pending; exchanges := []; clock := 1000000;
     trace := [] |}.

(** The database is in place and the file system works. *)
Definition intact : World := world {[ dbPath := Json twoRecords ]} [].

(** The write of the temporary file breaks off after one character. *)
Definition writeBreaks : World :=
  world {[ dbPath := Json oneRecord ]} [NoFault; NoFault; FailsHalfway (Corrupt "{")].

(** The database file is empty, the backup is good. *)
Definition emptied : World :=
  world (<[ backupPath dbPath := Json oneRecord ]> {[ dbPath := Blank EmptyString ]}) [].


(** Three tasks are queued.  The service answers the first call with an
    address, the second with a body that has neither [error] nor
    [display_name] (any page that is not an answer of the service), the
    third with an address again; every answer takes 100 ms. *)
Definition threeTasks : list Task :=
  [ {| key := "42_0"; lat := "52.52"; lon := "13.405" |};
    {| key := "43_0"; lat := "48.85"; lon := "2.35" |};
    {| key := "44_0"; lat := "41.9"; lon := "12.5" |} ]%string.

Definition anAddress : Body :=
  {| error := false; display_name := Some "Berlin, Deutschland"%string; addr := None |}.

Definition notAnAnswer : Body :=
  {| error := false; display_name := None; addr := None |}.

Definition answer (body : Body) : Exchange :=
  {| delayBefore := 0; timerLag := 0; latency := 100;
     reply := Response 200 (Some body) |}.

Definition threeQueued : World :=
  {| metadataFilePath := Some dbPath; lastGeocodingRequestTime := 0;
     geocodingQueue := threeTasks; isProcessingGeocodingQueue := false;
     files := {[ dbPath := Json oneRecord ]}; faults := [];
     exchanges := [answer anAddress; answer notAnAnswer; answer anAddress];
     clock := 1000000; trace := [] |}.

(** Two tasks are queued and the service answers both with an address. *)
Definition twoQueued : World :=
  {| metadataFilePath := Some dbPath; lastGeocodingRequestTime := 0;
     geocodingQueue := [ {| key := "42_0"; lat := "52.52"; lon := "13.405" |};
                         {| key := "43_0"; lat := "48.85"; lon := "2.35" |} ]%string;
     isProcessingGeocodingQueue := false;
     files := {[ dbPath := Json oneRecord ]}; faults := [];
     exchanges := [answer anAddress; answer anAddress];
     clock := 1000000; trace := [] |}.

(** Metadata of a photo taken in Paris. *)
Definition paris : ExifMetadata :=
  {| md_captureDate := Some "2023-07-14T09:30:00.000Z"%string;
     md_location := Some "48.856600, 2.352200"%string |}.

Definition dateOnly : ExifMetadata :=
  {| md_captureDate := Some "2024-05-01T10:00:00.000Z"%string; md_location := None |}.

Definition nothingUseful : ExifMetadata :=
  {| md_captureDate := None; md_location := None |}.

End Worlds.

(** * Properties *)

(** Splits a statement about every step of a short list into one goal per
    step. *)
Ltac each_step :=
  repeat match goal with
         | |- Forall _ (_ :: _) => apply List.Forall_cons
         | |- Forall _ [] => apply List.Forall_nil
         end.

(** ** The list manager: shuffle *)

Section ShuffleFacts.
Import ImageListManager.

Lemma swap_Permutation {A} (l : list A) i j : JS.swap l i j ≡ₚ l.
Proof.
  unfold JS.swap.
  destruct (l !! i) as [x|] eqn:Hi; [|done].
  destruct (l !! j) as [y|] eqn:Hj; [|done].
  by apply Permutation_insert_swap.
Qed.

Lemma swap_length {A} (l : list A) i j : length (JS.swap l i j) = length l.
Proof. apply Permutation_length, swap_Permutation. Qed.

(** A draw [num / den] from the unit interval selects an index below the
    bound. *)
Lemma floor_scaled_lt num den n :
  0 <= num < den -> (0 < n)%nat -> (JS.floor_scaled num den n < n)%nat.
Proof.
  intros [Hnum Hlt] Hn. unfold JS.floor_scaled.
  assert (Hq : (num * Z.of_nat n) / den < Z.of_nat n).
  { apply Z.div_lt_upper_bound; [lia|]. nia. }
  assert (0 <= (num * Z.of_nat n) / den) by (apply Z.div_pos; lia).
  lia.
Qed.

Lemma seededRandom_range seed : 0 <= seed -> 0 <= seededRandom seed < 233280.
Proof.
  intros Hs. unfold seededRandom.
  apply Z.rem_bound_pos; lia.
Qed.

(** The index drawn in the first sweep lies in [0, i]. *)
Lemma seeded_draw_in_range seed i :
  0 <= seed -> (JS.floor_scaled (seededRandom seed) 233280 (S i) <= i)%nat.
Proof.
  intros Hs.
  pose proof (floor_scaled_lt (seededRandom seed) 233280 (S i)
                (seededRandom_range seed Hs)) as H.
  lia.
Qed.

(** The index drawn in the second sweep lies in [0, i]. *)
Lemma random_draw_in_range (m : N) i :
  (JS.floor_scaled (Z.of_N m mod two53) two53 (S i) <= i)%nat.
Proof.
  assert (H : 0 <= Z.of_N m mod two53 < two53)
    by (apply Z.mod_pos_bound; reflexivity).
  pose proof (floor_scaled_lt _ two53 (S i) H). lia.
Qed.

Lemma firstPass_Permutation i seed l : firstPass i seed l ≡ₚ l.
Proof.
  revert seed l. induction i as [|i IH]; intros seed l; simpl; [done|].
  rewrite IH. apply swap_Permutation.
Qed.

Lemma secondPass_Permutation i k random l : secondPass i k random l ≡ₚ l.
Proof.
  revert k l. induction i as [|i IH]; intros k l; simpl; [done|].
  rewrite IH. apply swap_Permutation.
Qed.

Lemma firstPass_indices i seed l :
  0 <= seed -> (i < length l)%nat ->
  checkedFirstPass i seed l = Some (firstPass i seed l).
Proof.
  revert seed l. induction i as [|i IH]; intros seed l Hs Hi;
    cbn [checkedFirstPass firstPass]; [done|].
  pose proof (seeded_draw_in_range seed (S i) Hs) as Hj.
  unfold checkedSwap. rewrite bool_decide_eq_true_2 by (split; lia).
  apply IH.
  - apply seededRandom_range, Hs.
  - rewrite swap_length. lia.
Qed.

Lemma secondPass_indices i k random l :
  (i < length l)%nat ->
  checkedSecondPass i k random l = Some (secondPass i k random l).
Proof.
  revert k l. induction i as [|i IH]; intros k l Hi;
    cbn [checkedSecondPass secondPass]; [done|].
  pose proof (random_draw_in_range (random k) (S i)) as Hj.
  unfold checkedSwap. rewrite bool_decide_eq_true_2 by (split; lia).
  apply IH. rewrite swap_length. lia.
Qed.

End ShuffleFacts.

Lemma shuffleArray_shuffles (now : N) (random : nat -> N)
    (array : list ImageListManager.PhotoItem) :
  ImageListManager.shuffleArray now random array ≡ₚ array.
Proof.
  unfold ImageListManager.shuffleArray.
  rewrite secondPass_Permutation. apply firstPass_Permutation.
Qed.

(** No exchange of [shuffleArray] reaches outside the array. *)
Lemma shuffleArray_indices (now : N) (random : nat -> N)
    (array : list ImageListManager.PhotoItem) :
  ImageListManager.checkedShuffleArray now random array
  = Some (ImageListManager.shuffleArray now random array).
Proof.
  unfold ImageListManager.checkedShuffleArray, ImageListManager.shuffleArray.
  destruct array as [|a array]; [done|].
  rewrite firstPass_indices by (simpl; lia).
  apply secondPass_indices.
  rewrite (Permutation_length (firstPass_Permutation _ _ _)). simpl. lia.
Qed.

(** C7. For every input list, every clock value that seeds the first sweep
    and every sequence of values of the platform random source, the list
    that [shuffleArray] returns is a permutation of its input: it has the
    same length and each element occurs in it as often as in the input.
    Every exchange of the two sweeps is between two cells of the array. *)
Theorem shuffleArray_permutation (now : N) (random : nat -> N)
    (array : list ImageListManager.PhotoItem) :
  ImageListManager.shuffleArray now random array ≡ₚ array
  ∧ length (ImageListManager.shuffleArray now random array) = length array
  ∧ ImageListManager.checkedShuffleArray now random array
    = Some (ImageListManager.shuffleArray now random array).
Proof.
  pose proof (shuffleArray_shuffles now random array) as H.
  split; [exact H|]. split; [by apply Permutation_length|].
  apply shuffleArray_indices.
Qed.

(** ** The list manager: sorting *)

Section SortFacts.
Context {A : Type} (comparefn : A -> A -> Z).

Lemma insert_pivot_Permutation pivot r :
  JS.insert_pivot comparefn pivot r ≡ₚ pivot :: r.
Proof.
  induction r as [|e r IH]; simpl; [done|].
  destruct (comparefn pivot e <? 0); [|done].
  rewrite IH. apply Permutation_swap.
Qed.

Lemma fold_insert_Permutation l acc :
  fold_left (fun rprefix pivot => JS.insert_pivot comparefn pivot rprefix) l acc
  ≡ₚ l ++ acc.
Proof.
  revert acc. induction l as [|x l IH]; intros acc; simpl; [done|].
  rewrite IH, insert_pivot_Permutation. by rewrite Permutation_middle.
Qed.

Lemma sort_Permutation l : JS.sort comparefn l ≡ₚ l.
Proof.
  unfold JS.sort. rewrite <- Permutation_rev, fold_insert_Permutation.
  by rewrite app_nil_r.
Qed.

(** Stability, class by class: [P] selects the elements of one key. *)
Variable P : A -> bool.

Lemma filter_insert_pivot_out pivot r :
  P pivot = false ->
  List.filter P (JS.insert_pivot comparefn pivot r) = List.filter P r.
Proof.
  intros Hp. induction r as [|e r IH]; simpl; [by rewrite Hp|].
  destruct (comparefn pivot e <? 0); simpl.
  - by rewrite IH.
  - by rewrite Hp.
Qed.

Hypothesis passes_other_keys :
  forall x e, P x = true -> comparefn x e < 0 -> P e = false.

Lemma filter_insert_pivot_in pivot r :
  P pivot = true ->
  List.filter P (JS.insert_pivot comparefn pivot r) = pivot :: List.filter P r.
Proof.
  intros Hp. induction r as [|e r IH]; simpl; [by rewrite Hp|].
  destruct (comparefn pivot e <? 0) eqn:Hc; simpl.
  - apply Z.ltb_lt in Hc. rewrite (passes_other_keys pivot e Hp Hc). exact IH.
  - by rewrite Hp.
Qed.

Lemma filter_fold_insert l acc :
  List.filter P
    (fold_left (fun rprefix pivot => JS.insert_pivot comparefn pivot rprefix) l acc)
  = rev (List.filter P l) ++ List.filter P acc.
Proof.
  revert acc. induction l as [|x l IH]; intros acc; simpl; [done|].
  rewrite IH. destruct (P x) eqn:Hp.
  - rewrite filter_insert_pivot_in by done. simpl. by rewrite <- app_assoc.
  - by rewrite filter_insert_pivot_out by done.
Qed.

Lemma sort_keeps_class_order l :
  List.filter P (JS.sort comparefn l) = List.filter P l.
Proof.
  unfold JS.sort. rewrite filter_rev, filter_fold_insert. simpl.
  by rewrite app_nil_r, rev_involutive.
Qed.

End SortFacts.

Section SortOrder.
Context {A : Type} (comparefn : A -> A -> Z) (le : relation A).
Context `{!Transitive le}.
Hypothesis before_le : forall x e, comparefn x e < 0 -> le x e.
Hypothesis after_le : forall x e, ¬ comparefn x e < 0 -> le e x.

Lemma insert_pivot_sorted pivot r :
  StronglySorted (flip le) r ->
  StronglySorted (flip le) (JS.insert_pivot comparefn pivot r).
Proof.
  induction r as [|e r IH]; intros Hs; simpl.
  - repeat constructor.
  - apply StronglySorted_cons in Hs as [Hall Hs].
    destruct (comparefn pivot e <? 0) eqn:Hc.
    + apply Z.ltb_lt in Hc. apply StronglySorted_cons. split; [|by apply IH].
      rewrite insert_pivot_Permutation. constructor; [|done].
      by apply before_le.
    + apply Z.ltb_ge in Hc.
      assert (Hle : le e pivot) by (apply after_le; lia).
      apply StronglySorted_cons. split; [|by apply StronglySorted_cons].
      constructor; [done|].
      eapply Forall_impl; [exact Hall|]. intros b Hb. unfold flip in *.
      by etransitivity.
Qed.

Lemma fold_insert_sorted l acc :
  StronglySorted (flip le) acc ->
  StronglySorted (flip le)
    (fold_left (fun rprefix pivot => JS.insert_pivot comparefn pivot rprefix) l acc).
Proof.
  revert acc. induction l as [|x l IH]; intros acc Hacc; simpl; [done|].
  by apply IH, insert_pivot_sorted.
Qed.

Lemma StronglySorted_rev (l : list A) :
  StronglySorted (flip le) l -> StronglySorted le (rev l).
Proof.
  induction l as [|x l IH]; intros Hs; simpl; [constructor|].
  apply StronglySorted_cons in Hs as [Hall Hs].
  apply StronglySorted_app_2; [|by apply IH|repeat constructor].
  intros x1 x2 H1 H2. apply list_elem_of_singleton in H2 as ->.
  rewrite Forall_forall in Hall. apply Hall.
  apply list_elem_of_In. apply list_elem_of_In in H1. by apply in_rev.
Qed.

Lemma sort_sorted l : StronglySorted le (JS.sort comparefn l).
Proof. apply StronglySorted_rev, fold_insert_sorted. constructor. Qed.

End SortOrder.

Section ListManagerSort.
Import ImageListManager.


Lemma sortImageList_Permutation l sortBy sortDescending :
  sortImageList l sortBy sortDescending ≡ₚ l.
Proof.
  unfold sortImageList.
  assert (H : (if String.eqb sortBy "created" then JS.sort sortByCreated l
               else if String.eqb sortBy "modified" then JS.sort sortByModified l
               else JS.sort sortByFilename l) ≡ₚ l).
  { repeat case_match; apply sort_Permutation. }
  destruct sortDescending; [|done]. by rewrite <- Permutation_rev.
Qed.

(** Sorting by creation time is stable: the photos of one creation time
    keep their order, and the result ascends. *)
Lemma sort_created_stable l (time : Z) :
  List.filter (fun p => created p =? time) (sortImageList l "created" false)
  = List.filter (fun p => created p =? time) l.
Proof.
  apply sort_keeps_class_order. intros x e Hx Hc.
  apply Z.eqb_eq in Hx. apply Z.eqb_neq. unfold sortByCreated in Hc. lia.
Qed.

Lemma sort_created_ascends l :
  StronglySorted (fun a b => created a <= created b) (sortImageList l "created" false).
Proof.
  assert (Htrans : Transitive (fun a b : PhotoItem => created a <= created b))
    by (intros a b c; lia).
  apply (sort_sorted sortByCreated _); unfold sortByCreated; intros; lia.
Qed.

(** The same for the modification time. *)
Lemma sort_modified_stable l (time : Z) :
  List.filter (fun p => modified p =? time) (sortImageList l "modified" false)
  = List.filter (fun p => modified p =? time) l.
Proof.
  apply sort_keeps_class_order. intros x e Hx Hc.
  apply Z.eqb_eq in Hx. apply Z.eqb_neq. unfold sortByModified in Hc. lia.
Qed.

Lemma sort_modified_ascends l :
  StronglySorted (fun a b => modified a <= modified b) (sortImageList l "modified" false).
Proof.
  assert (Htrans : Transitive (fun a b : PhotoItem => modified a <= modified b))
    by (intros a b c; lia).
  apply (sort_sorted sortByModified _); unfold sortByModified; intros; lia.
Qed.









(** The example of the specification: distinct names. *)
Example sort_name_example :
  map path (sortImageList [Samples.photo "b" 0; Samples.photo "a" 0; Samples.photo "a2" 0]
              "name" false) = ["a"; "a2"; "b"]%string
  ∧ map path (sortImageList [Samples.photo "b" 0; Samples.photo "a" 0; Samples.photo "a2" 0]
                "name" true) = ["b"; "a2"; "a"]%string.
Proof. split; reflexivity. Qed.

End ListManagerSort.

(** C6. Sorting by name does not keep photos with equal keys in their
    original order: [sortByFilename] answers -1 for two names that are equal
    once in lower case, whichever comes first, and the two photos leave
    [sortImageList] in the opposite order. *)
Theorem sortImageList_name_reverses_ties :
  JS.toLowerCase "A.jpg" = JS.toLowerCase "a.jpg"
  ∧ ImageListManager.sortImageList [Samples.photo "A.jpg" 1; Samples.photo "a.jpg" 2]
      "name" false
    = [Samples.photo "a.jpg" 2; Samples.photo "A.jpg" 1].
Proof. split; reflexivity. Qed.

(** ** The list manager: cursor and batches *)

Section ListManagerCursor.
Import ImageListManager.

Lemma prepareImageList_current images config now random m f :
  let '(result, m', _) := prepareImageList images config false now random m f in
  imageList m' = result ∧ index m' = 0.
Proof.
  unfold prepareImageList.
  repeat (case_match; simplify_eq/=); done.
Qed.

Lemma prepareImageList_preload images config now random m f :
  let '(_, m', _) := prepareImageList images config true now random m f in
  imageList m' = imageList m ∧ index m' = index m.
Proof.
  unfold prepareImageList, resetShownImagesTracker.
  rewrite !andb_false_r.
  destruct (showAllImagesBeforeRestart config), (randomizeImageOrder config); done.
Qed.

Lemma getNextImage_some m :
  cursorInvariant m ->
  imageList m ≠ [] ∧ index m < Z.of_nat (length (imageList m)) ->
  exists item,
    JS.at_index (imageList m) (index m) = Some item
    ∧ getNextImage m = (Some item, with_index (index m + 1) m).
Proof.
  intros [Hlo Hhi] [Hne Hlt]. unfold getNextImage.
  destruct (imageList m) as [|x l] eqn:Hl; [done|].
  cbn [length Nat.eqb] in *.
  destruct (index m >=? Z.of_nat (S (length l))) eqn:Hge; [apply Z.geb_le in Hge; lia|].
  unfold JS.at_index. destruct (index m <? 0) eqn:Hneg; [apply Z.ltb_lt in Hneg; lia|].
  destruct ((x :: l) !! Z.to_nat (index m)) as [item|] eqn:Hitem.
  - by exists item.
  - apply lookup_ge_None in Hitem. cbn [length] in Hitem. lia.
Qed.

Lemma getNextImage_none m :
  ¬ (imageList m ≠ [] ∧ index m < Z.of_nat (length (imageList m))) ->
  getNextImage m = (None, m).
Proof.
  intros Hno. unfold getNextImage.
  destruct (imageList m) as [|x l] eqn:Hl; [done|].
  cbn [length Nat.eqb].
  destruct (index m >=? Z.of_nat (S (length l))) eqn:Hge; [done|].
  exfalso. apply Hno. split; [done|]. cbn [length].
  rewrite Z.geb_leb in Hge. apply Z.leb_gt in Hge. lia.
Qed.

Lemma getNextImage_invariant m : cursorInvariant m -> cursorInvariant (getNextImage m).2.
Proof.
  intros Hinv.
  destruct (decide (imageList m ≠ [] ∧ index m < Z.of_nat (length (imageList m))))
    as [Hyes|Hno].
  - destruct (getNextImage_some m Hinv Hyes) as (item & _ & ->).
    unfold cursorInvariant in *. simpl. lia.
  - by rewrite getNextImage_none.
Qed.

End ListManagerCursor.

(** C10. The cursor of the list manager stays within [0, length of the
    current list]: the fresh manager satisfies this, and [prepareImageList]
    (in either mode), [getNextImage], [getPreviousImage],
    [switchToNextBatch] and [reset] keep it.  On such a state [getNextImage]
    returns the item under the cursor and moves the cursor forward by one
    exactly when the current list is non-empty and the cursor is before its
    end; otherwise it returns nothing and leaves the manager as it was. *)
Theorem cursor_invariant (m : ImageListManager.t) :
  ImageListManager.cursorInvariant m ->
  ImageListManager.cursorInvariant ImageListManager.init
  ∧ (forall images config isPreload now random f,
        ImageListManager.cursorInvariant
          (ImageListManager.prepareImageList images config isPreload now random m f).1.2)
  ∧ ImageListManager.cursorInvariant (ImageListManager.getNextImage m).2
  ∧ ImageListManager.cursorInvariant (ImageListManager.getPreviousImage m).2
  ∧ ImageListManager.cursorInvariant (ImageListManager.switchToNextBatch m)
  ∧ ImageListManager.cursorInvariant (ImageListManager.reset m)
  ∧ (ImageListManager.imageList m ≠ []
       ∧ ImageListManager.index m < Z.of_nat (length (ImageListManager.imageList m)) ->
     exists item,
       JS.at_index (ImageListManager.imageList m) (ImageListManager.index m) = Some item
       ∧ ImageListManager.getNextImage m
         = (Some item, ImageListManager.with_index (ImageListManager.index m + 1) m))
  ∧ (¬ (ImageListManager.imageList m ≠ []
          ∧ ImageListManager.index m < Z.of_nat (length (ImageListManager.imageList m))) ->
     ImageListManager.getNextImage m = (None, m)).
Proof.
  intros Hinv. repeat split.
  - done.
  - simpl. lia.
  - destruct isPreload.
    + pose proof (prepareImageList_preload images config now random m f) as H.
      destruct (ImageListManager.prepareImageList _ _ _ _ _ _ _) as [[r m'] f'].
      destruct H as [Hl Hi]. simpl. rewrite Hi. apply Hinv.
    + pose proof (prepareImageList_current images config now random m f) as H.
      destruct (ImageListManager.prepareImageList _ _ _ _ _ _ _) as [[r m'] f'].
      destruct H as [Hl Hi]. simpl. rewrite Hi. done.
  - destruct isPreload.
    + pose proof (prepareImageList_preload images config now random m f) as H.
      destruct (ImageListManager.prepareImageList _ _ _ _ _ _ _) as [[r m'] f'].
      destruct H as [Hl Hi]. simpl. rewrite Hi, Hl. apply Hinv.
    + pose proof (prepareImageList_current images config now random m f) as H.
      destruct (ImageListManager.prepareImageList _ _ _ _ _ _ _) as [[r m'] f'].
      destruct H as [Hl Hi]. simpl. rewrite Hi. lia.
  - by apply getNextImage_invariant.
  - by apply getNextImage_invariant.
  - unfold ImageListManager.getPreviousImage.
    apply getNextImage_invariant. destruct Hinv as [Hlo Hhi].
    unfold ImageListManager.cursorInvariant. simpl.
    destruct (ImageListManager.index m - 2 <? 0) eqn:Hneg; [lia|].
    apply Z.ltb_ge in Hneg. lia.
  - unfold ImageListManager.getPreviousImage.
    apply getNextImage_invariant. destruct Hinv as [Hlo Hhi].
    unfold ImageListManager.cursorInvariant. simpl.
    destruct (ImageListManager.index m - 2 <? 0) eqn:Hneg; [lia|].
    apply Z.ltb_ge in Hneg. lia.
  - unfold ImageListManager.switchToNextBatch. case_match; [done|apply Hinv].
  - unfold ImageListManager.switchToNextBatch. case_match; [simpl; lia|apply Hinv].
  - done.
  - simpl. lia.
  - by apply getNextImage_some.
  - by apply getNextImage_none.
Qed.

Lemma cursor_invariant_witness :
  ImageListManager.cursorInvariant Samples.midBatch
  ∧ ImageListManager.cursorInvariant (ImageListManager.getNextImage Samples.midBatch).2.
Proof.
  assert (H : ImageListManager.cursorInvariant Samples.midBatch)
    by (unfold ImageListManager.cursorInvariant; simpl; lia).
  split; [exact H|]. apply (cursor_invariant Samples.midBatch H).
Defined.

(** ** The list manager: restart after every photo was shown *)

(** C4 (as amended). When the show-all-before-repeating policy is active,
    the call is not a preload call, the input list is non-empty and
    filtering out the photos already shown leaves nothing, then
    [prepareImageList] truncates the tracker file and, when that write
    succeeds, clears the in-memory set; when the file system refuses the
    write, file and set stay as they were read.  In both cases the result
    is rebuilt from the full input: it is a permutation of the input, hence
    non-empty, and it becomes the current list with the cursor at 0. *)
Theorem prepareImageList_restarts (images : list ImageListManager.PhotoItem)
    (config : ImageListManager.ModuleConfig) (now : N) (random : nat -> N)
    (m : ImageListManager.t) (f : ImageListManager.TrackerFile) :
  images ≠ [] ->
  ImageListManager.showAllImagesBeforeRestart config = true ->
  ImageListManager.notYetShown f images = [] ->
  let '(result, m', f') :=
    ImageListManager.prepareImageList images config false now random m f in
  result ≡ₚ images
  ∧ result ≠ []
  ∧ ImageListManager.imageList m' = result
  ∧ ImageListManager.index m' = 0
  ∧ (ImageListManager.writeRefused f = false ->
     ImageListManager.alreadyShownSet m' = ∅
     ∧ ImageListManager.text f' = Some EmptyString)
  ∧ (ImageListManager.writeRefused f = true ->
     ImageListManager.alreadyShownSet m' = ImageListManager.readShownImagesTracker f
     ∧ f' = f).
Proof.
  intros Hne Hshow Hfilter.
  unfold ImageListManager.prepareImageList. rewrite Hshow.
  cbn [ImageListManager.alreadyShownSet ImageListManager.with_shown].
  unfold ImageListManager.notYetShown in Hfilter. rewrite Hfilter.
  destruct images as [|image images]; [done|].
  cbn [length Nat.eqb Nat.ltb Nat.leb andb negb].
  unfold ImageListManager.resetShownImagesTracker.
  set (final := if ImageListManager.randomizeImageOrder config
                then ImageListManager.shuffleArray now random (image :: images)
                else ImageListManager.sortImageList (image :: images)
                       (ImageListManager.sortImagesBy config)
                       (ImageListManager.sortImagesDescending config)).
  assert (Hperm : final ≡ₚ image :: images).
  { unfold final. destruct (ImageListManager.randomizeImageOrder config).
    - apply shuffleArray_shuffles.
    - apply sortImageList_Permutation. }
  assert (Hfinal : final ≠ []).
  { intros Heq. rewrite Heq in Hperm. by apply Permutation_nil_cons in Hperm. }
  destruct (ImageListManager.writeRefused f) eqn:Hw; simpl; fold final;
    repeat split; try done.
Qed.

Lemma prepareImageList_restarts_witness :
  ImageListManager.notYetShown Samples.allShown Samples.threePhotos = []
  ∧ (let '(result, m', f') :=
       ImageListManager.prepareImageList Samples.threePhotos Samples.nameOrder false 0
         (fun _ => 0%N) ImageListManager.init Samples.allShown in
     result ≠ []
     ∧ ImageListManager.alreadyShownSet m' = ∅
     ∧ ImageListManager.text f' = Some EmptyString).
Proof.
  assert (Hfilter : ImageListManager.notYetShown Samples.allShown Samples.threePhotos = [])
    by (vm_compute; reflexivity).
  split; [exact Hfilter|].
  pose proof (prepareImageList_restarts Samples.threePhotos Samples.nameOrder 0
                (fun _ => 0%N) ImageListManager.init Samples.allShown
                ltac:(discriminate) eq_refl Hfilter) as H.
  destruct (ImageListManager.prepareImageList _ _ _ _ _ _ _) as [[result m'] f'].
  destruct H as (_ & Hne & _ & _ & Hreset & _).
  split; [exact Hne|]. exact (Hreset eq_refl).
Defined.

(** The scenario of the specification: a source of three photos, three
    photos served and recorded as shown; the next [prepareImageList] with the
    same source finds every photo shown, resets the tracker and returns all
    three again. *)
Example already_shown_convergence :
  match Samples.threeServed with
  | Some (m, f) =>
      ImageListManager.notYetShown f Samples.threePhotos = []
      ∧ (let '(result, m', f') :=
           ImageListManager.prepareImageList Samples.threePhotos Samples.nameOrder false 0
             (fun _ => 0%N) m f in
         map ImageListManager.path result = ["a.jpg"; "a2.jpg"; "b.jpg"]%string
         ∧ ImageListManager.index m' = 0
         ∧ ImageListManager.text f' = Some EmptyString)
  | None => False
  end.
Proof. vm_compute. repeat split; reflexivity. Qed.

(** C4, the statement as given fails where the tracker file cannot be
    written: every photo was shown, the list is rebuilt from the full
    input, but neither the in-memory set nor the file is reset. *)
Lemma prepareImageList_reset_refused :
  ImageListManager.notYetShown Samples.allShownReadOnly Samples.threePhotos = []
  ∧ ¬ (let '(_, m', f') :=
         ImageListManager.prepareImageList Samples.threePhotos Samples.nameOrder false 0
           (fun _ => 0%N) ImageListManager.init Samples.allShownReadOnly in
       ImageListManager.alreadyShownSet m' = ∅
       ∧ ImageListManager.text f' = Some EmptyString).
Proof.
  split; [vm_compute; reflexivity|].
  unfold ImageListManager.prepareImageList.
  change (ImageListManager.showAllImagesBeforeRestart Samples.nameOrder) with true.
  cbn [ImageListManager.alreadyShownSet ImageListManager.with_shown].
  change (List.filter _ Samples.threePhotos)
    with (ImageListManager.notYetShown Samples.allShownReadOnly Samples.threePhotos).
  replace (ImageListManager.notYetShown Samples.allShownReadOnly Samples.threePhotos)
    with (@nil ImageListManager.PhotoItem) by (vm_compute; reflexivity).
  simpl. intros [_ Htext]. discriminate Htext.
Qed.

(** ** Duplicate removal *)

Section Dedupe.
Import ImageListManager SynologyPhotosClient.

Lemma filterUnseen_sublist seen photos : filterUnseen seen photos `sublist_of` photos.
Proof.
  revert seen. induction photos as [|photo rest IH]; intros seen; simpl; [constructor|].
  case_bool_decide.
  - by apply sublist_cons.
  - by apply sublist_skip.
Qed.

Lemma filterUnseen_keys_fresh seen photos photo :
  photo ∈ filterUnseen seen photos -> dedupeKey photo ∉ seen.
Proof.
  revert seen. induction photos as [|p rest IH]; intros seen; simpl.
  - by intros ?%elem_of_nil.
  - case_bool_decide as Hseen.
    + apply IH.
    + intros [->|Hin]%elem_of_cons; [done|].
      apply IH in Hin. set_solver.
Qed.

Lemma filterUnseen_NoDup seen photos : NoDup (map dedupeKey (filterUnseen seen photos)).
Proof.
  revert seen. induction photos as [|p rest IH]; intros seen; simpl; [constructor|].
  case_bool_decide as Hseen; [apply IH|].
  simpl. constructor; [|apply IH].
  intros Hin. apply list_elem_of_In, in_map_iff in Hin as (q & Hq & Hin).
  apply list_elem_of_In, filterUnseen_keys_fresh in Hin. set_solver.
Qed.

(** For a key that was not seen before, the photo that survives is the
    first one of the input with that key; a key seen before has no
    survivor. *)
Lemma filterUnseen_find seen photos k :
  List.find (hasKey k) (filterUnseen seen photos)
  = if bool_decide (k ∈ seen) then None else List.find (hasKey k) photos.
Proof.
  revert seen. induction photos as [|p rest IH]; intros seen; simpl.
  - by case_bool_decide.
  - unfold hasKey at 2. destruct (bool_decide (dedupeKey p = k)) eqn:Hk.
    + apply bool_decide_eq_true in Hk. subst k.
      case_bool_decide as Hseen.
      * rewrite IH. by rewrite bool_decide_eq_true_2.
      * simpl. unfold hasKey at 1. by rewrite bool_decide_eq_true_2.
    + apply bool_decide_eq_false in Hk.
      case_bool_decide as Hseen.
      * apply IH.
      * simpl. unfold hasKey at 1. rewrite bool_decide_eq_false_2 by done.
        rewrite IH.
        destruct (decide (k ∈ seen)) as [Hin|Hout].
        -- rewrite !bool_decide_eq_true_2; [done|done|by apply elem_of_union_r].
        -- rewrite !bool_decide_eq_false_2; [done|done|].
           intros [Heq%elem_of_singleton|Hin]%elem_of_union; [by apply Hk|by apply Hout].
Qed.

Lemma NoDup_map_coarser {A B C} (f : A -> B) (g : A -> C) (l : list A) :
  (forall x y, x ∈ l -> y ∈ l -> g x = g y -> f x = f y) ->
  NoDup (map f l) -> NoDup (map g l).
Proof.
  induction l as [|a l IH]; intros Hfg Hnd; simpl; [constructor|].
  simpl in Hnd. apply NoDup_cons in Hnd as [Hnotin Hnd].
  apply NoDup_cons. split.
  - intros Hin. apply Hnotin.
    apply list_elem_of_In in Hin. apply in_map_iff in Hin as (b & Hb & Hin).
    apply list_elem_of_In in Hin.
    apply list_elem_of_In, in_map_iff. exists b. split; [|by apply list_elem_of_In].
    apply Hfg; [by right | by left | done].
  - apply IH; [|done]. intros x y Hx Hy. apply Hfg; by right.
Qed.

Lemma dedupeKey_of_identity p q :
  hasProviderId p -> hasProviderId q -> identity p = identity q ->
  dedupeKey p = dedupeKey q.
Proof.
  intros (n & Hp & Hn) (n' & Hq & Hn') Hid. unfold identity in Hid.
  unfold dedupeKey. rewrite Hp, Hq in Hid. rewrite Hp, Hq.
  injection Hid as -> _.
  by rewrite (proj2 (Z.eqb_neq _ _) Hn').
Qed.

End Dedupe.

(** C5 (as amended). [removeDuplicatePhotos] identifies a photo by its
    provider id alone (by its [id] field where the provider id is missing or
    zero).  Of the photos with one such key it keeps exactly one, the first
    in input order, and it keeps the survivors in input order.  Where every
    photo carries a provider id, the composite identities (provider id,
    space id) of the survivors are therefore pairwise distinct. *)
Theorem removeDuplicatePhotos_keeps_first (photos : list ImageListManager.PhotoItem) :
  SynologyPhotosClient.removeDuplicatePhotos photos `sublist_of` photos
  ∧ NoDup (map SynologyPhotosClient.dedupeKey
             (SynologyPhotosClient.removeDuplicatePhotos photos))
  ∧ (forall k,
        List.find (SynologyPhotosClient.hasKey k)
          (SynologyPhotosClient.removeDuplicatePhotos photos)
        = List.find (SynologyPhotosClient.hasKey k) photos)
  ∧ (Forall SynologyPhotosClient.hasProviderId photos ->
     NoDup (map SynologyPhotosClient.identity
              (SynologyPhotosClient.removeDuplicatePhotos photos))).
Proof.
  unfold SynologyPhotosClient.removeDuplicatePhotos.
  split; [apply filterUnseen_sublist|].
  split; [apply filterUnseen_NoDup|].
  split.
  - intros k. rewrite filterUnseen_find.
    rewrite bool_decide_eq_false_2; [done|]. apply not_elem_of_empty.
  - intros Hall.
    apply (NoDup_map_coarser SynologyPhotosClient.dedupeKey); [|apply filterUnseen_NoDup].
    intros x y Hx Hy. rewrite Forall_forall in Hall.
    apply dedupeKey_of_identity; apply Hall.
    + eapply elem_of_sublist; [exact Hx|]. apply filterUnseen_sublist.
    + eapply elem_of_sublist; [exact Hy|]. apply filterUnseen_sublist.
Qed.

(** C5, the statement as given fails: of two photos with the same composite
    identity the first one survives, not the last; and a photo of another
    space with the same provider id is dropped although its composite
    identity differs. *)
Lemma removeDuplicatePhotos_last_loses :
  SynologyPhotosClient.identity (Samples.provided "first.jpg" 5 0)
  = SynologyPhotosClient.identity (Samples.provided "second.jpg" 5 0)
  ∧ SynologyPhotosClient.removeDuplicatePhotos
      [Samples.provided "first.jpg" 5 0; Samples.provided "second.jpg" 5 0]
    = [Samples.provided "first.jpg" 5 0]
  ∧ SynologyPhotosClient.removeDuplicatePhotos
      [Samples.provided "first.jpg" 5 0; Samples.provided "second.jpg" 5 0]
    ≠ [Samples.provided "second.jpg" 5 0]
  ∧ SynologyPhotosClient.identity (Samples.provided "first.jpg" 5 0)
    ≠ SynologyPhotosClient.identity (Samples.provided "shared.jpg" 5 1)
  ∧ SynologyPhotosClient.removeDuplicatePhotos
      [Samples.provided "first.jpg" 5 0; Samples.provided "shared.jpg" 5 1]
    = [Samples.provided "first.jpg" 5 0].
Proof.
  assert (Hsame : SynologyPhotosClient.removeDuplicatePhotos
                    [Samples.provided "first.jpg" 5 0; Samples.provided "second.jpg" 5 0]
                  = [Samples.provided "first.jpg" 5 0]) by (vm_compute; reflexivity).
  split; [reflexivity|]. split; [exact Hsame|].
  split; [rewrite Hsame; intros H; discriminate H|].
  split; [intros H; discriminate H|].
  vm_compute; reflexivity.
Qed.

(** ** The metadata database *)

Section DatabaseFiles.
Import ExifExtractor.

Lemma append_neq (s t : string) : t ≠ EmptyString -> (s ++ t)%string ≠ s.
Proof.
  intros Ht. induction s as [|c s IH]; simpl; [done|].
  intros Heq. injection Heq as Heq. by apply IH.
Qed.

Lemma append_inj_r (s t u : string) : (s ++ t)%string = (s ++ u)%string -> t = u.
Proof.
  induction s as [|c s IH]; simpl; [done|].
  intros Heq. injection Heq as Heq. by apply IH.
Qed.

Lemma tempPath_neq p : tempPath p ≠ p.
Proof. by apply append_neq. Qed.

Lemma backupPath_neq p : backupPath p ≠ p.
Proof. by apply append_neq. Qed.

Lemma tempPath_backupPath p : tempPath p ≠ backupPath p.
Proof. intros H. apply append_inj_r in H. discriminate H. Qed.

End DatabaseFiles.

(** What each call into the file system does to the world. *)
Section FileSystemCalls.
Import ExifExtractor.

Ltac unfold_call :=
  unfold access, copyFile, readFile, writeFile, rename, unlink, bind, ret, note,
    nextFault, lookupFile, store, remove, sameObject, touchesOnly, stepped.

(** Runs one call on a world given by its fields: first the fault, then
    the file looked up at [q]. *)
Ltac run_call w q H :=
  unfold_call; destruct w as [mp last queue proc fs flts exch clk tr];
  intros H; cbn in H;
  destruct flts as [|[| |?] ?]; cbn in H;
  destruct (fs !! q) eqn:?; cbn in H; simplify_eq/=.

Lemma access_spec q w r w' :
  access q w = (r, w') ->
  sameObject w w' ∧ files w' = files w
  ∧ stepped (Access q) (if r is Done _ then true else false) w w'.
Proof. run_call w q H; done. Qed.

Lemma readFile_spec q w r w' :
  readFile q w = (r, w') ->
  sameObject w w' ∧ files w' = files w
  ∧ stepped (ReadFile q) (if r is Done _ then true else false) w w'
  ∧ (forall c, r = Done c -> files w !! q = Some c)
  ∧ (faults w = [] ->
     r = match files w !! q with Some c => Done c | None => Threw ENOENT end
     ∧ faults w' = []).
Proof.
  run_call w q H; repeat split; try done; intros; simplify_eq;
    try done; by simplify_option_eq.
Qed.

Lemma copyFile_spec src dst w r w' :
  copyFile src dst w = (r, w') ->
  sameObject w w' ∧ touchesOnly dst w w'
  ∧ stepped (CopyFile src dst) (if r is Done _ then true else false) w w'.
Proof.
  run_call w src H; repeat split; try done; intros; by rewrite lookup_insert_ne.
Qed.

Lemma writeFile_spec q c w r w' :
  writeFile q c w = (r, w') ->
  sameObject w w' ∧ touchesOnly q w w'
  ∧ stepped (WriteFile q) (if r is Done _ then true else false) w w'
  ∧ (forall u, r = Done u -> files w' !! q = Some c).
Proof.
  run_call w q H; repeat split; try done; intros;
    try (by rewrite lookup_insert_ne); by rewrite lookup_insert_eq.
Qed.

Lemma rename_spec src dst w r w' :
  rename src dst w = (r, w') ->
  sameObject w w'
  ∧ stepped (Rename src dst) (if r is Done _ then true else false) w w'
  ∧ match r with
    | Done _ => exists c, files w !! src = Some c
                          ∧ files w' = <[dst := c]> (delete src (files w))
    | Threw _ => files w' = files w
    end.
Proof. run_call w src H; repeat split; try done; by eexists. Qed.

Lemma unlink_spec q w r w' :
  unlink q w = (r, w') ->
  sameObject w w' ∧ touchesOnly q w w'
  ∧ stepped (Unlink q) (if r is Done _ then true else false) w w'.
Proof.
  run_call w q H; repeat split; try done; intros; by rewrite lookup_delete_ne.
Qed.

(** With no fault pending, a call fails only for a missing file. *)
Lemma access_served q w r w' :
  access q w = (r, w') -> faults w = [] ->
  faults w' = [] ∧ r = (if files w !! q is Some _ then Done () else Threw ENOENT).
Proof. run_call w q H; intros; simplify_eq; by simplify_option_eq. Qed.

Lemma copyFile_served src dst w r w' :
  copyFile src dst w = (r, w') -> faults w = [] -> faults w' = [].
Proof. run_call w src H; intros; simplify_eq; done. Qed.

Lemma writeFile_served q c w r w' :
  writeFile q c w = (r, w') -> faults w = [] -> faults w' = [] ∧ r = Done ().
Proof. run_call w q H; intros; simplify_eq; done. Qed.

Lemma rename_served src dst w r w' :
  rename src dst w = (r, w') -> faults w = [] -> is_Some (files w !! src) ->
  faults w' = [] ∧ r = Done ().
Proof.
  run_call w src H; intros ? [? ?]; simplify_eq; try done; by simplify_option_eq.
Qed.

Lemma sameObject_refl w : sameObject w w.
Proof. by unfold sameObject. Qed.

Lemma sameObject_trans w1 w2 w3 : sameObject w1 w2 -> sameObject w2 w3 -> sameObject w1 w3.
Proof. unfold sameObject. intros (?&?&?&?&?&?) (?&?&?&?&?&?). repeat split; congruence. Qed.

End FileSystemCalls.

Section SaveDatabase.
Import ExifExtractor.

(** The backup phase leaves every file but the backup as it is. *)
Lemma backupExistingFile_spec p w u w' :
  backupExistingFile p w = (u, w') ->
  sameObject w w' ∧ touchesOnly (backupPath p) w w'
  ∧ exists new, trace w' = new ++ trace w
      ∧ Forall (fun s => holds p (files w !! p) s ∧ ¬ renamed p s) new
      ∧ Forall isFileStep new.
Proof.
  unfold backupExistingFile, bind, ret. intros H.
  destruct (access p w) as [a w1] eqn:Ha.
  apply access_spec in Ha as (Hobj1 & Hfiles1 & Hstep1).
  assert (Hheld1 : holds p (files w !! p)
                     {| op := Access p; ok := (if a is Done _ then true else false);
                        after := files w1 |} ∧
                   ¬ renamed p {| op := Access p;
                                  ok := (if a is Done _ then true else false);
                                  after := files w1 |}).
  { unfold holds, renamed. simpl. rewrite Hfiles1. split; [done|]. by intros [? _]. }
  destruct Hheld1 as [Hheld1 Hnot1].
  destruct a as [[]|e].
  - destruct (copyFile p (backupPath p) w1) as [r w2] eqn:Hc.
    apply copyFile_spec in Hc as (Hobj2 & Htouch2 & Hstep2).
    simplify_eq/=. split; [by eapply sameObject_trans|].
    split.
    + intros q Hq. rewrite Htouch2 by done. by rewrite Hfiles1.
    + eexists [_; _]. split; [by rewrite Hstep2, Hstep1|].
      split; [|by each_step].
      each_step; [|done]. split.
      * unfold holds. simpl. rewrite Htouch2 by (apply not_eq_sym, backupPath_neq).
        by rewrite Hfiles1.
      * unfold renamed. simpl. by intros [? _].
  - simplify_eq/=. split; [done|]. split.
    + intros q Hq. by rewrite Hfiles1.
    + eexists [_]. split; [by rewrite Hstep1|]. split; by each_step.
Qed.

(** The replacement phase: the file at [p] changes in the rename and
    nowhere else. *)
Lemma replaceThroughTemp_spec p database w u w' :
  replaceThroughTemp p database w = (u, w') ->
  sameObject w w'
  ∧ exists new, trace w' = new ++ trace w
      ∧ Forall isFileStep new
      ∧ Forall (fun s => holds p (files w !! p) s ∨ holds p (Some (Json database)) s) new
      ∧ (Exists (renamed p) new -> files w' !! p = Some (Json database))
      ∧ (¬ Exists (renamed p) new ->
         Forall (holds p (files w !! p)) new ∧ files w' !! p = files w !! p).
Proof.
  pose proof (tempPath_neq p) as Htmp.
  unfold replaceThroughTemp, bind, ret. intros H.
  destruct (writeFile (tempPath p) (Json database) w) as [r w1] eqn:Hw.
  apply writeFile_spec in Hw as (Hobj1 & Htouch1 & Hstep1 & Hdone1).
  assert (Hp1 : files w1 !! p = files w !! p) by (apply Htouch1; congruence).
  destruct r as [[]|e].
  - destruct (rename (tempPath p) p w1) as [r' w2] eqn:Hr.
    apply rename_spec in Hr as (Hobj2 & Hstep2 & Hfiles2).
    destruct r' as [[]|e'].
    + destruct Hfiles2 as (c & Hc & Hfiles2). simplify_eq/=.
      rewrite (Hdone1 () eq_refl) in Hc. simplify_eq.
      assert (Hp2 : files w' !! p = Some (Json database))
        by (rewrite Hfiles2; apply lookup_insert_eq).
      split; [by eapply sameObject_trans|].
      eexists [_; _]. split; [by rewrite Hstep2, Hstep1|].
      split; [by each_step|]. split; [|split].
      * each_step; unfold holds; simpl; auto.
      * done.
      * intros Hnot. exfalso. apply Hnot. by left.
    + destruct (unlink (tempPath p) w2) as [r3 w3] eqn:Hu.
      apply unlink_spec in Hu as (Hobj3 & Htouch3 & Hstep3). simplify_eq/=.
      assert (Hp2 : files w2 !! p = files w !! p) by congruence.
      assert (Hp3 : files w' !! p = files w !! p)
        by (rewrite Htouch3 by congruence; done).
      split; [eauto using sameObject_trans|].
      eexists [_; _; _]. split; [by rewrite Hstep3, Hstep2, Hstep1|].
      split; [by each_step|]. split; [|split].
      * each_step; unfold holds; simpl; auto.
      * intros Hex. exfalso.
        repeat (apply Exists_cons in Hex as [Hex|Hex]);
          try (by apply Exists_nil in Hex); by destruct Hex.
      * intros _. split; [|done]. each_step; unfold holds; simpl; auto.
  - destruct (unlink (tempPath p) w1) as [r3 w3] eqn:Hu.
    apply unlink_spec in Hu as (Hobj3 & Htouch3 & Hstep3). simplify_eq/=.
    assert (Hp3 : files w' !! p = files w !! p)
      by (rewrite Htouch3 by congruence; done).
    split; [eauto using sameObject_trans|].
    eexists [_; _]. split; [by rewrite Hstep3, Hstep1|].
    split; [by each_step|]. split; [|split].
    + each_step; unfold holds; simpl; auto.
    + intros Hex. exfalso.
      repeat (apply Exists_cons in Hex as [Hex|Hex]);
        try (by apply Exists_nil in Hex); by destruct Hex.
    + intros _. split; [|done]. each_step; unfold holds; simpl; auto.
Qed.

Lemma saveMetadataDatabase_spec w p database :
  metadataFilePath w = Some p ->
  sameObject w (saveMetadataDatabase database w).2
  ∧ exists new,
    trace (saveMetadataDatabase database w).2 = new ++ trace w
    ∧ Forall isFileStep new
    ∧ Forall (fun s => holds p (files w !! p) s ∨ holds p (Some (Json database)) s) new
    ∧ (Exists (renamed p) new ->
       files (saveMetadataDatabase database w).2 !! p = Some (Json database))
    ∧ (¬ Exists (renamed p) new ->
       Forall (holds p (files w !! p)) new
       ∧ files (saveMetadataDatabase database w).2 !! p = files w !! p).
Proof.
  intros Hp. unfold saveMetadataDatabase. rewrite Hp. unfold bind.
  destruct (backupExistingFile p w) as [u1 w1] eqn:Hb.
  apply backupExistingFile_spec in Hb
    as (Hobj1 & Htouch1 & new1 & Htrace1 & Hall1 & Hfs1).
  assert (Hp1 : files w1 !! p = files w !! p)
    by (apply Htouch1, not_eq_sym, backupPath_neq).
  destruct (replaceThroughTemp p database w1) as [u2 w2] eqn:Hr.
  apply replaceThroughTemp_spec in Hr
    as (Hobj2 & new2 & Htrace2 & Hfs2 & Hall2 & Hren2 & Hnot2).
  rewrite Hp1 in Hall2, Hnot2. simpl.
  split; [by eapply sameObject_trans|].
  exists (new2 ++ new1). split; [by rewrite Htrace2, Htrace1, app_assoc|].
  assert (Hnone1 : ¬ Exists (renamed p) new1).
  { intros Hex. apply Exists_exists in Hex as (s & Hs & Hren).
    rewrite Forall_forall in Hall1. by apply (Hall1 s Hs). }
  split; [by apply Forall_app|]. split; [|split].
  - apply Forall_app. split; [done|].
    eapply Forall_impl; [exact Hall1|]. intros s [Hs _]. by left.
  - intros Hex. apply Exists_app in Hex as [Hex|Hex]; [by apply Hren2|done].
  - intros Hnot.
    assert (Hnone2 : ¬ Exists (renamed p) new2)
      by (intros Hex; apply Hnot, Exists_app; by left).
    destruct (Hnot2 Hnone2) as [Hall Hend]. split; [|by rewrite Hend].
    apply Forall_app. split; [done|].
    eapply Forall_impl; [exact Hall1|]. by intros s [Hs _].
Qed.

End SaveDatabase.



(** The scenario of the specification: the write of the temporary file
    fails midway; the database file still holds the old database, and the
    temporary file is gone. *)
Example save_with_failing_write :
  let w' := (ExifExtractor.saveMetadataDatabase Worlds.twoRecords Worlds.writeBreaks).2 in
  ExifExtractor.files w' !! Worlds.dbPath = Some (ExifExtractor.Json Worlds.oneRecord)
  ∧ ExifExtractor.files w' !! ExifExtractor.tempPath Worlds.dbPath = None.
Proof. split; vm_compute; reflexivity. Qed.

Section LoadDatabase.
Import ExifExtractor.

Lemma backupExistingFile_served p w u w' :
  backupExistingFile p w = (u, w') -> faults w = [] -> faults w' = [].
Proof.
  unfold backupExistingFile, bind, ret. intros H Hf.
  destruct (access p w) as [a w1] eqn:Ha.
  apply access_served in Ha as [Hf1 _]; [|done].
  destruct a as [[]|e]; [|by simplify_eq].
  destruct (copyFile p (backupPath p) w1) as [r w2] eqn:Hc.
  apply copyFile_served in Hc; [|done]. by simplify_eq.
Qed.

Lemma replaceThroughTemp_served p database w u w' :
  replaceThroughTemp p database w = (u, w') -> faults w = [] ->
  faults w' = [] ∧ files w' !! p = Some (Json database).
Proof.
  unfold replaceThroughTemp, bind, ret. intros H Hf.
  destruct (writeFile (tempPath p) (Json database) w) as [r w1] eqn:Hw.
  pose proof (writeFile_served _ _ _ _ _ Hw Hf) as [Hf1 ->].
  apply writeFile_spec in Hw as (_ & _ & _ & Hdone).
  specialize (Hdone () eq_refl).
  destruct (rename (tempPath p) p w1) as [r' w2] eqn:Hr.
  pose proof (rename_served _ _ _ _ _ Hr Hf1 (mk_is_Some _ _ Hdone)) as [Hf2 ->].
  apply rename_spec in Hr as (_ & _ & c & Hc & Hfiles). simplify_eq.
  split; [done|]. rewrite Hfiles. apply lookup_insert_eq.
Qed.

(** With no fault pending the save goes through. *)
Lemma saveMetadataDatabase_served w p database :
  metadataFilePath w = Some p -> faults w = [] ->
  faults (saveMetadataDatabase database w).2 = []
  ∧ files (saveMetadataDatabase database w).2 !! p = Some (Json database).
Proof.
  intros Hp Hf. unfold saveMetadataDatabase. rewrite Hp. unfold bind.
  destruct (backupExistingFile p w) as [u1 w1] eqn:Hb.
  apply backupExistingFile_served in Hb; [|done].
  destruct (replaceThroughTemp p database w1) as [u2 w2] eqn:Hr.
  by apply replaceThroughTemp_served in Hr.
Qed.

Lemma loadMetadataDatabase_spec w p :
  metadataFilePath w = Some p ->
  sameObject w (loadMetadataDatabase w).2
  ∧ exists new,
    trace (loadMetadataDatabase w).2 = new ++ trace w
    ∧ Forall isFileStep new
    ∧ ((loadMetadataDatabase w).1 = ∅
       ∨ files w !! p = Some (Json (loadMetadataDatabase w).1)
       ∨ ((exists raw, files w !! p = Some (Corrupt raw))
          ∧ files w !! backupPath p = Some (Json (loadMetadataDatabase w).1)))
    ∧ (faults w = [] ->
       match files w !! p with
       | None => (loadMetadataDatabase w).1 = ∅ ∧ ¬ Exists (reads (backupPath p)) new
       | Some (Blank _) =>
           (loadMetadataDatabase w).1 = ∅ ∧ ¬ Exists (reads (backupPath p)) new
       | Some (Json database) =>
           (loadMetadataDatabase w).1 = database ∧ ¬ Exists (reads (backupPath p)) new
       | Some (Corrupt _) =>
           Exists (reads (backupPath p)) new
           ∧ (loadMetadataDatabase w).1
             = match files w !! backupPath p with
               | Some (Json backupDb) => backupDb
               | _ => ∅
               end
       end).
Proof.
  intros Hp. pose proof (backupPath_neq p) as Hbak.
  unfold loadMetadataDatabase. rewrite Hp. unfold bind, ret.
  destruct (readFile p w) as [r w1] eqn:Hr.
  apply readFile_spec in Hr as (Hobj1 & Hfiles1 & Hstep1 & Hdone1 & Hserved1).
  assert (Hone : forall b, ¬ Exists (reads (backupPath p))
                   [{| op := ReadFile p; ok := b; after := files w1 |}]).
  { intros b Hex. apply Exists_cons in Hex as [Hex|Hex]; [|by apply Exists_nil in Hex].
    unfold reads in Hex. simpl in Hex. by simplify_eq. }
  destruct r as [[raw|database|raw]|e]; simpl.
  - (* blank *)
    specialize (Hdone1 _ eq_refl). split; [done|].
    eexists [_]. split; [exact Hstep1|]. split; [by each_step|].
    split; [by left|]. intros Hf. rewrite Hdone1. split; [done|apply Hone].
  - (* the database *)
    specialize (Hdone1 _ eq_refl). split; [done|].
    eexists [_]. split; [exact Hstep1|]. split; [by each_step|].
    split; [by right; left|]. intros Hf. rewrite Hdone1. split; [done|apply Hone].
  - (* corrupt: try the backup *)
    specialize (Hdone1 _ eq_refl).
    destruct (readFile (backupPath p) w1) as [b w2] eqn:Hb.
    apply readFile_spec in Hb as (Hobj2 & Hfiles2 & Hstep2 & Hdone2 & Hserved2).
    assert (Hread : reads (backupPath p)
                      {| op := ReadFile (backupPath p);
                         ok := (if b is Done _ then true else false);
                         after := files w2 |}) by done.
    assert (Hpath2 : metadataFilePath w2 = Some p).
    { destruct Hobj1 as [H1 _]. destruct Hobj2 as [H2 _]. congruence. }
    destruct b as [[braw|backupDb|braw]|be]; simpl.
    1, 3, 4:
      (split; [by eapply sameObject_trans|];
       eexists [_; _]; split; [by rewrite Hstep2, Hstep1|];
       split; [by each_step|]; split; [by left|];
       intros Hf; rewrite Hdone1; split; [by left|];
       destruct (Hserved1 Hf) as [_ Hf1]; destruct (Hserved2 Hf1) as [Hres _];
       rewrite Hfiles1 in Hres; destruct (files w !! backupPath p) as [[]|];
       by simplify_eq).
    specialize (Hdone2 _ eq_refl). rewrite Hfiles1 in Hdone2.
    destruct (saveMetadataDatabase_spec w2 p backupDb Hpath2)
      as (Hobj3 & new3 & Htrace3 & Hfs3 & _).
    destruct (saveMetadataDatabase backupDb w2) as [u w3]. simpl in *.
    split; [eauto using sameObject_trans|].
    exists (new3 ++ [{| op := ReadFile (backupPath p); ok := true; after := files w2 |};
                     {| op := ReadFile p; ok := true; after := files w1 |}]).
    split; [by rewrite Htrace3, Hstep2, Hstep1, <- app_assoc|].
    split; [|split].
    + apply Forall_app. split; [done|by each_step].
    + right; right. split; [by eexists|done].
    + intros Hf. rewrite Hdone1, Hdone2. split; [|done].
      apply Exists_app. right. by left.
  - (* the read fails *)
    split; [done|].
    eexists [_]. split; [exact Hstep1|]. split; [by each_step|].
    split; [by left|]. intros Hf.
    destruct (Hserved1 Hf) as [Hres _].
    destruct (files w !! p) as [c|]; [by simplify_eq|]. split; [done|apply Hone].
Qed.

End LoadDatabase.

(** An extractor without a database path has the empty database. *)
Lemma loadMetadataDatabase_unconfigured (w : ExifExtractor.World) :
  ExifExtractor.metadataFilePath w = None ->
  ExifExtractor.loadMetadataDatabase w = (∅, w).
Proof. intros H. unfold ExifExtractor.loadMetadataDatabase. by rewrite H. Qed.




(** ** Saving the metadata of one photo *)

Section SavePhoto.
Import ExifExtractor.

Lemma saveMetadataDatabase_final w p database :
  metadataFilePath w = Some p ->
  files (saveMetadataDatabase database w).2 !! p = files w !! p
  ∨ files (saveMetadataDatabase database w).2 !! p = Some (Json database).
Proof.
  intros Hp.
  destruct (saveMetadataDatabase_spec w p database Hp)
    as (_ & new & _ & _ & _ & Hyes & Hno).
  destruct (decide (Exists (renamed p) new)) as [Hex|Hnex].
  - right. by apply Hyes.
  - left. by apply Hno.
Qed.

Lemma enqueueGeocoding_spec k la lo w :
  let task := {| key := k; lat := la; lon := lo |} in
  let w' := (enqueueGeocoding k la lo w).2 in
  files w' = files w
  ∧ faults w' = faults w
  ∧ geocodingQueue w' = geocodingQueue w ++ [task]
  ∧ exists s, trace w' = s :: trace w ∧ isEnqueue task s.
Proof. simpl. repeat split. by eexists. Qed.

(** What the tail of [savePhotoMetadata] does once it has decided for which
    location text to enqueue. *)
Lemma enqueue_for_location k (loc : option string) w :
  let w' := (match parseLocation (default EmptyString loc) with
             | Some (la, lo) => enqueueGeocoding k la lo
             | None => ret tt
             end w).2 in
  files w' = files w
  ∧ geocodingQueue w' = geocodingQueue w ++ tasksFor k loc
  ∧ exists queued, trace w' = queued ++ trace w
      ∧ Forall2 (fun s task => isEnqueue task s) queued (tasksFor k loc).
Proof.
  unfold tasksFor, text.
  destruct (parseLocation (default EmptyString loc)) as [[la lo]|]; simpl.
  - repeat split. eexists [_]. split; [done|]. by repeat constructor.
  - rewrite app_nil_r. repeat split. exists []. split; [done|]. constructor.
Qed.

End SavePhoto.

(** C9 (as amended). [savePhotoMetadata], called with metadata that carries
    a location or a capture date, first loads the database.  When the key
    [{providerId}_{spaceId}] is in the loaded database, it performs no save:
    the files stay as the load left them, and a geocoding task is pushed
    exactly when the existing record has a location that parses into two
    numbers and has no full address.  When the key is not in the loaded
    database, it inserts a record holding the location and capture date of
    the metadata (and no address) and saves the database: the database file
    then holds the new database when the file system serves the calls, and
    its previous content or the new database otherwise; a geocoding task is
    pushed exactly when the location of the metadata parses. *)
Theorem savePhotoMetadata_effect (w w1 : ExifExtractor.World) (p : string)
    (synologyId : Z) (spaceId : option Z) (metadata : ExifExtractor.ExifMetadata)
    (database : gmap string ExifExtractor.PhotoMetadataEntry) :
  ExifExtractor.metadataFilePath w = Some p ->
  JS.truthy (ExifExtractor.md_location metadata)
  || JS.truthy (ExifExtractor.md_captureDate metadata) = true ->
  ExifExtractor.loadMetadataDatabase w = (database, w1) ->
  let k := ExifExtractor.dbKey synologyId spaceId in
  let w' := (ExifExtractor.savePhotoMetadata synologyId spaceId metadata w).2 in
  match database !! k with
  | Some existing =>
      let tasks :=
        if JS.truthy (ExifExtractor.location existing)
           && negb (JS.truthy (ExifExtractor.FullAddress existing))
        then ExifExtractor.tasksFor k (ExifExtractor.location existing)
        else [] in
      ExifExtractor.files w' = ExifExtractor.files w1
      ∧ ExifExtractor.geocodingQueue w' = ExifExtractor.geocodingQueue w1 ++ tasks
      ∧ exists queued,
          ExifExtractor.trace w' = queued ++ ExifExtractor.trace w1
          ∧ Forall2 (fun s task => ExifExtractor.isEnqueue task s) queued tasks
  | None =>
      let entry := ExifExtractor.freshEntry synologyId spaceId metadata in
      let tasks :=
        if JS.truthy (ExifExtractor.md_location metadata)
        then ExifExtractor.tasksFor k (ExifExtractor.md_location metadata)
        else [] in
      ExifExtractor.geocodingQueue w' = ExifExtractor.geocodingQueue w1 ++ tasks
      ∧ (ExifExtractor.files w' !! p = ExifExtractor.files w1 !! p
         ∨ ExifExtractor.files w' !! p
           = Some (ExifExtractor.Json (<[k := entry]> database)))
      ∧ (ExifExtractor.faults w1 = [] ->
         ExifExtractor.files w' !! p
         = Some (ExifExtractor.Json (<[k := entry]> database)))
      ∧ exists queued saved,
          ExifExtractor.trace w' = queued ++ saved ++ ExifExtractor.trace w1
          ∧ Forall ExifExtractor.isFileStep saved
          ∧ Forall2 (fun s task => ExifExtractor.isEnqueue task s) queued tasks
  end.
Proof.
  intros Hp Hcarries Hload k w'.
  assert (Hp1 : ExifExtractor.metadataFilePath w1 = Some p).
  { destruct (loadMetadataDatabase_spec w p Hp) as ((H & _) & _).
    rewrite Hload in H. simpl in H. congruence. }
  assert (Hw' : w' =
    (match database !! k with
     | Some existingEntry =>
         if JS.truthy (ExifExtractor.location existingEntry)
            && negb (JS.truthy (ExifExtractor.FullAddress existingEntry))
         then
           match ExifExtractor.parseLocation
                   (default EmptyString (ExifExtractor.location existingEntry)) with
           | Some (la, lo) => ExifExtractor.enqueueGeocoding k la lo
           | None => ExifExtractor.ret tt
           end
         else ExifExtractor.ret tt
     | None =>
         fun w1 =>
           (if JS.truthy (ExifExtractor.md_location metadata)
            then
              match ExifExtractor.parseLocation
                      (default EmptyString (ExifExtractor.md_location metadata)) with
              | Some (la, lo) => ExifExtractor.enqueueGeocoding k la lo
              | None => ExifExtractor.ret tt
              end
            else ExifExtractor.ret tt)
             (ExifExtractor.saveMetadataDatabase
                (<[k := ExifExtractor.freshEntry synologyId spaceId metadata]> database)
                w1).2
     end w1).2).
  { subst w'. unfold ExifExtractor.savePhotoMetadata. rewrite Hp.
    apply orb_true_iff in Hcarries.
    replace (negb (JS.truthy (ExifExtractor.md_location metadata))
             && negb (JS.truthy (ExifExtractor.md_captureDate metadata))) with false
      by (destruct Hcarries as [-> | ->]; simpl; by rewrite ?andb_false_r).
    unfold ExifExtractor.bind at 1. rewrite Hload. fold k.
    destruct (database !! k) as [existing|]; [done|].
    unfold ExifExtractor.bind, ExifExtractor.freshEntry.
    by destruct (ExifExtractor.saveMetadataDatabase _ w1). }
  destruct (database !! k) as [existing|] eqn:Hk; cbv zeta.
  - destruct (JS.truthy (ExifExtractor.location existing)
              && negb (JS.truthy (ExifExtractor.FullAddress existing))).
    + rewrite Hw'. apply enqueue_for_location.
    + rewrite Hw'. simpl. rewrite app_nil_r. repeat split.
      exists []. split; [done|constructor].
  - set (db' := <[k := ExifExtractor.freshEntry synologyId spaceId metadata]> database)
      in *.
    pose proof (saveMetadataDatabase_final w1 p db' Hp1) as Hfinal.
    pose proof (saveMetadataDatabase_served w1 p db' Hp1) as Hserved.
    destruct (saveMetadataDatabase_spec w1 p db' Hp1)
      as (_ & saved & Hsaved & Hfs & _).
    set (w2 := (ExifExtractor.saveMetadataDatabase db' w1).2) in *.
    assert (Hobj2 : ExifExtractor.geocodingQueue w2 = ExifExtractor.geocodingQueue w1).
    { destruct (saveMetadataDatabase_spec w1 p db' Hp1) as ((_ & _ & H & _) & _).
      exact H. }
    destruct (JS.truthy (ExifExtractor.md_location metadata)).
    + destruct (enqueue_for_location k (ExifExtractor.md_location metadata) w2)
        as (Hfiles & Hqueue & queued & Htrace & Hqueued).
      rewrite <- Hw' in Hfiles, Hqueue, Htrace.
      rewrite Hfiles, Hqueue, Hobj2. split; [done|]. split; [done|].
      split; [intros Hf; by apply Hserved|].
      exists queued, saved. by rewrite Htrace, Hsaved.
    + rewrite Hw'. simpl. rewrite app_nil_r, Hobj2.
      split; [done|]. split; [done|]. split; [intros Hf; by apply Hserved|].
      exists [], saved. split; [done|]. split; [done|constructor].
Qed.

(** Without a database path, or for metadata with neither a location nor a
    capture date, [savePhotoMetadata] returns at once. *)
Lemma savePhotoMetadata_returns_early (w : ExifExtractor.World) (synologyId : Z)
    (spaceId : option Z) (metadata : ExifExtractor.ExifMetadata) :
  ExifExtractor.metadataFilePath w = None
  ∨ (JS.truthy (ExifExtractor.md_location metadata) = false
     ∧ JS.truthy (ExifExtractor.md_captureDate metadata) = false) ->
  ExifExtractor.savePhotoMetadata synologyId spaceId metadata w = (tt, w).
Proof.
  unfold ExifExtractor.savePhotoMetadata.
  intros [-> | [-> ->]]; [done|]. by destruct (ExifExtractor.metadataFilePath w).
Qed.

Lemma savePhotoMetadata_effect_witness :
  ExifExtractor.metadataFilePath Worlds.intact = Some Worlds.dbPath
  ∧ ExifExtractor.geocodingQueue
      (ExifExtractor.savePhotoMetadata 42 None Worlds.dateOnly Worlds.intact).2
    = ExifExtractor.geocodingQueue (ExifExtractor.loadMetadataDatabase Worlds.intact).2
      ++ ExifExtractor.tasksFor "42_0" (ExifExtractor.location Worlds.berlin).
Proof.
  split; [reflexivity|].
  assert (Hload : ExifExtractor.loadMetadataDatabase Worlds.intact
                  = ((ExifExtractor.loadMetadataDatabase Worlds.intact).1,
                     (ExifExtractor.loadMetadataDatabase Worlds.intact).2))
    by (by destruct (ExifExtractor.loadMetadataDatabase Worlds.intact)).
  pose proof (savePhotoMetadata_effect Worlds.intact _ Worlds.dbPath 42 None
                Worlds.dateOnly _ eq_refl eq_refl Hload) as H.
  cbv zeta in H.
  replace ((ExifExtractor.loadMetadataDatabase Worlds.intact).1
           !! ExifExtractor.dbKey 42 None)
    with (Some Worlds.berlin) in H by (vm_compute; reflexivity).
  destruct H as (_ & Hqueue & _). exact Hqueue.
Defined.

(** C9, the statement as given fails in two ways.  The record at key [7_0]
    has a location and no full address, but its location text does not
    parse: no task is pushed.  The record at key [42_0] has a location that
    parses and no full address, but the metadata passed in carries neither
    a location nor a capture date: the call returns before it looks at the
    database, and no task is pushed. *)
Lemma savePhotoMetadata_no_task :
  Worlds.twoRecords !! "7_0"%string = Some Worlds.nowhere
  ∧ JS.truthy (ExifExtractor.location Worlds.nowhere) = true
  ∧ JS.truthy (ExifExtractor.FullAddress Worlds.nowhere) = false
  ∧ ExifExtractor.geocodingQueue
      (ExifExtractor.savePhotoMetadata 7 None Worlds.dateOnly Worlds.intact).2 = []
  ∧ Worlds.twoRecords !! "42_0"%string = Some Worlds.berlin
  ∧ JS.truthy (ExifExtractor.location Worlds.berlin) = true
  ∧ JS.truthy (ExifExtractor.FullAddress Worlds.berlin) = false
  ∧ ExifExtractor.geocodingQueue
      (ExifExtractor.savePhotoMetadata 42 None Worlds.nothingUseful Worlds.intact).2 = [].
Proof. repeat split; vm_compute; reflexivity. Qed.

(** ** The geocoding queue *)

(** C3. Three tasks are queued back to back; the service answers the
    second call with a body that has neither [error] nor [display_name].
    [reverseGeocode] returns from that call without setting
    [lastGeocodingRequestTime], so the third call finds the time stamp of
    the first call, more than five seconds old, and goes out at once: the
    calls are issued at 1000000, 1005100 and 1005200, the third only 100 ms
    after the second. *)
Theorem reverseGeocode_spacing_broken :
  ExifExtractor.requestTimes (ExifExtractor.processGeocodingQueue Worlds.threeQueued)
  = [1000000; 1005100; 1005200]
  ∧ ¬ ExifExtractor.spaced ExifExtractor.geocodingRateLimitMs
        (ExifExtractor.requestTimes
           (ExifExtractor.processGeocodingQueue Worlds.threeQueued)).
Proof.
  assert (H : ExifExtractor.requestTimes
                (ExifExtractor.processGeocodingQueue Worlds.threeQueued)
              = [1000000; 1005100; 1005200]) by (vm_compute; reflexivity).
  split; [exact H|]. rewrite H. simpl. unfold ExifExtractor.geocodingRateLimitMs. lia.
Qed.

Section GeocodingQueue.
Import ExifExtractor.

(** *** One task at a time *)

Lemma react_singleFlight q e : singleFlight q -> singleFlight (react q e).
Proof.
  unfold singleFlight, react, startProcessing, loopHead.
  intros [[Hp Hone] | (Hp & Hpend & Hfly)]; destruct e as [task|]; simpl.
  - rewrite Hp. simpl. by left.
  - destruct (inFlight q) as [|running [|? ?]]; try done. simpl.
    destruct (pending q); simpl; [by right|by left].
  - rewrite Hp, Hpend, Hfly. simpl. by left.
  - rewrite Hfly. by right.
Qed.

(** However the pushes of the callers and the completions of tasks
    interleave, at most one task is executing. *)
Lemma run_singleFlight events :
  singleFlight (run events) ∧ (length (inFlight (run events)) <= 1)%nat.
Proof.
  assert (H : forall q, singleFlight q -> singleFlight (fold_left react events q)).
  { induction events as [|e events IH]; intros q Hq; simpl; [done|].
    by apply IH, react_singleFlight. }
  assert (Hrun : singleFlight (run events)) by (apply H; by right).
  split; [done|]. destruct Hrun as [[_ ->] | (_ & _ & ->)]; simpl; lia.
Qed.

(** *** The rate limit, for answers that set the time stamp *)

Lemma spaced_snoc gap times t :
  spaced gap times -> Forall (fun a => a + gap <= t) times -> spaced gap (times ++ [t]).
Proof.
  induction times as [|a [|b rest] IH]; intros Hs Hall; simpl; [done| |].
  - apply Forall_cons in Hall as [Ha _]. done.
  - destruct Hs as [Hab Hs]. apply Forall_cons in Hall as [_ Hall].
    split; [done|]. by apply IH.
Qed.

(** File-system steps are no calls of the service. *)
Lemma requestTimes_file_steps w w' new :
  trace w' = new ++ trace w -> Forall isFileStep new -> requestTimes w' = requestTimes w.
Proof.
  unfold requestTimes. intros -> Hall. f_equal.
  induction new as [|s new IH]; [done|].
  apply Forall_cons in Hall as [Hs Hall]. cbn [app omap list_omap].
  unfold isFileStep in Hs. destruct (op s); try done; by apply IH.
Qed.

Lemma reverseGeocode_spec la lo w :
  let w' := (reverseGeocode la lo w).2 in
  metadataFilePath w' = metadataFilePath w
  ∧ geocodingQueue w' = geocodingQueue w
  ∧ files w' = files w
  ∧ faults w' = faults w
  ∧ exchanges w' = tail (exchanges w)
  ∧ exists t,
      requestTimes w' = requestTimes w ++ [t]
      ∧ lastGeocodingRequestTime w + geocodingRateLimitMs <= t
      ∧ (if stampsClock (headExchange w)
         then t <= lastGeocodingRequestTime w'
         else lastGeocodingRequestTime w' = lastGeocodingRequestTime w).
Proof.
  unfold reverseGeocode, bind, ret, nextExchange, sleep, stamp, note, stampsClock,
    headExchange, requestTimes, geocodingRateLimitMs.
  destruct w as [mp last queue proc fs flts exch clk tr]. cbn.
  destruct exch as [|[before lag lat rep] rest]; cbn.
  - destruct (clk + 0 - last <? 5000) eqn:Hwait; cbn;
      repeat split; eexists; (split; [reflexivity|]); lia.
  - pose proof (N2Z.is_nonneg before). pose proof (N2Z.is_nonneg lag).
    pose proof (N2Z.is_nonneg lat).
    destruct (clk + Z.of_N before - last <? 5000) eqn:Hwait; cbn;
      destruct rep as [status [[err name ad]|]|]; cbn;
      repeat (case_match; cbn);
      repeat split; eexists; (split; [reflexivity|]); cbn in *; lia.
Qed.

Lemma updatePhotoAddress_spec k full short w :
  let w' := (updatePhotoAddress k full short w).2 in
  sameObject w w' ∧ requestTimes w' = requestTimes w.
Proof.
  unfold updatePhotoAddress.
  destruct (metadataFilePath w) as [p|] eqn:Hp; [|by split; [apply sameObject_refl|]].
  unfold bind.
  destruct (loadMetadataDatabase_spec w p Hp) as (Hobj1 & new1 & Ht1 & Hfs1 & _).
  destruct (loadMetadataDatabase w) as [database w1]. simpl in *.
  destruct (database !! k) as [e|]; simpl.
  - assert (Hp1 : metadataFilePath w1 = Some p) by (destruct Hobj1 as [H _]; congruence).
    match goal with
    | |- context [saveMetadataDatabase ?db w1] =>
        destruct (saveMetadataDatabase_spec w1 p db Hp1) as (Hobj2 & new2 & Ht2 & Hfs2 & _)
    end.
    split; [by eapply sameObject_trans|].
    rewrite (requestTimes_file_steps w1 _ new2 Ht2 Hfs2).
    by apply (requestTimes_file_steps w w1 new1).
  - split; [done|]. by apply (requestTimes_file_steps w w1 new1).
Qed.

Lemma runTask_spec task w :
  let w' := (runTask task w).2 in
  geocodingQueue w' = geocodingQueue w
  ∧ exchanges w' = tail (exchanges w)
  ∧ (stampsClock (headExchange w) = true -> paced w -> paced w').
Proof.
  unfold runTask, bind.
  pose proof (reverseGeocode_spec (lat task) (lon task) w) as Hgeo.
  destruct (reverseGeocode (lat task) (lon task) w) as [r w1]. simpl in Hgeo.
  destruct Hgeo as (_ & Hq1 & _ & _ & Hx1 & t & Ht & Hlate & Hstamp).
  assert (Hpaced1 : stampsClock (headExchange w) = true -> paced w -> paced w1).
  { intros Hs [Hsp Hall]. rewrite Hs in Hstamp. unfold paced. rewrite Ht. split.
    - apply spaced_snoc; [done|]. eapply Forall_impl; [exact Hall|].
      intros a Ha. simpl in Ha. lia.
    - apply Forall_app. split; [|by each_step].
      eapply Forall_impl; [exact Hall|]. intros a Ha. simpl in Ha.
      unfold geocodingRateLimitMs in Hlate. lia. }
  destruct r as [[full short]|]; simpl; [|done].
  destruct (updatePhotoAddress_spec (key task) full short w1)
    as ((_ & Hlast & Hq2 & _ & Hx2 & _) & Htimes).
  simpl in *. split; [congruence|]. split; [congruence|].
  intros Hs Hp. specialize (Hpaced1 Hs Hp). unfold paced in *.
  by rewrite Htimes, Hlast.
Qed.

Lemma drain_spec fuel w :
  (length (geocodingQueue w) <= fuel)%nat ->
  geocodingQueue (drain fuel w) = []
  ∧ (Forall (fun x => stampsClock x = true) (exchanges w) -> paced w ->
     paced (drain fuel w)).
Proof.
  revert w. induction fuel as [|fuel IH]; intros w Hlen; simpl.
  - destruct (geocodingQueue w); [done|simpl in Hlen; lia].
  - destruct (geocodingQueue w) as [|task rest] eqn:Hq; [done|].
    pose proof (runTask_spec task (set_queue rest w)) as (Hq1 & Hx1 & Hpaced1).
    simpl in Hq1, Hx1.
    destruct (IH (runTask task (set_queue rest w)).2) as [Hempty Hpaced].
    { rewrite Hq1. simpl in Hlen. lia. }
    split; [done|]. intros Hall Hp. apply Hpaced.
    + rewrite Hx1. destruct (exchanges w); [done|]. by apply Forall_cons in Hall as [_ ?].
    + apply Hpaced1; [|done].
      unfold headExchange. simpl. destruct (exchanges w); [done|].
      by apply Forall_cons in Hall as [? _].
Qed.

(** When every answer of the service is one after which [reverseGeocode]
    sets its time stamp, the drain empties the queue and keeps all calls at
    least five seconds apart. *)
Lemma processGeocodingQueue_paced w :
  isProcessingGeocodingQueue w = false ->
  Forall (fun x => stampsClock x = true) (exchanges w) ->
  paced w ->
  geocodingQueue (processGeocodingQueue w) = []
  ∧ spaced geocodingRateLimitMs (requestTimes (processGeocodingQueue w)).
Proof.
  intros Hidle Hall Hp. unfold processGeocodingQueue. rewrite Hidle.
  destruct (drain_spec (length (geocodingQueue w)) (set_processing true w))
    as [Hempty Hpaced]; [done|].
  split; [exact Hempty|]. by apply Hpaced.
Qed.

End GeocodingQueue.

(** ** Cache eviction *)

Section Eviction.
Import ImageCache.

Lemma filter_twice {A} (p q r : A -> bool) (l : list A) :
  (forall x, r x = q x && p x) ->
  List.filter p (List.filter q l) = List.filter r l.
Proof.
  intros Hr. induction l as [|x l IH]; simpl; [done|].
  rewrite Hr. destruct (q x); simpl; [|done].
  destruct (p x); by rewrite IH.
Qed.

Lemma filter_all {A} (p : A -> bool) (l : list A) :
  (forall x, p x = true) -> List.filter p l = l.
Proof.
  intros Hp. induction l as [|x l IH]; simpl; [done|]. by rewrite Hp, IH.
Qed.

Lemma find_named (n : string) (l : list DirEntry) e :
  e ∈ l -> name e = n ->
  exists e0, List.find (fun e' => String.eqb (name e') n) l = Some e0
             ∧ e0 ∈ l ∧ name e0 = n.
Proof.
  intros He Hn. induction l as [|x l IH]; [by apply elem_of_nil in He|].
  simpl. destruct (String.eqb (name x) n) eqn:Hx.
  - exists x. apply String.eqb_eq in Hx. repeat split; [by left|done].
  - apply elem_of_cons in He as [->|He].
    + apply String.eqb_neq in Hx. done.
    + destruct (IH He) as (e0 & Hfind & Hin & Hname).
      exists e0. repeat split; [done|by right|done].
Qed.

Lemma unlink_removable d e :
  removable d -> e ∈ entries d ->
  unlink (name e) d
  = Some {| entries := List.filter (fun e' => negb (String.eqb (name e') (name e)))
                         (entries d);
            readdirFails := readdirFails d |}.
Proof.
  intros [_ Hall] He. unfold unlink.
  destruct (find_named (name e) (entries d) e He eq_refl) as (e0 & -> & Hin & _).
  rewrite Forall_forall in Hall. by rewrite (Hall e0 Hin).
Qed.

Lemma NoDup_names_filter (p : DirEntry -> bool) (l : list DirEntry) :
  NoDup (map name l) -> NoDup (map name (List.filter p l)).
Proof.
  induction l as [|x l IH]; intros Hnd; simpl; [constructor|].
  simpl in Hnd. apply NoDup_cons in Hnd as [Hx Hnd].
  destruct (p x); simpl; [|by apply IH].
  apply NoDup_cons. split; [|by apply IH].
  intros Hin. apply Hx.
  apply list_elem_of_In in Hin. apply in_map_iff in Hin as (y & Hy & Hin).
  apply filter_In in Hin as [Hin _].
  apply list_elem_of_In, in_map_iff. by exists y.
Qed.

Lemma removable_filter d (p : DirEntry -> bool) :
  removable d ->
  removable {| entries := List.filter p (entries d); readdirFails := readdirFails d |}.
Proof.
  intros [Hnd Hall]. split; simpl.
  - by apply NoDup_names_filter.
  - rewrite Forall_forall in *. intros x Hx.
    apply Hall. apply list_elem_of_In in Hx. apply filter_In in Hx as [Hx _].
    by apply list_elem_of_In.
Qed.

(** The loop removes a prefix of the candidates, stops at the first moment
    at which the running total is at the target, and otherwise goes on to
    the last candidate. *)
Lemma evictLoop_spec fileStats c d :
  removable d ->
  NoDup (map fs_name fileStats) ->
  Forall (fun file => exists e, e ∈ entries d ∧ name e = fs_name file) fileStats ->
  exists k,
    let kept := List.filter unprotected fileStats in
    (k <= length kept)%nat
    ∧ entries (evictLoop fileStats c d).2
      = List.filter (fun e => negb (named (map fs_name (take k kept)) e)) (entries d)
    ∧ currentCacheSize (evictLoop fileStats c d).1
      = currentCacheSize c - totalSize (take k kept)
    ∧ maxCacheSize (evictLoop fileStats c d).1 = maxCacheSize c
    ∧ (atTarget (currentCacheSize (evictLoop fileStats c d).1) (maxCacheSize c) = true
       ∨ k = length kept)
    ∧ (forall j, (j < k)%nat ->
         atTarget (currentCacheSize c - totalSize (take j kept)) (maxCacheSize c) = false).
Proof.
  revert c d. induction fileStats as [|file rest IH]; intros c d Hrem Hnd Hin.
  - exists 0%nat. simpl. repeat split; try lia. by rewrite filter_all.
  - apply NoDup_cons in Hnd as [Hfresh Hnd]. apply Forall_cons in Hin as [Hfile Hin].
    cbn [evictLoop].
    destruct (atTarget (currentCacheSize c) (maxCacheSize c)) eqn:Hat.
    { exists 0%nat. cbv zeta. rewrite !take_0. unfold totalSize.
      cbn [map fold_right fst snd].
      split; [lia|]. split; [by rewrite filter_all|].
      split; [lia|]. split; [done|]. split; [by left|]. intros j Hj. lia. }
    destruct (isProtected (fs_name file)) eqn:Hprot.
    { assert (Hkept : List.filter unprotected (file :: rest) = List.filter unprotected rest)
        by (simpl; unfold unprotected at 1; by rewrite Hprot).
      rewrite Hkept. destruct (IH c d Hrem Hnd Hin) as (k & Hk). exists k. exact Hk. }
    assert (Hkept : List.filter unprotected (file :: rest)
                    = file :: List.filter unprotected rest)
      by (simpl; unfold unprotected at 1; by rewrite Hprot).
    rewrite Hkept.
    destruct Hfile as (e & He & Hname).
    rewrite <- Hname, (unlink_removable d e Hrem He), Hname.
    set (d1 := {| entries := List.filter (fun e' => negb (String.eqb (name e') (fs_name file)))
                               (entries d);
                  readdirFails := readdirFails d |}).
    set (c1 := with_eviction (stripExtension (fs_name file)) (fs_size file) c).
    assert (Hrem1 : removable d1) by (by apply removable_filter).
    assert (Hin1 : Forall (fun f => exists e, e ∈ entries d1 ∧ name e = fs_name f) rest).
    { rewrite Forall_forall in *. intros f Hf. destruct (Hin f Hf) as (e' & He' & Hn').
      exists e'. split; [|done]. subst d1. simpl.
      apply list_elem_of_In, filter_In. split; [by apply list_elem_of_In|].
      apply negb_true_iff, String.eqb_neq. intros Heq. apply Hfresh.
      apply list_elem_of_In, in_map_iff. exists f.
      split; [congruence|by apply list_elem_of_In]. }
    destruct (IH c1 d1 Hrem1 Hnd Hin1) as (k & Hle & Hent & Hsize & Hmax & Hstop & Hbefore).
    cbv zeta in *. exists (S k). cbn [length take map totalSize fold_right].
    split; [lia|]. split; [|split; [|split; [|split]]].
    + rewrite Hent. subst d1. cbn [entries]. apply filter_twice.
      intros x. unfold named. cbn [existsb]. by rewrite negb_orb.
    + rewrite Hsize. subst c1. unfold totalSize. simpl. lia.
    + by rewrite Hmax.
    + destruct Hstop as [Hstop | Hstop]; [by left|right; by rewrite Hstop].
    + intros [|j] Hj; cbn [take totalSize fold_right].
      * by rewrite Z.sub_0_r.
      * specialize (Hbefore j ltac:(lia)). subst c1. simpl in Hbefore.
        unfold totalSize in Hbefore.
        replace (currentCacheSize c - (fs_size file + fold_right
                   (fun f acc => fs_size f + acc) 0 (take j (List.filter unprotected rest))))
          with (currentCacheSize c - fs_size file - fold_right
                   (fun f acc => fs_size f + acc) 0 (take j (List.filter unprotected rest)))
          by lia.
        exact Hbefore.
Qed.

End Eviction.

Section EvictOldFiles.
Import ImageCache.

Lemma statEntry_name e file : statEntry e = Some file -> fs_name file = name e.
Proof.
  unfold statEntry. destruct (statFails e); [done|].
  destruct (isFile e); [|done]. by intros [= <-].
Qed.

Lemma NoDup_stat_names (l : list DirEntry) :
  NoDup (map name l) -> NoDup (map fs_name (omap statEntry l)).
Proof.
  induction l as [|e l IH]; intros Hnd; simpl; [constructor|].
  simpl in Hnd. apply NoDup_cons in Hnd as [He Hnd].
  destruct (statEntry e) as [file|] eqn:Hstat; simpl; [|by apply IH].
  apply NoDup_cons. split; [|by apply IH].
  intros Hin. apply He.
  apply list_elem_of_In in Hin. apply in_map_iff in Hin as (f' & Hf' & Hin).
  apply list_elem_of_In, list_elem_of_omap in Hin as (e' & He' & Hstat').
  apply list_elem_of_In, in_map_iff. exists e'. split; [|by apply list_elem_of_In].
  rewrite <- (statEntry_name e file Hstat), <- Hf'. symmetry. by apply statEntry_name.
Qed.

Lemma StronglySorted_filter {A} (R : relation A) (p : A -> bool) (l : list A) :
  StronglySorted R l -> StronglySorted R (List.filter p l).
Proof.
  induction 1 as [|x l Hs IH Hall]; simpl; [constructor|].
  destruct (p x); [|done]. constructor; [done|].
  rewrite Forall_forall in *. intros y Hy. apply Hall.
  apply list_elem_of_In in Hy. apply filter_In in Hy as [Hy _].
  by apply list_elem_of_In.
Qed.

(** The candidates are unprotected and ascend in modification time. *)
Lemma candidates_ordered d :
  StronglySorted (fun a b => fs_mtime a <= fs_mtime b) (candidates d)
  ∧ Forall (fun file => isProtected (fs_name file) = false) (candidates d).
Proof.
  unfold candidates. split.
  - apply StronglySorted_filter.
    assert (Htrans : Transitive (fun a b : FileStats => fs_mtime a <= fs_mtime b))
      by (intros a b c; lia).
    apply (sort_sorted byMtime _); unfold byMtime; intros; lia.
  - rewrite Forall_forall. intros file Hin.
    apply list_elem_of_In, filter_In in Hin as [_ Hun].
    unfold unprotected in Hun. by apply negb_true_iff in Hun.
Qed.

(** Files of equal modification time are considered in directory order. *)
Lemma candidates_stable d (time : Z) :
  List.filter (fun file => fs_mtime file =? time)
    (JS.sort byMtime (omap statEntry (entries d)))
  = List.filter (fun file => fs_mtime file =? time) (omap statEntry (entries d)).
Proof.
  apply sort_keeps_class_order. intros x e Hx Hc.
  apply Z.eqb_eq in Hx. apply Z.eqb_neq. unfold byMtime in Hc. lia.
Qed.

Lemma named_protected (victims : list FileStats) e :
  Forall (fun file => isProtected (fs_name file) = false) victims ->
  isProtected (name e) = true ->
  named (map fs_name victims) e = false.
Proof.
  intros Hall Hprot. unfold named. induction victims as [|v victims IH]; simpl; [done|].
  apply Forall_cons in Hall as [Hv Hall]. rewrite IH by done.
  destruct (String.eqb (name e) (fs_name v)) eqn:Heq; [|done].
  apply String.eqb_eq in Heq. congruence.
Qed.

Lemma evictOldFiles_spec c d keys dir :
  cache c = Some keys -> cacheDir c = Some dir ->
  maxCacheSize c < currentCacheSize c ->
  readdirFails d = false -> removable d ->
  exists k,
    (k <= length (candidates d))%nat
    ∧ entries (evictOldFiles c d).2
      = List.filter (fun e => negb (named (map fs_name (take k (candidates d))) e))
          (entries d)
    ∧ currentCacheSize (evictOldFiles c d).1
      = currentCacheSize c - totalSize (take k (candidates d))
    ∧ (atTarget (currentCacheSize (evictOldFiles c d).1) (maxCacheSize c) = true
       ∨ k = length (candidates d))
    ∧ (forall j, (j < k)%nat ->
         atTarget (currentCacheSize c - totalSize (take j (candidates d)))
           (maxCacheSize c) = false)
    ∧ Forall (fun e => isProtected (name e) = true -> e ∈ entries (evictOldFiles c d).2)
        (entries d).
Proof.
  intros Hcache Hdir Hover Hread Hrem.
  unfold evictOldFiles. rewrite Hcache, Hdir, Hread.
  replace (currentCacheSize c <=? maxCacheSize c) with false
    by (symmetry; apply Z.leb_gt; lia).
  cbn [orb isNone].
  set (sorted := JS.sort byMtime (omap statEntry (entries d))).
  assert (Hperm : sorted ≡ₚ omap statEntry (entries d)) by apply sort_Permutation.
  assert (Hnd : NoDup (map fs_name sorted)).
  { rewrite Hperm. apply NoDup_stat_names, Hrem. }
  assert (Hin : Forall (fun file => exists e, e ∈ entries d ∧ name e = fs_name file) sorted).
  { rewrite Hperm. rewrite Forall_forall. intros file Hfile.
    apply list_elem_of_omap in Hfile as (e & He & Hstat).
    exists e. split; [done|]. symmetry. by apply statEntry_name. }
  destruct (evictLoop_spec sorted c d Hrem Hnd Hin)
    as (k & Hle & Hent & Hsize & Hmax & Hstop & Hbefore).
  cbv zeta in *. fold (candidates d) in *.
  exists k. repeat split; try done.
  rewrite Forall_forall. intros e He Hprot. rewrite Hent.
  apply list_elem_of_In, filter_In. split; [by apply list_elem_of_In|].
  apply negb_true_iff, named_protected; [|done].
  destruct (candidates_ordered d) as [_ Hun].
  rewrite Forall_forall in *. intros file Hfile. apply Hun.
  eapply elem_of_sublist; [exact Hfile|apply sublist_take].
Qed.

(** The protected file survives an eviction whatever the file system
    does. *)
Lemma evictLoop_keeps_protected fileStats c d e :
  e ∈ entries d -> isProtected (name e) = true ->
  e ∈ entries (evictLoop fileStats c d).2.
Proof.
  revert c d. induction fileStats as [|file rest IH]; intros c d He Hprot; [done|].
  cbn [evictLoop]. destruct (atTarget _ _); [done|].
  destruct (isProtected (fs_name file)) eqn:Hfile; [by apply IH|].
  destruct (unlink (fs_name file) d) as [d'|] eqn:Hun; [|by apply IH].
  apply IH; [|done]. unfold unlink in Hun.
  destruct (List.find _ (entries d)) as [e0|]; [|done].
  destruct (unlinkFails e0); [done|]. injection Hun as <-. simpl.
  apply list_elem_of_In, filter_In. split; [by apply list_elem_of_In|].
  apply negb_true_iff, String.eqb_neq. congruence.
Qed.

Lemma evictOldFiles_keeps_protected c d e :
  e ∈ entries d -> isProtected (name e) = true ->
  e ∈ entries (evictOldFiles c d).2.
Proof.
  intros He Hprot. unfold evictOldFiles.
  destruct (_ || _ || _); [done|]. destruct (readdirFails d); [done|].
  by apply evictLoop_keeps_protected.
Qed.

End EvictOldFiles.

(** C1 (as amended). When the running total exceeds the maximum (and the
    directory can be listed and lets its files be removed), [evictOldFiles]
    removes a prefix of the candidates, i.e. of the regular files other than
    the protected [photo_metadata.json], taken in ascending modification
    time: it removes a file only while the running total is above 90% of the
    maximum, subtracts the size of each removed file from the running total,
    and stops when the total is at most 90% of the maximum or when no
    candidate is left; the protected file is never removed.  With a maximum
    of 10 MB and five 3 MB entries inserted one after the other, the fourth
    insertion triggers an eviction that removes the oldest entry and the
    fifth insertion one that removes the second oldest: after the fifth
    insertion exactly the two oldest entries are gone and the three files on
    disk occupy 9 MB, which is also the running total. *)
Theorem evictOldFiles_converges (c : ImageCache.t) (d : ImageCache.Disk)
    (keys : list string) (dir : string) :
  ImageCache.cache c = Some keys ->
  ImageCache.cacheDir c = Some dir ->
  ImageCache.maxCacheSize c < ImageCache.currentCacheSize c ->
  ImageCache.readdirFails d = false ->
  ImageCache.removable d ->
  (exists k,
     (k <= length (ImageCache.candidates d))%nat
     ∧ ImageCache.entries (ImageCache.evictOldFiles c d).2
       = List.filter
           (fun e => negb (ImageCache.named
                             (map ImageCache.fs_name (take k (ImageCache.candidates d))) e))
           (ImageCache.entries d)
     ∧ ImageCache.currentCacheSize (ImageCache.evictOldFiles c d).1
       = ImageCache.currentCacheSize c
         - ImageCache.totalSize (take k (ImageCache.candidates d))
     ∧ (ImageCache.atTarget (ImageCache.currentCacheSize (ImageCache.evictOldFiles c d).1)
          (ImageCache.maxCacheSize c) = true
        ∨ k = length (ImageCache.candidates d))
     ∧ (forall j, (j < k)%nat ->
          ImageCache.atTarget
            (ImageCache.currentCacheSize c
             - ImageCache.totalSize (take j (ImageCache.candidates d)))
            (ImageCache.maxCacheSize c) = false)
     ∧ Forall (fun e => ImageCache.isProtected (ImageCache.name e) = true ->
                        e ∈ ImageCache.entries (ImageCache.evictOldFiles c d).2)
         (ImageCache.entries d))
  ∧ StronglySorted (fun a b => ImageCache.fs_mtime a <= ImageCache.fs_mtime b)
      (ImageCache.candidates d)
  ∧ Caches.names (snd Caches.afterFour)
    = ["original_2_0.jpg"; "original_3_0.jpg"; "original_4_0.jpg"]%string
  ∧ Caches.names (snd Caches.afterFive)
    = ["original_3_0.jpg"; "original_4_0.jpg"; "original_5_0.jpg"]%string
  ∧ ImageCache.currentCacheSize (fst Caches.afterFive) = 9 * Caches.megabyte
  ∧ ImageCache.diskSize (snd Caches.afterFive) = 9 * Caches.megabyte.
Proof.
  intros Hcache Hdir Hover Hread Hrem.
  split; [by eapply evictOldFiles_spec|].
  split; [apply candidates_ordered|].
  repeat split; vm_compute; reflexivity.
Qed.

Lemma evictOldFiles_converges_witness :
  ImageCache.maxCacheSize (fst Caches.fifthWritten)
  < ImageCache.currentCacheSize (fst Caches.fifthWritten)
  ∧ ImageCache.removable (snd Caches.fifthWritten)
  ∧ exists k,
      (k <= length (ImageCache.candidates (snd Caches.fifthWritten)))%nat
      ∧ ImageCache.currentCacheSize
          (ImageCache.evictOldFiles (fst Caches.fifthWritten) (snd Caches.fifthWritten)).1
        = ImageCache.currentCacheSize (fst Caches.fifthWritten)
          - ImageCache.totalSize (take k (ImageCache.candidates (snd Caches.fifthWritten))).
Proof.
  assert (Hover : ImageCache.maxCacheSize (fst Caches.fifthWritten)
                  < ImageCache.currentCacheSize (fst Caches.fifthWritten))
    by (vm_compute; reflexivity).
  assert (Hrem : ImageCache.removable (snd Caches.fifthWritten)).
  { split.
    - apply (bool_decide_unpack _). vm_compute. exact I.
    - apply (bool_decide_unpack _). vm_compute. exact I. }
  split; [exact Hover|]. split; [exact Hrem|].
  destruct (evictOldFiles_converges (fst Caches.fifthWritten) (snd Caches.fifthWritten)
              ["original_2_0"; "original_3_0"; "original_4_0"; "original_5_0"]%string
              ".image-cache" eq_refl eq_refl Hover eq_refl Hrem)
    as ((k & Hle & _ & Hsize & _) & _).
  exists k. split; [exact Hle|exact Hsize].
Defined.

(** C1, the statement as given fails in two places.  The eviction that the
    fifth insertion triggers finds four files (the oldest entry went in the
    eviction that the fourth insertion triggered, when the total reached
    12 MB) and removes one of them, not two.  And an eviction can end above
    the target: with the protected file in the cache directory and counted in
    the running total, every other file is removed and the total stays at
    100% of the maximum. *)
Lemma evictOldFiles_fifth_removes_one :
  Caches.names (snd Caches.fifthWritten)
  = ["original_2_0.jpg"; "original_3_0.jpg"; "original_4_0.jpg"; "original_5_0.jpg"]%string
  ∧ ImageCache.evictOldFiles (fst Caches.fifthWritten) (snd Caches.fifthWritten)
    = Caches.afterFive
  ∧ Caches.names (snd Caches.afterFive)
    = ["original_3_0.jpg"; "original_4_0.jpg"; "original_5_0.jpg"]%string
  ∧ Caches.names (ImageCache.evictOldFiles Caches.overBudget Caches.withDatabaseFile).2
    = ["photo_metadata.json"]%string
  ∧ ImageCache.atTarget
      (ImageCache.currentCacheSize
         (ImageCache.evictOldFiles Caches.overBudget Caches.withDatabaseFile).1)
      (ImageCache.maxCacheSize Caches.overBudget) = false.
Proof. repeat split; vm_compute; reflexivity. Qed.

(** ** The list manager: orders that [sortImageList] produces *)

Section ListManagerOrders.
Import ImageListManager.


Lemma filter_rev {A} (p : A -> bool) (l : list A) :
  List.filter p (rev l) = rev (List.filter p l).
Proof.
  induction l as [|x l IH]; [done|].
  cbn [rev List.filter]. rewrite List.filter_app, IH. cbn [List.filter].
  destruct (p x); [done|]. by rewrite app_nil_r.
Qed.


End ListManagerOrders.

(** X1. Sorting by creation time or by modification time is a stable sort:
    the result is a permutation of the input, it is in non-decreasing order
    of the time, and the photos of one time keep their input order. *)
Theorem sortImageList_time_stable (l : list ImageListManager.PhotoItem) :
  (ImageListManager.sortImageList l "created" false ≡ₚ l
   ∧ StronglySorted
       (fun a b => ImageListManager.created a <= ImageListManager.created b)
       (ImageListManager.sortImageList l "created" false)
   ∧ forall time : Z,
       List.filter (fun p => ImageListManager.created p =? time)
         (ImageListManager.sortImageList l "created" false)
       = List.filter (fun p => ImageListManager.created p =? time) l)
  ∧ (ImageListManager.sortImageList l "modified" false ≡ₚ l
     ∧ StronglySorted
         (fun a b => ImageListManager.modified a <= ImageListManager.modified b)
         (ImageListManager.sortImageList l "modified" false)
     ∧ forall time : Z,
         List.filter (fun p => ImageListManager.modified p =? time)
           (ImageListManager.sortImageList l "modified" false)
         = List.filter (fun p => ImageListManager.modified p =? time) l).
Proof.
  split; (split; [apply sortImageList_Permutation|split]).
  - apply sort_created_ascends.
  - apply sort_created_stable.
  - apply sort_modified_ascends.
  - apply sort_modified_stable.
Qed.



(** ** The list manager: walking through a batch *)

Section ListManagerWalk.
Import ImageListManager.

Lemma at_index_lookup {A} (l : list A) (i : Z) :
  0 <= i -> JS.at_index l i = l !! Z.to_nat i.
Proof. intros Hi. unfold JS.at_index. by destruct (Z.ltb_spec i 0); [lia|]. Qed.

Lemma getNextImage_inside m item :
  0 <= index m ->
  imageList m !! Z.to_nat (index m) = Some item ->
  getNextImage m = (Some item, with_index (index m + 1) m).
Proof.
  intros Hi Hitem. pose proof (lookup_lt_Some _ _ _ Hitem) as Hlt.
  unfold getNextImage.
  destruct (Nat.eqb_spec (length (imageList m)) 0) as [H0|_]; [lia|].
  destruct (Z.geb_spec (index m) (Z.of_nat (length (imageList m)))); [lia|].
  by rewrite at_index_lookup, Hitem.
Qed.

Lemma getNextImage_at_end m :
  Z.of_nat (length (imageList m)) <= index m -> getNextImage m = (None, m).
Proof.
  intros Hi. unfold getNextImage.
  destruct (Nat.eqb_spec (length (imageList m)) 0) as [H0|_]; [done|].
  by destruct (Z.geb_spec (index m) (Z.of_nat (length (imageList m)))); [|lia].
Qed.

Lemma serveNext_spec count m :
  cursorInvariant m ->
  (length (imageList m) - Z.to_nat (index m) <= count)%nat ->
  serveNext count m
  = (drop (Z.to_nat (index m)) (imageList m),
     with_index (Z.of_nat (length (imageList m))) m).
Proof.
  revert m. induction count as [|count IH]; intros m [Hlo Hhi] Hcount.
  - cbn [serveNext]. rewrite drop_ge by lia.
    assert (index m = Z.of_nat (length (imageList m))) as <- by lia.
    by destruct m.
  - cbn [serveNext].
    destruct (decide (index m = Z.of_nat (length (imageList m)))) as [Hend|Hin].
    + rewrite getNextImage_at_end by lia. rewrite drop_ge by lia.
      rewrite <- Hend. by destruct m.
    + destruct (lookup_lt_is_Some_2 (imageList m) (Z.to_nat (index m))) as [item Hitem];
        [lia|].
      rewrite (getNextImage_inside m item) by done.
      rewrite IH; cbn [imageList index with_index].
      * rewrite (drop_S _ _ _ Hitem).
        replace (Z.to_nat (index m + 1)) with (S (Z.to_nat (index m))) by lia.
        done.
      * unfold cursorInvariant. cbn [imageList index with_index]. lia.
      * lia.
Qed.

Lemma getPreviousImage_spec m :
  cursorInvariant m -> imageList m ≠ [] ->
  let target := Z.max 0 (index m - 2) in
  exists item,
    imageList m !! Z.to_nat target = Some item
    ∧ getPreviousImage m = (Some item, with_index (target + 1) m).
Proof.
  intros [Hlo Hhi] Hne target.
  assert (0 < length (imageList m))%nat as Hlen
    by (destruct (imageList m); [done|cbn; lia]).
  destruct (lookup_lt_is_Some_2 (imageList m) (Z.to_nat target)) as [item Hitem];
    [unfold target; lia|].
  exists item. split; [done|].
  unfold getPreviousImage.
  assert ((if index m - 2 <? 0 then 0 else index m - 2) = target) as ->.
  { unfold target. destruct (Z.ltb_spec (index m - 2) 0); lia. }
  rewrite (getNextImage_inside _ item); cbn [index imageList with_index];
    [done|unfold target; lia|done].
Qed.

End ListManagerWalk.

(** X4. From a cursor inside the current list, calling [getNextImage] again
    and again returns the photos from the cursor to the end of the list, each
    once and in list order, and leaves the cursor at the end; from then on
    [getNextImage] returns nothing and [areAllImagesShown] holds. *)
Theorem getNextImage_serves_batch (count : nat) (m : ImageListManager.t) :
  ImageListManager.cursorInvariant m ->
  (length (ImageListManager.imageList m) - Z.to_nat (ImageListManager.index m)
   <= count)%nat ->
  let '(served, m') := ImageListManager.serveNext count m in
  served = drop (Z.to_nat (ImageListManager.index m)) (ImageListManager.imageList m)
  ∧ ImageListManager.imageList m' = ImageListManager.imageList m
  ∧ ImageListManager.index m' = Z.of_nat (length (ImageListManager.imageList m))
  ∧ ImageListManager.getNextImage m' = (None, m')
  ∧ ImageListManager.areAllImagesShown m' = true.
Proof.
  intros Hinv Hcount. rewrite serveNext_spec by done.
  repeat split.
  - apply getNextImage_at_end. cbn. lia.
  - unfold ImageListManager.areAllImagesShown. cbn. lia.
Qed.

Lemma getNextImage_serves_batch_witness :
  ImageListManager.cursorInvariant Samples.midBatch
  ∧ (let '(served, m') := ImageListManager.serveNext 5 Samples.midBatch in
     map ImageListManager.path served = ["a.jpg"; "a2.jpg"]%string
     ∧ ImageListManager.index m' = 3).
Proof.
  assert (ImageListManager.cursorInvariant Samples.midBatch) as Hinv
    by (unfold ImageListManager.cursorInvariant; cbn; lia).
  split; [exact Hinv|].
  pose proof (getNextImage_serves_batch 5 Samples.midBatch Hinv) as H.
  destruct (ImageListManager.serveNext 5 Samples.midBatch) as [served m'].
  destruct H as (-> & _ & -> & _); [cbn; lia|]. split; reflexivity.
Defined.

(** X5. On a non-empty current list, [getPreviousImage] moves the cursor two
    places back, but not before the start, and returns the photo there: with
    the cursor at [i] it returns the photo at [max 0 (i - 2)] and leaves the
    cursor right behind that photo.  Called right after [getNextImage] has
    returned the first photo, it returns the first photo again. *)
Theorem getPreviousImage_steps_back (m : ImageListManager.t) :
  ImageListManager.cursorInvariant m ->
  ImageListManager.imageList m ≠ [] ->
  exists item,
    ImageListManager.imageList m !! Z.to_nat (Z.max 0 (ImageListManager.index m - 2))
    = Some item
    ∧ ImageListManager.getPreviousImage m
      = (Some item,
         ImageListManager.with_index (Z.max 0 (ImageListManager.index m - 2) + 1) m)
    ∧ (ImageListManager.index m <= 2 ->
       ImageListManager.imageList m !! 0%nat = Some item
       ∧ ImageListManager.index (ImageListManager.getPreviousImage m).2 = 1).
Proof.
  intros Hinv Hne.
  destruct (getPreviousImage_spec m Hinv Hne) as (item & Hitem & Hprev).
  exists item. split; [done|]. split; [done|].
  intros Hsmall. rewrite Hprev. cbn.
  replace (Z.max 0 (ImageListManager.index m - 2)) with 0 in * by lia.
  split; [exact Hitem|done].
Qed.

Lemma getPreviousImage_steps_back_witness :
  ImageListManager.cursorInvariant Samples.midBatch
  ∧ exists item,
      ImageListManager.getPreviousImage Samples.midBatch
      = (Some item, ImageListManager.with_index 1 Samples.midBatch).
Proof.
  assert (ImageListManager.cursorInvariant Samples.midBatch) as Hinv
    by (unfold ImageListManager.cursorInvariant; cbn; lia).
  split; [exact Hinv|].
  destruct (getPreviousImage_steps_back Samples.midBatch Hinv) as (item & _ & H & _);
    [discriminate|].
  exists item. exact H.
Defined.

(** ** The list manager: what [prepareImageList] hands out *)

Section ListManagerPrepare.
Import ImageListManager.

Lemma ordered_Permutation config now random l :
  (if randomizeImageOrder config
   then shuffleArray now random l
   else sortImageList l (sortImagesBy config) (sortImagesDescending config)) ≡ₚ l.
Proof.
  destruct (randomizeImageOrder config);
    [apply shuffleArray_shuffles|apply sortImageList_Permutation].
Qed.

Lemma notYetShown_unseen f images :
  Forall (fun image => path image ∉ readShownImagesTracker f) (notYetShown f images).
Proof.
  unfold notYetShown. apply Forall_forall. intros image Hin.
  apply list_elem_of_In, filter_In in Hin as [_ Hin].
  apply negb_true_iff, bool_decide_eq_false in Hin. done.
Qed.

Lemma prepareImageList_filtered images config isPreload now random m f :
  showAllImagesBeforeRestart config = true ->
  isPreload = true ∨ notYetShown f images ≠ [] ->
  exists result m',
    prepareImageList images config isPreload now random m f = (result, m', f)
    ∧ result ≡ₚ notYetShown f images
    ∧ alreadyShownSet m' = readShownImagesTracker f.
Proof.
  intros Hall Hcase. unfold prepareImageList. rewrite Hall. cbn [andb].
  cbn [alreadyShownSet with_shown]. fold (notYetShown f images).
  assert ((length (notYetShown f images) =? 0)%nat && (0 <? length images)%nat
          && negb isPreload = false) as ->.
  { destruct Hcase as [->|Hne]; [by rewrite andb_false_r|].
    destruct (notYetShown f images); [done|]. done. }
  destruct isPreload; eexists _, _; (split; [reflexivity|]);
    (split; [apply ordered_Permutation|done]).
Qed.

Lemma prepareImageList_unfiltered images config isPreload now random m f :
  showAllImagesBeforeRestart config = false ->
  exists result m',
    prepareImageList images config isPreload now random m f = (result, m', f)
    ∧ result ≡ₚ images
    ∧ alreadyShownSet m' = alreadyShownSet m.
Proof.
  intros Hall. unfold prepareImageList. rewrite Hall. cbn [andb].
  destruct isPreload; eexists _, _; (split; [reflexivity|]);
    (split; [apply ordered_Permutation|done]).
Qed.

End ListManagerPrepare.

(** X6. With [showAllImagesBeforeRestart], as long as some photo of the
    input is not in the tracker file (or the call is a preload call),
    [prepareImageList] returns exactly the photos whose path the tracker
    file does not list, in shuffled or sorted order: no photo already shown
    is handed out again, none of the others is lost, and the tracker file is
    left alone. *)
Theorem prepareImageList_skips_shown (images : list ImageListManager.PhotoItem)
    (config : ImageListManager.ModuleConfig) (isPreload : bool) (now : N)
    (random : nat -> N) (m : ImageListManager.t) (f : ImageListManager.TrackerFile) :
  ImageListManager.showAllImagesBeforeRestart config = true ->
  isPreload = true ∨ ImageListManager.notYetShown f images ≠ [] ->
  let '(result, m', f') :=
    ImageListManager.prepareImageList images config isPreload now random m f in
  result ≡ₚ ImageListManager.notYetShown f images
  ∧ Forall (fun image =>
              ImageListManager.path image ∉ ImageListManager.readShownImagesTracker f)
      result
  ∧ (forall image,
       image ∈ images ->
       ImageListManager.path image ∉ ImageListManager.readShownImagesTracker f ->
       image ∈ result)
  ∧ f' = f
  ∧ ImageListManager.alreadyShownSet m' = ImageListManager.readShownImagesTracker f.
Proof.
  intros Hall Hcase.
  destruct (prepareImageList_filtered images config isPreload now random m f Hall Hcase)
    as (result & m' & -> & Hperm & Hset).
  split; [done|]. split; [|split; [|done]].
  - rewrite Hperm. apply notYetShown_unseen.
  - intros image Hin Hnew. rewrite Hperm. unfold ImageListManager.notYetShown.
    apply list_elem_of_In, filter_In. split; [by apply list_elem_of_In|].
    by apply negb_true_iff, bool_decide_eq_false.
Qed.

Lemma prepareImageList_skips_shown_witness :
  ImageListManager.showAllImagesBeforeRestart Samples.nameOrder = true
  ∧ (let '(result, _, _) :=
       ImageListManager.prepareImageList
         (Samples.photo "c.jpg" 4 :: Samples.threePhotos) Samples.nameOrder false 0
         (fun _ => 0%N) ImageListManager.init Samples.allShown in
     result ≡ₚ ImageListManager.notYetShown Samples.allShown
                 (Samples.photo "c.jpg" 4 :: Samples.threePhotos)).
Proof.
  split; [reflexivity|].
  pose proof (prepareImageList_skips_shown
                (Samples.photo "c.jpg" 4 :: Samples.threePhotos) Samples.nameOrder false 0
                (fun _ => 0%N) ImageListManager.init Samples.allShown eq_refl) as H.
  destruct (ImageListManager.prepareImageList _ _ _ _ _ _ _) as [[result m'] f'].
  apply H. right. vm_compute. discriminate.
Defined.

(** X7. Without [showAllImagesBeforeRestart], [prepareImageList] neither
    reads nor writes the tracker: the result is a permutation of the whole
    input, and the in-memory set and the tracker file stay as they were. *)
Theorem prepareImageList_ignores_tracker (images : list ImageListManager.PhotoItem)
    (config : ImageListManager.ModuleConfig) (isPreload : bool) (now : N)
    (random : nat -> N) (m : ImageListManager.t) (f : ImageListManager.TrackerFile) :
  ImageListManager.showAllImagesBeforeRestart config = false ->
  let '(result, m', f') :=
    ImageListManager.prepareImageList images config isPreload now random m f in
  result ≡ₚ images
  ∧ f' = f
  ∧ ImageListManager.alreadyShownSet m' = ImageListManager.alreadyShownSet m.
Proof.
  intros Hall.
  destruct (prepareImageList_unfiltered images config isPreload now random m f Hall)
    as (result & m' & -> & Hperm & Hset).
  done.
Qed.

Lemma prepareImageList_ignores_tracker_witness :
  ImageListManager.showAllImagesBeforeRestart Samples.newestFirst = false
  ∧ (let '(result, m', f') :=
       ImageListManager.prepareImageList Samples.threePhotos Samples.newestFirst false 0
         (fun _ => 0%N) ImageListManager.init Samples.allShown in
     result ≡ₚ Samples.threePhotos ∧ f' = Samples.allShown).
Proof.
  split; [reflexivity|].
  pose proof (prepareImageList_ignores_tracker Samples.threePhotos Samples.newestFirst
                false 0 (fun _ => 0%N) ImageListManager.init Samples.allShown eq_refl) as H.
  destruct (ImageListManager.prepareImageList _ _ _ _ _ _ _) as [[result m'] f'].
  destruct H as (Hperm & Hfile & _). split; [exact Hperm|exact Hfile].
Defined.

(** X8. A preload call of [prepareImageList] leaves the current list and
    the cursor alone and parks its result as the next batch;
    [switchToNextBatch] then makes a non-empty parked batch the current list
    with the cursor at its start and empties the park, and does nothing when
    the parked batch is empty. *)
Theorem preload_then_switch (images : list ImageListManager.PhotoItem)
    (config : ImageListManager.ModuleConfig) (now : N) (random : nat -> N)
    (m : ImageListManager.t) (f : ImageListManager.TrackerFile) :
  let '(result, m', f') :=
    ImageListManager.prepareImageList images config true now random m f in
  ImageListManager.imageList m' = ImageListManager.imageList m
  ∧ ImageListManager.index m' = ImageListManager.index m
  ∧ ImageListManager.nextBatchList m' = result
  ∧ f' = f
  ∧ ImageListManager.hasNextBatchPreloaded m' = negb (bool_decide (result = []))
  ∧ (result ≠ [] ->
     ImageListManager.imageList (ImageListManager.switchToNextBatch m') = result
     ∧ ImageListManager.index (ImageListManager.switchToNextBatch m') = 0
     ∧ ImageListManager.nextBatchList (ImageListManager.switchToNextBatch m') = [])
  ∧ (result = [] -> ImageListManager.switchToNextBatch m' = m').
Proof.
  unfold ImageListManager.prepareImageList.
  rewrite andb_false_r.
  set (final := if ImageListManager.randomizeImageOrder config then _ else _).
  cbn. unfold ImageListManager.hasNextBatchPreloaded, ImageListManager.switchToNextBatch.
  cbn. repeat split.
  - destruct (ImageListManager.showAllImagesBeforeRestart config); done.
  - destruct (ImageListManager.showAllImagesBeforeRestart config); done.
  - destruct final; [done|]. by rewrite bool_decide_eq_false_2.
  - destruct final; done.
  - destruct final; done.
  - destruct final; done.
  - intros ->. done.
Qed.

(** ** The list manager: the tracker file *)

Section TrackerFile.
Import ImageListManager.

Lemma append_cons (c : ascii) (a b : string) :
  (String c a ++ b)%string = String c (a ++ b)%string.
Proof. reflexivity. Qed.

Lemma append_nil (b : string) : (EmptyString ++ b)%string = b.
Proof. reflexivity. Qed.

Lemma string_app_assoc (a b c : string) : ((a ++ b) ++ c = a ++ (b ++ c))%string.
Proof.
  induction a as [|x a IH]; [done|]. by rewrite !append_cons, IH.
Qed.

(** Everything up to a line feed is split off without regard to what
    follows. *)
Lemma split_lines_front (a : string) (cur : list ascii) :
  exists front, forall b,
    JS.split_lines_aux (a ++ String "010"%char b) cur = front ++ JS.split_lines_aux b [].
Proof.
  revert cur. induction a as [|c a IH]; intros cur.
  - eexists [_]. intros b. rewrite append_nil. cbn. reflexivity.
  - setoid_rewrite append_cons. cbn [JS.split_lines_aux].
    destruct (Ascii.eqb c "010"%char).
    + destruct (IH []) as [front Hfront].
      eexists (_ :: front). intros b. by rewrite Hfront.
    + apply IH.
Qed.

Lemma split_lines_plain (p b : string) (cur : list ascii) :
  ("010"%char ∉ list_ascii_of_string p) ->
  JS.split_lines_aux (p ++ String "010"%char b) cur
  = string_of_list_ascii (rev (JS.drop_cr (rev (list_ascii_of_string p) ++ cur)))
    :: JS.split_lines_aux b [].
Proof.
  revert cur. induction p as [|c p IH]; intros cur Hp.
  - rewrite append_nil. cbn. reflexivity.
  - rewrite append_cons. cbn [JS.split_lines_aux list_ascii_of_string] in *.
    apply not_elem_of_cons in Hp as [Hc Hp].
    destruct (Ascii.eqb_spec c "010"%char) as [->|_]; [done|].
    rewrite IH by done. cbn [rev]. by rewrite <- app_assoc.
Qed.

Lemma drop_cr_rev (l : list ascii) :
  last l ≠ Some "013"%char -> JS.drop_cr (rev l) = rev l.
Proof.
  destruct l as [|x l _] using rev_ind; [done|].
  rewrite last_snoc, rev_unit. intros Hx. cbn.
  destruct (Ascii.eqb_spec x "013"%char) as [->|_]; done.
Qed.

Lemma split_lines_path (p : string) :
  storable p ->
  JS.split_lines_aux (p ++ String "010"%char EmptyString) [] = [p; EmptyString].
Proof.
  intros (Hlf & Hcr & _). rewrite split_lines_plain by done.
  rewrite app_nil_r, drop_cr_rev by done.
  by rewrite rev_involutive, string_of_list_ascii_of_string.
Qed.

Lemma lineSet_app (a b : list string) : lineSet (a ++ b) = lineSet a ∪ lineSet b.
Proof. unfold lineSet. by rewrite List.filter_app, list_to_set_app_L. Qed.

Lemma lineSet_path (p : string) :
  storable p -> lineSet [p; EmptyString] = {[ p ]}.
Proof.
  intros (_ & _ & Hp). unfold lineSet. cbn. rewrite Hp. cbn.
  by rewrite union_empty_r_L.
Qed.

Lemma readShownImagesTracker_appended (body p : string) :
  body = EmptyString ∨ (exists lines, body = (lines ++ String "010"%char EmptyString)%string) ->
  storable p ->
  lineSet (JS.split_lines (body ++ p ++ String "010"%char EmptyString))
  = {[ p ]} ∪ lineSet (JS.split_lines body).
Proof.
  intros [->|[lines ->]] Hp; unfold JS.split_lines.
  - rewrite append_nil, split_lines_path by done.
    rewrite lineSet_path by done. cbn. by rewrite union_empty_r_L.
  - rewrite string_app_assoc, append_cons, append_nil.
    destruct (split_lines_front lines []) as [front Hfront].
    rewrite !Hfront, split_lines_path by done.
    rewrite !lineSet_app, lineSet_path by done.
    change (lineSet (JS.split_lines_aux EmptyString [])) with (∅ : gset string).
    rewrite union_empty_r_L. apply (comm_L (∪)).
Qed.

End TrackerFile.

(** X9. A path recorded by [addImageToShown] is read back by
    [readShownImagesTracker].  Where the tracker file is absent, empty or
    ends with a line feed, and the path holds no line feed, does not end
    with a carriage return and is not blank, the set read from the file
    after the call is the set read before plus that path; the in-memory set
    grows by the same path, and the file again ends with a line feed. *)
Theorem addImageToShown_recorded (imgPath : string) (m m' : ImageListManager.t)
    (f f' : ImageListManager.TrackerFile) :
  ImageListManager.wholeLines f ->
  ImageListManager.storable imgPath ->
  ImageListManager.addImageToShown imgPath m f = Some (m', f') ->
  ImageListManager.readShownImagesTracker f'
  = {[ imgPath ]} ∪ ImageListManager.readShownImagesTracker f
  ∧ ImageListManager.alreadyShownSet m'
    = {[ imgPath ]} ∪ ImageListManager.alreadyShownSet m
  ∧ ImageListManager.wholeLines f'.
Proof.
  intros Hwhole Hpath Hadd.
  unfold ImageListManager.addImageToShown in Hadd.
  destruct (ImageListManager.writeRefused f); [done|].
  unfold ImageListManager.wholeLines, ImageListManager.readShownImagesTracker in *.
  destruct (ImageListManager.text f) as [body|]; simplify_eq/=.
  - split; [|split; [done|]].
    + by apply readShownImagesTracker_appended.
    + right. exists (body ++ imgPath)%string. by rewrite string_app_assoc.
  - split; [|split; [done|]].
    + apply (readShownImagesTracker_appended EmptyString); [by left|done].
    + right. by exists imgPath.
Qed.

Lemma addImageToShown_recorded_witness :
  ImageListManager.wholeLines Samples.noTracker
  ∧ ImageListManager.storable "a.jpg"
  ∧ ImageListManager.readShownImagesTracker
      {| ImageListManager.text := Some ("a.jpg" ++ Samples.newline)%string;
         ImageListManager.writeRefused := false |}
    = {[ "a.jpg"%string ]} ∪ ImageListManager.readShownImagesTracker Samples.noTracker.
Proof.
  assert (ImageListManager.storable "a.jpg") as Hpath.
  { split; [|split; [|reflexivity]].
    - cbn. intros H. by repeat (apply elem_of_cons in H as [H|H]; [discriminate H|]);
        apply elem_of_nil in H.
    - cbn. discriminate. }
  split; [exact I|]. split; [exact Hpath|].
  apply (addImageToShown_recorded "a.jpg" ImageListManager.init
           (ImageListManager.with_shown
              ({[ "a.jpg"%string ]} ∪ ImageListManager.alreadyShownSet ImageListManager.init)
              ImageListManager.init)
           Samples.noTracker
           {| ImageListManager.text := Some ("a.jpg" ++ Samples.newline)%string;
              ImageListManager.writeRefused := false |} I Hpath).
  reflexivity.
Defined.

(** ** The Synology client: the photo list *)

Section PhotoList.
Import ImageListManager SynologyPhotosClient.

Lemma filterUnseen_fresh seen photos :
  NoDup (map dedupeKey photos) ->
  Forall (fun photo => dedupeKey photo ∉ seen) photos ->
  filterUnseen seen photos = photos.
Proof.
  revert seen. induction photos as [|photo rest IH]; intros seen Hnd Hout; [done|].
  cbn [map filterUnseen] in *.
  apply NoDup_cons in Hnd as [Hfirst Hnd].
  apply Forall_cons in Hout as [Hphoto Hout].
  rewrite bool_decide_eq_false_2 by done. f_equal.
  apply IH; [done|].
  apply Forall_forall. intros other Hother.
  rewrite Forall_forall in Hout.
  intros [Heq%elem_of_singleton|Hin]%elem_of_union; [|by apply (Hout other)].
  apply Hfirst. rewrite <- Heq. apply list_elem_of_In, in_map. by apply list_elem_of_In.
Qed.

Lemma removeDuplicatePhotos_fixed photos :
  NoDup (map dedupeKey photos) -> removeDuplicatePhotos photos = photos.
Proof.
  intros Hnd. apply filterUnseen_fresh; [done|].
  apply Forall_forall. intros photo _. apply not_elem_of_empty.
Qed.

Lemma processPhotoList_items client photos space clock k :
  Forall (fun item =>
            spaceId item = space
            ∧ is_Some (url item)
            ∧ exists photo, photo ∈ photos ∧ isPhoto photo = true
                            ∧ synologyId item = Some (photo_id photo))
    (processPhotoList client photos space clock k).
Proof.
  revert k. induction photos as [|photo rest IH]; intros k; [constructor|].
  cbn [processPhotoList].
  assert (forall k', Forall (fun item =>
            spaceId item = space
            ∧ is_Some (url item)
            ∧ exists photo0, photo0 ∈ photo :: rest ∧ isPhoto photo0 = true
                             ∧ synologyId item = Some (photo_id photo0))
            (processPhotoList client rest space clock k')) as Hrest.
  { intros k'. eapply Forall_impl; [apply IH|].
    intros item (? & ? & photo0 & ? & ? & ?). split; [done|]. split; [done|].
    exists photo0. split; [by right|done]. }
  destruct (isPhoto photo) eqn:Hphoto; cbn [negb]; [|apply Hrest].
  constructor; [|apply Hrest].
  cbn. split; [done|]. split; [by eexists|].
  exists photo. split; [by left|done].
Qed.

Lemma processPhotoList_ids client photos space clock k :
  map synologyId (processPhotoList client photos space clock k)
  = map (fun photo => Some (photo_id photo)) (List.filter isPhoto photos).
Proof.
  revert k. induction photos as [|photo rest IH]; intros k; [done|].
  cbn [processPhotoList List.filter].
  destruct (isPhoto photo); cbn [negb map]; [|apply IH].
  f_equal. apply IH.
Qed.

Lemma dedupeKey_provider item n :
  synologyId item = Some n -> n ≠ 0 -> dedupeKey item = KeyNum n.
Proof.
  intros Hid Hn. unfold dedupeKey. rewrite Hid.
  by destruct (Z.eqb_spec n 0).
Qed.

End PhotoList.

(** X10. [removeDuplicatePhotos] is idempotent, it returns a list without
    two photos of one key as it is, and it never returns more photos than it
    was given. *)
Theorem removeDuplicatePhotos_idempotent (photos : list ImageListManager.PhotoItem) :
  SynologyPhotosClient.removeDuplicatePhotos
    (SynologyPhotosClient.removeDuplicatePhotos photos)
  = SynologyPhotosClient.removeDuplicatePhotos photos
  ∧ (NoDup (map SynologyPhotosClient.dedupeKey photos) ->
     SynologyPhotosClient.removeDuplicatePhotos photos = photos)
  ∧ (length (SynologyPhotosClient.removeDuplicatePhotos photos) <= length photos)%nat.
Proof.
  split; [|split].
  - apply removeDuplicatePhotos_fixed, filterUnseen_NoDup.
  - apply removeDuplicatePhotos_fixed.
  - apply sublist_length, filterUnseen_sublist.
Qed.

(** X11. [processPhotoList] keeps the items of type [photo] and
    [live_photo], in the order of the answer, and drops everything else;
    every photo it builds carries the provider id of its item as
    [synologyId], the space of the request as [spaceId], and a URL. *)
Theorem processPhotoList_keeps_photos (client : SynologyPhotosClient.t)
    (photos : list SynologyPhotosClient.SynologyPhoto) (space : option Z)
    (clock : nat -> Z) (k : nat) :
  map ImageListManager.synologyId
    (SynologyPhotosClient.processPhotoList client photos space clock k)
  = map (fun photo => Some (SynologyPhotosClient.photo_id photo))
      (List.filter SynologyPhotosClient.isPhoto photos)
  ∧ Forall (fun item =>
              ImageListManager.spaceId item = space
              ∧ is_Some (ImageListManager.url item))
      (SynologyPhotosClient.processPhotoList client photos space clock k)
  ∧ (length (SynologyPhotosClient.processPhotoList client photos space clock k)
     <= length photos)%nat.
Proof.
  split; [apply processPhotoList_ids|]. split.
  - eapply Forall_impl; [apply processPhotoList_items|].
    intros item (? & ? & _). done.
  - rewrite <- (length_map ImageListManager.synologyId), processPhotoList_ids, length_map.
    apply List.filter_length_le.
Qed.

(** X12. The photos that the requests for several tags and spaces return
    are merged into one list in which no provider id occurs twice, and in
    which every provider id of a photo of some answer occurs: as long as no
    item has the id 0, a photo that carries two of the tags, or that is
    listed in two spaces, is shown once per round. *)
Theorem mergeTagResults_distinct (client : SynologyPhotosClient.t)
    (answers : list (list SynologyPhotosClient.SynologyPhoto * option Z * (nat -> Z))) :
  Forall (fun answer =>
            Forall (fun photo => SynologyPhotosClient.photo_id photo ≠ 0) answer.1.1)
    answers ->
  let merged :=
    SynologyPhotosClient.mergeTagResults
      (map (fun answer =>
              SynologyPhotosClient.processPhotoList client answer.1.1 answer.1.2
                answer.2 0)
         answers) in
  NoDup (map ImageListManager.synologyId merged)
  ∧ forall answer photo,
      answer ∈ answers -> photo ∈ answer.1.1 ->
      SynologyPhotosClient.isPhoto photo = true ->
      Some (SynologyPhotosClient.photo_id photo) ∈ map ImageListManager.synologyId merged.
Proof.
  intros Hids merged.
  set (photos := concat (map (fun answer =>
              SynologyPhotosClient.processPhotoList client answer.1.1 answer.1.2
                answer.2 0) answers)).
  assert (Forall (fun item => exists n, ImageListManager.synologyId item = Some n ∧ n ≠ 0)
            photos) as Hitems.
  { apply List.Forall_concat, List.Forall_map, Forall_forall. intros answer Hanswer.
    rewrite Forall_forall in Hids. specialize (Hids answer Hanswer).
    rewrite Forall_forall in Hids.
    eapply Forall_impl; [apply processPhotoList_items|].
    intros item (_ & _ & photo & Hphoto & _ & Hid). cbn.
    exists (SynologyPhotosClient.photo_id photo). split; [done|]. by apply Hids. }
  assert (merged `sublist_of` photos) as Hsub by apply filterUnseen_sublist.
  assert (Forall (fun item => exists n, ImageListManager.synologyId item = Some n ∧ n ≠ 0)
            merged) as Hmerged.
  { apply Forall_forall. intros item Hitem. rewrite Forall_forall in Hitems.
    apply Hitems. by eapply elem_of_sublist. }
  split.
  - apply (NoDup_map_coarser SynologyPhotosClient.dedupeKey);
      [|apply filterUnseen_NoDup].
    intros x y Hx Hy Heq. rewrite Forall_forall in Hmerged.
    destruct (Hmerged x Hx) as (n & Hn & Hn0).
    rewrite (dedupeKey_provider x n) by done.
    rewrite Heq in Hn. by rewrite (dedupeKey_provider y n).
  - intros answer photo Hanswer Hphoto Htype.
    assert (Some (SynologyPhotosClient.photo_id photo)
            ∈ map ImageListManager.synologyId photos) as Hin.
    { unfold photos. rewrite concat_map, map_map.
      apply list_elem_of_In, in_concat.
      eexists. split.
      - apply in_map_iff. exists answer. split; [reflexivity|by apply list_elem_of_In].
      - cbn. rewrite processPhotoList_ids.
        apply in_map_iff. exists photo. split; [done|].
        apply filter_In. split; [by apply list_elem_of_In|done]. }
    apply list_elem_of_In, in_map_iff in Hin as (item & Hid & Hitem).
    apply list_elem_of_In in Hitem.
    rewrite Forall_forall in Hids. specialize (Hids answer Hanswer).
    rewrite Forall_forall in Hids. specialize (Hids photo Hphoto). cbn in Hids.
    pose proof (filterUnseen_find ∅ photos
                  (SynologyPhotosClient.KeyNum (SynologyPhotosClient.photo_id photo)))
      as Hfind.
    rewrite bool_decide_eq_false_2 in Hfind by apply not_elem_of_empty.
    destruct (List.find _ photos) as [first|] eqn:Hfirst.
    + apply find_some in Hfind as [Hkept Hkey].
      apply list_elem_of_In in Hkept.
      apply bool_decide_eq_true in Hkey.
      rewrite Forall_forall in Hmerged.
      destruct (Hmerged first Hkept) as (n & Hn & Hn0).
      rewrite (dedupeKey_provider first n) in Hkey by done.
      injection Hkey as ->.
      apply list_elem_of_In, in_map_iff. exists first. split; [done|by apply list_elem_of_In].
    + apply list_elem_of_In in Hitem.
      pose proof (find_none _ _ Hfirst item Hitem) as Hnone.
      apply bool_decide_eq_false in Hnone. exfalso. apply Hnone.
      by apply dedupeKey_provider.
Qed.

Lemma mergeTagResults_distinct_witness :
  Forall (fun answer =>
            Forall (fun photo => SynologyPhotosClient.photo_id photo ≠ 0) answer.1.1)
    Samples.tagAnswers
  ∧ NoDup (map ImageListManager.synologyId
             (SynologyPhotosClient.mergeTagResults
                (map (fun answer =>
                        SynologyPhotosClient.processPhotoList Samples.client answer.1.1
                          answer.1.2 answer.2 0)
                   Samples.tagAnswers))).
Proof.
  assert (Forall (fun answer =>
            Forall (fun photo => SynologyPhotosClient.photo_id photo ≠ 0) answer.1.1)
            Samples.tagAnswers) as Hids.
  { unfold Samples.tagAnswers. each_step; cbn; each_step; cbn; discriminate. }
  split; [exact Hids|].
  destruct (mergeTagResults_distinct Samples.client Samples.tagAnswers Hids) as [H _].
  exact H.
Defined.

(** ** The image cache: keys *)

Section CacheKeys.
Import ImageCache.
Variable md5hex : string -> string.

Lemma prefix_append (p s : string) : String.prefix p (p ++ s) = true.
Proof.
  induction p as [|a p IH].
  - rewrite append_nil. by destruct s.
  - rewrite append_cons. cbn [String.prefix]. by destruct (ascii_dec a a).
Qed.

Lemma getCacheKey_consistent imageIdentifier synologyId spaceId :
  consistent imageIdentifier = true ->
  getCacheKey md5hex imageIdentifier synologyId spaceId = imageIdentifier.
Proof. unfold getCacheKey, consistent. by intros ->. Qed.

Lemma getCacheKey_provider imageIdentifier sid spaceId :
  consistent (getCacheKey md5hex imageIdentifier (Some sid) spaceId) = true.
Proof.
  unfold getCacheKey.
  destruct (startsWith imageIdentifier "original_" || startsWith imageIdentifier "thumbnail_")
    eqn:Hid; [exact Hid|].
  unfold consistent, startsWith.
  destruct (includes imageIdentifier "SYNO.Foto.Download"
            || includes imageIdentifier "SYNO.FotoTeam.Download").
  - by rewrite prefix_append.
  - rewrite (prefix_append "thumbnail_"). apply orb_true_r.
Qed.

End CacheKeys.

(** X13. Cache keys are stable.  An identifier that starts with
    [original_] or [thumbnail_] is its own key, whatever ids come with it;
    the key of a photo with a provider id is such an identifier, so that
    asking for the key of a key returns the key; and a missing space id
    gives the same key as the space id 0. *)
Theorem getCacheKey_stable (md5hex : string -> string) (imageIdentifier : string)
    (sid : Z) (spaceId : option Z) (otherId otherSpace : option Z) :
  ImageCache.getCacheKey md5hex
    (ImageCache.getCacheKey md5hex imageIdentifier (Some sid) spaceId) otherId otherSpace
  = ImageCache.getCacheKey md5hex imageIdentifier (Some sid) spaceId
  ∧ ImageCache.getCacheKey md5hex ("original_" ++ pretty sid ++ "_"
                                   ++ pretty (ImageCache.orZero spaceId)) otherId otherSpace
    = ("original_" ++ pretty sid ++ "_" ++ pretty (ImageCache.orZero spaceId))%string
  ∧ ImageCache.getCacheKey md5hex imageIdentifier (Some sid) None
    = ImageCache.getCacheKey md5hex imageIdentifier (Some sid) (Some 0).
Proof.
  split; [|split].
  - apply getCacheKey_consistent, getCacheKey_provider.
  - apply getCacheKey_consistent. unfold ImageCache.consistent, ImageCache.startsWith.
    by rewrite prefix_append.
  - reflexivity.
Qed.

(** ** The image cache: batches, [calculateCacheSize] and [clear] *)

Section CacheBatches.
Import ImageCache.

Lemma slices_concat {A} (files : list A) (batchSize rounds i : nat) :
  (0 < batchSize)%nat -> (length files - i <= rounds)%nat ->
  concat (slices rounds batchSize i files) = drop i files.
Proof.
  intros Hsize. revert i. induction rounds as [|rounds IH]; intros i Hrounds.
  - cbn. rewrite drop_ge; [done|lia].
  - cbn [slices]. destruct (Nat.ltb_spec i (length files)) as [Hi|Hi].
    + cbn [concat]. rewrite IH by lia.
      rewrite <- drop_drop. apply take_drop.
    + cbn. rewrite drop_ge; [done|lia].
Qed.

Lemma slices_all {A} (files : list A) :
  concat (slices (length files) 10 0 files) = files.
Proof. rewrite slices_concat by lia. done. Qed.

Lemma fold_left_concat {A B} (f : B -> A -> B) (ls : list (list A)) (b : B) :
  fold_left (fun acc l => fold_left f l acc) ls b = fold_left f (concat ls) b.
Proof.
  revert b. induction ls as [|l ls IH]; intros b; [done|].
  cbn [fold_left concat]. by rewrite fold_left_app, IH.
Qed.

Lemma fold_left_sum (sizes : list Z) (start : Z) :
  fold_left (fun sum size => sum + size) sizes start
  = start + fold_right Z.add 0 sizes.
Proof.
  revert start. induction sizes as [|size sizes IH]; intros start; cbn; [lia|].
  rewrite IH. lia.
Qed.

Lemma sum_batches (batches : list (list DirEntry)) (start : Z) :
  fold_left
    (fun totalSize batch =>
       totalSize + fold_left (fun sum size => sum + size) (map sizeOrZero batch) 0)
    batches start
  = start + fold_right Z.add 0 (map sizeOrZero (concat batches)).
Proof.
  revert start. induction batches as [|batch batches IH]; intros start; cbn; [lia|].
  rewrite IH, fold_left_sum, map_app, fold_right_app.
  induction (map sizeOrZero batch) as [|x l IHl]; cbn; lia.
Qed.

Lemma diskSize_sum (l : list DirEntry) :
  Forall (fun e => statFails e = false) l ->
  fold_right Z.add 0 (map sizeOrZero l)
  = fold_right (fun e acc => (if isFile e then size e else 0) + acc) 0 l.
Proof.
  induction 1 as [|e l He _ IH]; [done|].
  cbn. unfold sizeOrZero at 1. rewrite He, IH. done.
Qed.

Lemma sum_statable (l : list DirEntry) :
  fold_right Z.add 0 (map sizeOrZero l) = totalSize (omap statEntry l).
Proof.
  unfold totalSize. induction l as [|e l IH]; [done|].
  cbn. unfold sizeOrZero at 1, statEntry at 1. rewrite IH.
  destruct (statFails e); [done|]. by destruct (isFile e).
Qed.

(** One step of [clear] on a directory without two entries of one name. *)
Lemma clearFile_entries d (file : string) :
  NoDup (map name (entries d)) ->
  entries (clearFile d file)
  = List.filter (fun e => negb (String.eqb (name e) file) || survivesClear e) (entries d)
  ∧ readdirFails (clearFile d file) = readdirFails d.
Proof.
  intros Hnd. unfold clearFile, unlinkPath, unlink.
  assert (forall keep : DirEntry -> bool,
            (forall e, e ∈ entries d -> name e = file -> keep e = true) ->
            entries d = List.filter (fun e => negb (String.eqb (name e) file) || keep e)
                          (entries d)) as Hsame.
  { intros keep Hkeep. symmetry. apply forallb_filter_id, forallb_forall.
    intros e He%list_elem_of_In.
    destruct (String.eqb_spec (name e) file) as [Hname|_]; [|done].
    cbn. by apply Hkeep. }
  destruct (isProtected file) eqn:Hprot.
  { split; [|done]. apply Hsame. intros e _ <-. unfold survivesClear. by rewrite Hprot. }
  destruct (List.find _ (entries d)) as [e0|] eqn:Hfind.
  - apply find_some in Hfind as [He0%list_elem_of_In Hname0%String.eqb_eq].
    assert (forall e, e ∈ entries d -> name e = file -> e = e0) as Hunique.
    { intros e He Hname.
      apply list_elem_of_lookup in He as [i Hi]. apply list_elem_of_lookup in He0 as [j Hj].
      assert (i = j) as ->.
      { eapply NoDup_lookup; [exact Hnd|..].
        - rewrite list_lookup_fmap, Hi. reflexivity.
        - rewrite list_lookup_fmap, Hj. cbn. congruence. }
      congruence. }
    destruct (isFile e0) eqn:Hfile0; [destruct (unlinkFails e0) eqn:Hfails0|].
    + split; [|done]. apply Hsame. intros e He Hname.
      rewrite (Hunique e He Hname). unfold survivesClear. rewrite Hfails0.
      apply orb_true_r.
    + split; [|done]. cbn [entries]. apply List.filter_ext_in.
      intros e He%list_elem_of_In.
      destruct (String.eqb_spec (name e) file) as [Hname|_]; [|done].
      rewrite (Hunique e He Hname). unfold survivesClear. cbn.
      by rewrite Hname0, Hprot, Hfile0, Hfails0.
    + split; [|done]. apply Hsame. intros e He Hname.
      rewrite (Hunique e He Hname). unfold survivesClear. rewrite Hfile0.
      cbn. by rewrite orb_true_r.
  - split; [|done]. apply Hsame. intros e He%list_elem_of_In Hname.
    pose proof (find_none _ _ Hfind e He) as Hno. cbn in Hno.
    by apply String.eqb_neq in Hno.
Qed.

Lemma clearFiles_entries (files : list string) d :
  NoDup (map name (entries d)) ->
  entries (fold_left clearFile files d)
  = List.filter (fun e => negb (named files e) || survivesClear e) (entries d).
Proof.
  revert d. induction files as [|file files IH]; intros d Hnd.
  - cbn. symmetry. apply forallb_filter_id, forallb_forall. done.
  - cbn [fold_left].
    destruct (clearFile_entries d file Hnd) as [Hstep _].
    rewrite IH; rewrite Hstep; [|by apply NoDup_names_filter].
    apply filter_twice. intros e. unfold named. cbn [existsb].
    destruct (String.eqb (name e) file), (existsb _ files), (survivesClear e); done.
Qed.

Lemma named_own (l : list DirEntry) e : e ∈ l -> named (map name l) e = true.
Proof.
  intros He. unfold named. apply existsb_exists. exists (name e).
  split; [by apply in_map, list_elem_of_In|apply String.eqb_refl].
Qed.

Lemma clear_spec code c d keys dir :
  cache c = Some keys -> cacheDir c = Some dir ->
  readdirFails d = false -> NoDup (map name (entries d)) ->
  clear code c d
  = ({| cacheDir := cacheDir c; cache := Some []; currentCacheSize := 0;
        maxCacheSize := maxCacheSize c |},
     fold_left clearFile (map name (entries d)) d)
  ∧ entries (fold_left clearFile (map name (entries d)) d)
    = List.filter survivesClear (entries d).
Proof.
  intros Hkeys Hdir Hread Hnd. unfold clear. rewrite Hkeys, Hdir, Hread.
  rewrite fold_left_concat, slices_all.
  split; [done|].
  rewrite clearFiles_entries by done.
  apply List.filter_ext_in. intros e He%list_elem_of_In.
  by rewrite named_own.
Qed.

End CacheBatches.

(** X14. [calculateCacheSize] sets the running total to the sum of the
    sizes of the regular files that [stat] reports, whatever the number of
    batches; where [stat] serves every entry this is the size of the
    directory.  A directory that cannot be listed counts as empty, and
    without a cache directory the total is left as it was. *)
Theorem calculateCacheSize_total (c : ImageCache.t) (d : ImageCache.Disk) :
  (ImageCache.cacheDir c = None -> ImageCache.calculateCacheSize c d = c)
  ∧ (ImageCache.cacheDir c ≠ None ->
     ImageCache.currentCacheSize (ImageCache.calculateCacheSize c d)
     = (if ImageCache.readdirFails d then 0
        else ImageCache.totalSize (omap ImageCache.statEntry (ImageCache.entries d)))
     ∧ ImageCache.cache (ImageCache.calculateCacheSize c d) = ImageCache.cache c
     ∧ ImageCache.maxCacheSize (ImageCache.calculateCacheSize c d)
       = ImageCache.maxCacheSize c
     ∧ (ImageCache.readdirFails d = false ->
        Forall (fun e => ImageCache.statFails e = false) (ImageCache.entries d) ->
        ImageCache.accurate (ImageCache.calculateCacheSize c d) d)).
Proof.
  unfold ImageCache.calculateCacheSize, ImageCache.accurate. split.
  - by intros ->.
  - destruct (ImageCache.cacheDir c) as [dir|]; [intros _|done]. cbn.
    rewrite sum_batches, slices_all, Z.add_0_l.
    split; [|split; [done|split; [done|]]].
    + destruct (ImageCache.readdirFails d); [done|]. apply sum_statable.
    + intros -> Hstat. by apply diskSize_sum.
Qed.

(** X15. [clear] empties the index and, where the directory can be listed,
    sets the running total to zero and removes every regular file that is
    not protected and that the file system lets go; the protected
    [photo_metadata.json], directories and files that cannot be removed stay
    where they are, in their order. *)
Theorem clear_removes_unprotected (code : string) (c : ImageCache.t)
    (d : ImageCache.Disk) (keys : list string) (dir : string) :
  ImageCache.cache c = Some keys ->
  ImageCache.cacheDir c = Some dir ->
  ImageCache.readdirFails d = false ->
  NoDup (map ImageCache.name (ImageCache.entries d)) ->
  let '(c', d') := ImageCache.clear code c d in
  ImageCache.entries d' = List.filter ImageCache.survivesClear (ImageCache.entries d)
  ∧ ImageCache.cache c' = Some []
  ∧ ImageCache.currentCacheSize c' = 0
  ∧ ImageCache.maxCacheSize c' = ImageCache.maxCacheSize c
  ∧ (forall e, e ∈ ImageCache.entries d ->
       ImageCache.isProtected (ImageCache.name e) = true -> e ∈ ImageCache.entries d')
  ∧ (Forall (fun e => ImageCache.isFile e = true ∧ ImageCache.unlinkFails e = false)
       (ImageCache.entries d) ->
     ImageCache.entries d'
     = List.filter (fun e => ImageCache.isProtected (ImageCache.name e))
         (ImageCache.entries d)).
Proof.
  intros Hkeys Hdir Hread Hnd.
  destruct (clear_spec code c d keys dir Hkeys Hdir Hread Hnd) as [-> Hentries].
  rewrite Hentries. repeat split.
  - intros e He Hprot. apply list_elem_of_In, filter_In.
    split; [by apply list_elem_of_In|]. unfold ImageCache.survivesClear. by rewrite Hprot.
  - intros Hfiles. apply List.filter_ext_in. intros e He%list_elem_of_In.
    rewrite Forall_forall in Hfiles. destruct (Hfiles e He) as [Hfile Hfails].
    unfold ImageCache.survivesClear. rewrite Hfile, Hfails.
    by rewrite !orb_false_r.
Qed.

Lemma clear_removes_unprotected_witness :
  NoDup (map ImageCache.name (ImageCache.entries Caches.withDatabaseFile))
  ∧ Caches.names (ImageCache.clear "ENOENT" Caches.overBudget Caches.withDatabaseFile).2
    = ["photo_metadata.json"]%string.
Proof.
  assert (NoDup (map ImageCache.name (ImageCache.entries Caches.withDatabaseFile)))
    as Hnd.
  { cbn. apply NoDup_cons. split; [|apply NoDup_singleton].
    intros H%list_elem_of_singleton. discriminate H. }
  split; [exact Hnd|].
  pose proof (clear_removes_unprotected "ENOENT" Caches.overBudget Caches.withDatabaseFile
                ["original_1_0"%string] ".image-cache" eq_refl eq_refl eq_refl Hnd) as H.
  destruct (ImageCache.clear "ENOENT" Caches.overBudget Caches.withDatabaseFile)
    as [c' d'].
  destruct H as (H & _). unfold Caches.names. cbn [snd]. rewrite H. reflexivity.
Defined.

(** ** The image cache: [set], [get] and the running total *)

Section CacheRoundTrip.
Import ImageCache.
Variable md5hex : string -> string.

Lemma cache_set_member key keys keys' :
  cache_set key keys = Some keys' -> key ∈ keys'.
Proof.
  unfold cache_set. destruct (maxKeys <=? length keys)%nat; [done|].
  destruct (bool_decide (key ∈ keys)) eqn:Hin; intros [= <-].
  - by apply bool_decide_eq_true in Hin.
  - apply elem_of_app. right. by apply list_elem_of_singleton.
Qed.

(** What a call of [set] that returns a path has done. *)
Lemma set_stored imageIdentifier dataSize fileExtension synologyId spaceId now c d
    filePath c1 d1 :
  set md5hex imageIdentifier dataSize fileExtension synologyId spaceId now false c d
  = (Some filePath, c1, d1) ->
  let key := getCacheKey md5hex imageIdentifier synologyId spaceId in
  exists keys dir keys',
    cache c = Some keys ∧ cacheDir c = Some dir
    ∧ filePath = (dir ++ "/" ++ key ++ fileExtension)%string
    ∧ key ∈ keys'
    ∧ let written :=
        ({| cacheDir := Some dir; cache := Some keys';
            currentCacheSize := currentCacheSize c + dataSize;
            maxCacheSize := maxCacheSize c |},
         writeFile (key ++ fileExtension) dataSize now d) in
      (c1, d1)
      = if maxCacheSize c <? currentCacheSize c + dataSize
        then evictOldFiles written.1 written.2 else written.
Proof.
  intros Hset key. unfold set in Hset. fold key in Hset.
  destruct (cache c) as [keys|] eqn:Hkeys; [|done].
  destruct (cacheDir c) as [dir|] eqn:Hdir; [|done].
  set (trimmed := if (1000 <=? length keys)%nat then drop 100 keys else keys) in Hset.
  destruct (match cache_set key trimmed with
            | Some keys' => Some keys'
            | None => cache_set key (drop 200 trimmed)
            end) as [keys'|] eqn:Hstored; [|done].
  assert (key ∈ keys') as Hmember.
  { destruct (cache_set key trimmed) eqn:Hfirst; simplify_eq;
      by eapply cache_set_member. }
  exists keys, dir, keys'. split; [done|]. split; [done|].
  cbn [with_keys cacheDir cache currentCacheSize maxCacheSize] in Hset.
  rewrite Hdir in Hset. cbn [fst snd].
  destruct (maxCacheSize c <? currentCacheSize c + dataSize).
  - destruct (evictOldFiles _ _) as [c' d'] eqn:Hevict. by simplify_eq.
  - by simplify_eq.
Qed.



Lemma diskSize_app (l l' : list DirEntry) (readdir readdir' readdir'' : bool) :
  diskSize {| entries := l ++ l'; readdirFails := readdir |}
  = diskSize {| entries := l; readdirFails := readdir' |}
    + diskSize {| entries := l'; readdirFails := readdir'' |}.
Proof.
  unfold diskSize. cbn [entries]. induction l as [|e l IH]; cbn; [lia|].
  rewrite IH. lia.
Qed.

Lemma diskSize_remove (l : list DirEntry) e0 (readdir : bool) :
  NoDup (map name l) -> e0 ∈ l ->
  diskSize {| entries := List.filter (fun e => negb (String.eqb (name e) (name e0))) l;
              readdirFails := readdir |}
  = diskSize {| entries := l; readdirFails := readdir |}
    - (if isFile e0 then size e0 else 0).
Proof.
  unfold diskSize. cbn [entries]. induction l as [|e l IH]; intros Hnd He0.
  - by apply elem_of_nil in He0.
  - cbn [map] in Hnd. apply NoDup_cons in Hnd as [Hfirst Hnd].
    assert (forall other, other ∈ l -> name other ≠ name e) as Hothers.
    { intros other Hother Heq. apply Hfirst. rewrite <- Heq.
      by apply list_elem_of_In, in_map, list_elem_of_In. }
    apply elem_of_cons in He0 as [->|He0].
    + cbn [List.filter]. rewrite String.eqb_refl. cbn [negb fold_right].
      rewrite forallb_filter_id; [lia|].
      apply forallb_forall. intros other Hother%list_elem_of_In.
      apply negb_true_iff, String.eqb_neq. by apply Hothers.
    + cbn [List.filter].
      assert (String.eqb (name e) (name e0) = false) as ->.
      { apply String.eqb_neq. intros Heq. by apply (Hothers e0 He0). }
      cbn [negb fold_right]. rewrite IH by done. lia.
Qed.

Lemma evictLoop_accurate fileStats c d :
  NoDup (map name (entries d)) ->
  Forall (fun file => forall e, e ∈ entries d -> name e = fs_name file ->
                        isFile e = true ∧ size e = fs_size file) fileStats ->
  accurate c d ->
  accurate (evictLoop fileStats c d).1 (evictLoop fileStats c d).2.
Proof.
  revert c d. induction fileStats as [|file rest IH]; intros c d Hnd Hfiles Hacc; [done|].
  apply Forall_cons in Hfiles as [Hfile Hrest].
  cbn [evictLoop].
  destruct (atTarget (currentCacheSize c) (maxCacheSize c)); [done|].
  destruct (isProtected (fs_name file)); [by apply IH|].
  unfold unlink.
  destruct (List.find _ (entries d)) as [e0|] eqn:Hfind; [|by apply IH].
  apply find_some in Hfind as [He0%list_elem_of_In Hname0%String.eqb_eq].
  destruct (unlinkFails e0); [by apply IH|].
  destruct (Hfile e0 He0 Hname0) as [Hfile0 Hsize0].
  apply IH.
  - cbn [entries]. by apply NoDup_names_filter.
  - cbn [entries]. eapply Forall_impl; [exact Hrest|].
    intros other Hother e He. apply Hother.
    apply list_elem_of_In, filter_In in He as [He _]. by apply list_elem_of_In.
  - unfold accurate in *. cbn [with_eviction currentCacheSize].
    rewrite <- Hname0, (diskSize_remove _ e0) by done.
    rewrite Hfile0, Hsize0.
    replace {| entries := entries d; readdirFails := readdirFails d |} with d
      by (by destruct d).
    lia.
Qed.

Lemma evictOldFiles_accurate c d :
  NoDup (map name (entries d)) -> accurate c d ->
  accurate (evictOldFiles c d).1 (evictOldFiles c d).2.
Proof.
  intros Hnd Hacc. unfold evictOldFiles.
  destruct ((currentCacheSize c <=? maxCacheSize c) || isNone (cacheDir c)
            || isNone (cache c)); [done|].
  destruct (readdirFails d); [done|].
  apply evictLoop_accurate; [done| |done].
  apply Forall_forall. intros file Hfile e He Hname.
  rewrite sort_Permutation in Hfile.
  apply list_elem_of_omap in Hfile as (e1 & He1 & Hstat).
  assert (e = e1) as ->.
  { apply list_elem_of_lookup in He as [i Hi]. apply list_elem_of_lookup in He1 as [j Hj].
    assert (i = j) as ->; [|congruence].
    eapply NoDup_lookup; [exact Hnd|..].
    - rewrite list_lookup_fmap, Hi. reflexivity.
    - rewrite list_lookup_fmap, Hj. cbn. f_equal.
      rewrite Hname. symmetry. by apply statEntry_name. }
  unfold statEntry in Hstat.
  destruct (statFails e1); [done|]. destruct (isFile e1); [|done].
  by simplify_eq.
Qed.

Lemma access_named fileName d :
  access fileName d = false -> fileName ∉ map name (entries d).
Proof.
  unfold access. intros Hnone Hin.
  apply list_elem_of_In, in_map_iff in Hin as (e & Hname & He).
  assert (existsb (fun e => String.eqb (name e) fileName) (entries d) = true) as Hsome.
  { apply existsb_exists. exists e. split; [done|]. by apply String.eqb_eq. }
  congruence.
Qed.

Lemma writeFile_fresh fileName dataSize now d :
  access fileName d = false ->
  NoDup (map name (entries d)) ->
  NoDup (map name (entries (writeFile fileName dataSize now d)))
  ∧ diskSize (writeFile fileName dataSize now d) = diskSize d + dataSize.
Proof.
  intros Hfresh Hnd. pose proof (access_named _ _ Hfresh) as Hout.
  unfold writeFile. unfold access in Hfresh. rewrite Hfresh. split.
  - cbn [entries]. rewrite map_app. cbn [map name].
    apply NoDup_app. split; [done|]. split.
    + intros x Hx Hx'. apply list_elem_of_singleton in Hx' as ->. done.
    + apply NoDup_singleton.
  - rewrite (diskSize_app _ _ _ (readdirFails d) false).
    replace {| entries := entries d; readdirFails := readdirFails d |} with d
      by (by destruct d).
    unfold diskSize at 2. cbn. lia.
Qed.

End CacheRoundTrip.



(** X17. The running total stays exact across insertions of new files.
    Where the total equals the bytes in the regular files of the directory
    and no two entries share a name, a call of [set] that writes a file not
    yet in the directory leaves a total that again equals the bytes in the
    directory, also when the call ran an eviction; and [evictOldFiles] alone
    keeps the total exact as well. *)
Theorem set_keeps_total_exact (md5hex : string -> string) (imageIdentifier : string)
    (dataSize : Z) (fileExtension : string) (synologyId spaceId : option Z) (now : Z)
    (c c1 : ImageCache.t) (d d1 : ImageCache.Disk) (filePath : string) :
  NoDup (map ImageCache.name (ImageCache.entries d)) ->
  ImageCache.accurate c d ->
  ImageCache.access
    (ImageCache.getCacheKey md5hex imageIdentifier synologyId spaceId ++ fileExtension) d
  = false ->
  ImageCache.set md5hex imageIdentifier dataSize fileExtension synologyId spaceId now
    false c d = (Some filePath, c1, d1) ->
  ImageCache.accurate c1 d1
  ∧ ImageCache.accurate (ImageCache.evictOldFiles c d).1 (ImageCache.evictOldFiles c d).2.
Proof.
  intros Hnd Hacc Hfresh Hset. split; [|by apply evictOldFiles_accurate].
  destruct (set_stored md5hex _ _ _ _ _ _ _ _ _ _ _ Hset)
    as (keys & dir & keys' & Hkeys & Hdir & -> & Hmember & Hwritten).
  destruct (writeFile_fresh _ dataSize now d Hfresh Hnd) as [Hnd' Hsize].
  cbn [fst snd] in Hwritten.
  assert (ImageCache.accurate
            {| ImageCache.cacheDir := Some dir; ImageCache.cache := Some keys';
               ImageCache.currentCacheSize := ImageCache.currentCacheSize c + dataSize;
               ImageCache.maxCacheSize := ImageCache.maxCacheSize c |}
            (ImageCache.writeFile
               (ImageCache.getCacheKey md5hex imageIdentifier synologyId spaceId
                ++ fileExtension) dataSize now d)) as Hacc'.
  { unfold ImageCache.accurate in *. cbn [ImageCache.currentCacheSize]. lia. }
  destruct (ImageCache.maxCacheSize c <? ImageCache.currentCacheSize c + dataSize).
  - pose proof (evictOldFiles_accurate _ _ Hnd' Hacc') as Hevicted.
    rewrite <- Hwritten in Hevicted. exact Hevicted.
  - by injection Hwritten as -> ->.
Qed.

Lemma set_keeps_total_exact_witness :
  ImageCache.accurate Caches.fresh Caches.emptyDirectory
  ∧ ImageCache.accurate (fst Caches.afterFive) (snd Caches.afterFive).
Proof.
  assert (ImageCache.accurate (fst Caches.afterFour) (snd Caches.afterFour)) as H4
    by (vm_compute; reflexivity).
  split; [reflexivity|].
  apply (set_keeps_total_exact (fun s => s) "original_5_0" (3 * Caches.megabyte) ".jpg"
           None None 5 (fst Caches.afterFour) (fst Caches.afterFive)
           (snd Caches.afterFour) (snd Caches.afterFive)
           ".image-cache/original_5_0.jpg").
  - vm_compute. repeat (apply NoDup_cons; split;
      [intros H; repeat (apply elem_of_cons in H as [H|H]; [discriminate H|]);
       by apply elem_of_nil in H|]). apply NoDup_nil. done.
  - exact H4.
  - vm_compute. reflexivity.
  - vm_compute. reflexivity.
Defined.

(** ** The image cache: a key without a file *)

Section CacheMiss.
Import ImageCache.
Variable md5hex : string -> string.

Lemma find_nowhere {A} (f : A -> bool) (l : list A) :
  (forall x, x ∈ l -> f x = false) -> List.find f l = None.
Proof.
  intros Hnone. destruct (List.find f l) as [y|] eqn:Hfind; [|done].
  apply find_some in Hfind as [Hy%list_elem_of_In Hfy].
  rewrite (Hnone y Hy) in Hfy. done.
Qed.

Lemma cache_del_spec key keys other :
  other ∈ cache_del key keys <-> other ∈ keys ∧ other ≠ key.
Proof.
  unfold cache_del. rewrite !list_elem_of_In, filter_In, negb_true_iff, String.eqb_neq.
  done.
Qed.

Lemma get_miss imageIdentifier synologyId spaceId c d keys dir :
  cache c = Some keys -> cacheDir c = Some dir ->
  let key := getCacheKey md5hex imageIdentifier synologyId spaceId in
  (forall ext, ext ∈ extensions -> access (key ++ ext) d = false) ->
  (get md5hex imageIdentifier synologyId spaceId c d).1 = None
  ∧ (exists keys',
       cache (get md5hex imageIdentifier synologyId spaceId c d).2 = Some keys'
       ∧ (key ∉ keys')
       ∧ forall other, other ≠ key -> other ∈ keys' <-> other ∈ keys)
  ∧ currentCacheSize (get md5hex imageIdentifier synologyId spaceId c d).2
    = currentCacheSize c
  ∧ get md5hex imageIdentifier synologyId spaceId
      (get md5hex imageIdentifier synologyId spaceId c d).2 d
    = (None, (get md5hex imageIdentifier synologyId spaceId c d).2).
Proof.
  intros Hkeys Hdir key Hgone.
  assert (forall dir', firstOnDisk dir' key d = None) as Hnone.
  { intros dir'. unfold firstOnDisk. by rewrite find_nowhere. }
  unfold get. rewrite Hkeys, Hdir. fold key. rewrite Hnone.
  destruct (decide (key ∈ keys)) as [Hin|Hout].
  - rewrite bool_decide_eq_true_2 by done.
    assert (key ∉ cache_del key keys) as Hdropped.
    { rewrite cache_del_spec. by intros [_ ?]. }
    cbn [fst snd]. split; [done|]. split; [|split; [done|]].
    + eexists. split; [reflexivity|]. split; [done|].
      intros other Hother. rewrite cache_del_spec.
      split; [by intros [? _]|by intros ?; split].
    + cbn [with_keys cache cacheDir]. rewrite Hdir.
      fold key. by rewrite bool_decide_eq_false_2, Hnone.
  - rewrite bool_decide_eq_false_2 by done.
    cbn [fst snd]. split; [done|]. split; [|split; [done|]].
    + exists keys. done.
    + rewrite Hkeys, Hdir. fold key. by rewrite bool_decide_eq_false_2, Hnone.
Qed.

End CacheMiss.

(** X18. A key whose file is gone is dropped from the index.  Where the
    directory holds no file of the key under any of the extensions, [get]
    returns nothing and leaves an index without that key and with every
    other key as before; the running total is not touched, and a second
    [get] returns nothing again and changes nothing. *)
Theorem get_drops_stale_key (md5hex : string -> string) (imageIdentifier : string)
    (synologyId spaceId : option Z) (c : ImageCache.t) (d : ImageCache.Disk)
    (keys : list string) (dir : string) :
  ImageCache.cache c = Some keys ->
  ImageCache.cacheDir c = Some dir ->
  let key := ImageCache.getCacheKey md5hex imageIdentifier synologyId spaceId in
  (forall ext, ext ∈ ImageCache.extensions -> ImageCache.access (key ++ ext) d = false) ->
  let '(result, c') := ImageCache.get md5hex imageIdentifier synologyId spaceId c d in
  result = None
  ∧ (exists keys',
       ImageCache.cache c' = Some keys' ∧ (key ∉ keys')
       ∧ forall other, other ≠ key -> other ∈ keys' <-> other ∈ keys)
  ∧ ImageCache.currentCacheSize c' = ImageCache.currentCacheSize c
  ∧ ImageCache.get md5hex imageIdentifier synologyId spaceId c' d = (None, c').
Proof.
  intros Hkeys Hdir key Hgone.
  pose proof (get_miss md5hex imageIdentifier synologyId spaceId c d keys dir
                Hkeys Hdir Hgone) as H.
  fold key in H. destruct (ImageCache.get _ _ _ _ _ _) as [result c']. exact H.
Qed.

Lemma get_drops_stale_key_witness :
  ImageCache.get (fun s => s) "original_1_0" None None Caches.overBudget
    Caches.emptyDirectory
  = (None, {| ImageCache.cacheDir := Some ".image-cache"%string;
              ImageCache.cache := Some [];
              ImageCache.currentCacheSize := 140; ImageCache.maxCacheSize := 100 |}).
Proof.
  pose proof (get_drops_stale_key (fun s => s) "original_1_0" None None Caches.overBudget
                Caches.emptyDirectory ["original_1_0"%string] ".image-cache"
                eq_refl eq_refl) as H.
  cbv zeta in H.
  destruct (ImageCache.get _ _ _ _ _ _) as [result c'] eqn:Hget.
  destruct H as (-> & _); [reflexivity|].
  vm_compute in Hget. injection Hget as <-. reflexivity.
Defined.



(** ** The logger *)

Section LoggerFacts.
Import Logger.

Lemma formatMessage_prefixed message :
  String.prefix LOG_PREFIX (_formatMessage message) = true.
Proof.
  unfold _formatMessage.
  destruct (String.prefix LOG_PREFIX message) eqn:Hp; [done|].
  apply prefix_append.
Qed.

End LoggerFacts.

(** X20. Every message that the logger hands on starts with the module
    prefix, and only once: [_formatMessage] puts the prefix in front of a
    message that lacks it and leaves a message that has it alone, so that
    formatting twice is formatting once.  Errors are handed on at every log
    level; a message handed on at one level is handed on at every more
    verbose level. *)
Theorem logger_prefix_once (message : string) (current level : Logger.LogLevel) :
  String.prefix Logger.LOG_PREFIX (Logger._formatMessage message) = true
  ∧ Logger._formatMessage (Logger._formatMessage message) = Logger._formatMessage message
  ∧ Logger.emit current Logger.LevelError message = Some (Logger._formatMessage message)
  ∧ (forall verbose,
       Logger.indexOf current <= Logger.indexOf verbose ->
       Logger._shouldLog current level = true ->
       Logger._shouldLog verbose level = true)
  ∧ Logger.emit Logger.LevelError level message
    = (match level with
       | Logger.LevelError => Some (Logger._formatMessage message)
       | _ => None
       end).
Proof.
  split; [apply formatMessage_prefixed|]. split; [|split; [|split]].
  - unfold Logger._formatMessage at 1. by rewrite formatMessage_prefixed.
  - by destruct current.
  - unfold Logger._shouldLog. intros verbose Hle Hlog.
    apply Z.leb_le. apply Z.leb_le in Hlog. lia.
  - by destruct level.
Qed.

(** ** The image cache: keys of different photos *)

Section CacheKeysApart.
Import ImageCache.
Variable md5hex : string -> string.

Lemma pretty_N_char_digit (x : N) : JS.is_digit (pretty_N_char x) = true.
Proof. unfold pretty_N_char. by repeat case_match. Qed.

Lemma pretty_N_go_numeric (x : N) (s : string) :
  Forall numeric (list_ascii_of_string s) ->
  Forall numeric (list_ascii_of_string (pretty_N_go x s)).
Proof.
  revert s. induction (N.lt_wf_0 x) as [x _ IH]; intros s Hs.
  assert (x = 0 ∨ 0 < x)%N as [->|Hpos] by lia.
  - by rewrite pretty_N_go_0.
  - rewrite pretty_N_go_step by done. apply IH; [by apply N.div_lt|].
    cbn. constructor; [|done]. left. apply pretty_N_char_digit.
Qed.

Lemma pretty_Z_numeric (z : Z) : Forall numeric (list_ascii_of_string (pretty z)).
Proof.
  assert (forall n : N, Forall numeric (list_ascii_of_string (pretty n))) as HN.
  { intros n. unfold pretty, pretty_N. case_decide.
    - cbn. constructor; [by left|constructor].
    - apply pretty_N_go_numeric. constructor. }
  destruct z as [|q|q]; unfold pretty, pretty_Z.
  - cbn. constructor; [by left|constructor].
  - apply (HN (N.pos q)).
  - rewrite append_cons, append_nil. cbn. constructor; [by right|]. apply (HN (N.pos q)).
Qed.

Lemma numeric_underscore c : numeric c -> c ≠ "_"%char.
Proof. intros [Hd| ->]; [|done]. intros ->. discriminate Hd. Qed.

(** Two numerals joined by an underscore come apart in one way only. *)
Lemma joined_inj (x x' y y' : string) :
  Forall numeric (list_ascii_of_string x) ->
  Forall numeric (list_ascii_of_string x') ->
  (x ++ "_" ++ y)%string = (x' ++ "_" ++ y')%string -> x = x' ∧ y = y'.
Proof.
  revert x'. induction x as [|c x IH]; intros [|c' x'] Hx Hx' Heq.
  - rewrite !append_nil in Heq. by injection Heq.
  - rewrite append_nil, !append_cons in Heq. injection Heq as <- _.
    cbn in Hx'. apply Forall_cons in Hx' as [Hc _]. by apply numeric_underscore in Hc.
  - rewrite append_nil, !append_cons in Heq. injection Heq as -> _.
    cbn in Hx. apply Forall_cons in Hx as [Hc _]. by apply numeric_underscore in Hc.
  - rewrite !append_cons in Heq. injection Heq as -> Heq.
    cbn in Hx, Hx'. apply Forall_cons in Hx as [_ Hx]. apply Forall_cons in Hx' as [_ Hx'].
    destruct (IH x' Hx Hx' Heq) as [-> ->]. done.
Qed.

Lemma provider_key_inj (kind : string) (sid sid' space space' : Z) :
  (kind ++ pretty sid ++ "_" ++ pretty space)%string
  = (kind ++ pretty sid' ++ "_" ++ pretty space')%string ->
  sid = sid' ∧ space = space'.
Proof.
  intros Heq%append_inj_r.
  apply joined_inj in Heq as [Hsid Hspace]; [|apply pretty_Z_numeric..].
  split; by apply (inj pretty).
Qed.

(** A text occurs in every text that is built around it. *)
Lemma substring_skip (a r : string) (n : nat) :
  substring (String.length a) n (a ++ r) = substring 0 n r.
Proof. induction a as [|c a IH]; [done|]. rewrite append_cons. cbn. apply IH. Qed.

Lemma substring_front (sub b : string) :
  substring 0 (String.length sub) (sub ++ b) = sub.
Proof.
  induction sub as [|c sub IH]; [by destruct b|].
  rewrite append_cons. cbn. by rewrite IH.
Qed.

Lemma includes_inside (a sub b : string) :
  sub ≠ EmptyString -> includes (a ++ sub ++ b) sub = true.
Proof.
  intros Hsub. unfold includes.
  destruct (index 0 sub (a ++ sub ++ b)) eqn:Hindex; [done|].
  exfalso.
  apply (index_correct3 0 (String.length a) sub (a ++ sub ++ b) Hindex Hsub);
    [lia|].
  by rewrite substring_skip, substring_front.
Qed.

Lemma startsWith_http (url rest : string) :
  startsWith url "http" = true ->
  startsWith (url ++ rest) "original_" = false
  ∧ startsWith (url ++ rest) "thumbnail_" = false.
Proof.
  unfold startsWith. intros Hhttp.
  destruct url as [|c url]; [done|]. cbn [String.prefix] in Hhttp.
  destruct (ascii_dec "h" c) as [<-|]; [|done].
  rewrite append_cons. split; reflexivity.
Qed.

Lemma occurs_includes (sub s : string) :
  sub ≠ EmptyString -> occurs sub s -> includes s sub = true.
Proof. intros Hsub (a & b & ->). by apply includes_inside. Qed.

Lemma occurs_here (sub behind : string) : occurs sub (sub ++ behind).
Proof. by exists EmptyString, behind. Qed.

Lemma occurs_behind (sub front s : string) : occurs sub s -> occurs sub (front ++ s).
Proof.
  intros (a & b & ->). exists (front ++ a)%string, b. by rewrite string_app_assoc.
Qed.

Lemma occurs_before (sub s tail : string) : occurs sub s -> occurs sub (s ++ tail).
Proof.
  intros (a & b & ->). exists a, (b ++ tail)%string. by rewrite !string_app_assoc.
Qed.

Lemma getOriginalPhotoUrl_download client photoId spaceId :
  includes (SynologyPhotosClient.getOriginalPhotoUrl client photoId spaceId)
    "SYNO.Foto.Download"
  || includes (SynologyPhotosClient.getOriginalPhotoUrl client photoId spaceId)
       "SYNO.FotoTeam.Download" = true.
Proof.
  unfold SynologyPhotosClient.getOriginalPhotoUrl.
  destruct (SynologyPhotosClient.useSharedAlbum client).
  - apply orb_true_iff. left. apply occurs_includes; [done|].
    do 2 apply occurs_behind.
    change "?api=SYNO.Foto.Download&version=2&method=download&id="%string
      with ("?api=" ++ "SYNO.Foto.Download" ++ "&version=2&method=download&id=")%string.
    rewrite !string_app_assoc. apply occurs_behind, occurs_here.
  - assert (forall api tail,
              occurs api
                (SynologyPhotosClient.baseUrl client ++ SynologyPhotosClient.photosApiPath
                 ++ "?api=" ++ api ++ tail)) as Hurl.
    { intros api tail. do 3 apply occurs_behind. apply occurs_here. }
    apply orb_true_iff.
    destruct (bool_decide (spaceId = Some 1)); [right|left];
      (apply occurs_includes; [done|]);
      (destruct (bool_decide (spaceId = Some 0) || bool_decide (spaceId = None));
         [apply occurs_before|]); apply Hurl.
Qed.

End CacheKeysApart.

(** X21. Photos that differ in provider id or in space have different
    cache keys.  For two identifiers that are not keys themselves, the keys
    computed with a provider id are equal only if the provider ids are
    equal, the spaces are equal (a missing space counting as space 0), and
    both identifiers are download URLs or neither is: a thumbnail and an
    original never share a key. *)
Theorem getCacheKey_apart (md5hex : string -> string) (first second : string)
    (sid sid' : Z) (space space' : option Z) :
  ImageCache.consistent first = false ->
  ImageCache.consistent second = false ->
  ImageCache.getCacheKey md5hex first (Some sid) space
  = ImageCache.getCacheKey md5hex second (Some sid') space' ->
  sid = sid'
  ∧ ImageCache.orZero space = ImageCache.orZero space'
  ∧ (ImageCache.includes first "SYNO.Foto.Download"
     || ImageCache.includes first "SYNO.FotoTeam.Download")
    = (ImageCache.includes second "SYNO.Foto.Download"
       || ImageCache.includes second "SYNO.FotoTeam.Download").
Proof.
  unfold ImageCache.getCacheKey, ImageCache.consistent. intros -> ->.
  destruct (ImageCache.includes first "SYNO.Foto.Download"
            || ImageCache.includes first "SYNO.FotoTeam.Download"),
           (ImageCache.includes second "SYNO.Foto.Download"
            || ImageCache.includes second "SYNO.FotoTeam.Download");
    intros Heq.
  - apply provider_key_inj in Heq as [-> ->]. done.
  - rewrite !append_cons in Heq. discriminate Heq.
  - rewrite !append_cons in Heq. discriminate Heq.
  - apply provider_key_inj in Heq as [-> ->]. done.
Qed.

Lemma getCacheKey_apart_witness :
  ImageCache.getCacheKey (fun s => s)
    (SynologyPhotosClient.getPhotoUrl Samples.client 5 None None) (Some 5) None
  = ImageCache.getCacheKey (fun s => s)
      (SynologyPhotosClient.getPhotoUrl Samples.client 5 None (Some 0)) (Some 5) (Some 0)
  ∧ ImageCache.orZero None = ImageCache.orZero (Some 0).
Proof.
  split; [reflexivity|].
  destruct (getCacheKey_apart (fun s => s)
              (SynologyPhotosClient.getPhotoUrl Samples.client 5 None None)
              (SynologyPhotosClient.getPhotoUrl Samples.client 5 None (Some 0))
              5 5 None (Some 0) eq_refl eq_refl eq_refl) as (_ & H & _).
  exact H.
Defined.

(** X22. The URL of an original leads to the key of the original.  For a
    client whose base URL starts with [http], the cache key of the URL that
    [getOriginalPhotoUrl] builds for a photo, taken with the id and the
    space of that photo, is [original_{id}_{space or 0}]: the key under
    which the background download stores the file. *)
Theorem getOriginalPhotoUrl_key (md5hex : string -> string)
    (client : SynologyPhotosClient.t) (photoId : Z) (spaceId : option Z) :
  ImageCache.startsWith (SynologyPhotosClient.baseUrl client) "http" = true ->
  ImageCache.getCacheKey md5hex
    (SynologyPhotosClient.getOriginalPhotoUrl client photoId spaceId)
    (Some photoId) spaceId
  = ("original_" ++ pretty photoId ++ "_" ++ pretty (ImageCache.orZero spaceId))%string.
Proof.
  intros Hhttp. unfold ImageCache.getCacheKey.
  rewrite getOriginalPhotoUrl_download.
  assert (forall url, url = SynologyPhotosClient.getOriginalPhotoUrl client photoId spaceId ->
            ImageCache.startsWith url "original_" || ImageCache.startsWith url "thumbnail_"
            = false) as Hplain.
  { intros url ->. unfold SynologyPhotosClient.getOriginalPhotoUrl.
    destruct (SynologyPhotosClient.useSharedAlbum client).
    - destruct (startsWith_http (SynologyPhotosClient.baseUrl client)
                  (SynologyPhotosClient.photosApiPath
                   ++ "?api=SYNO.Foto.Download&version=2&method=download&id="
                   ++ pretty photoId ++ "&passphrase="
                   ++ SynologyPhotosClient.shareToken client) Hhttp) as [-> ->]. done.
    - destruct (bool_decide (spaceId = Some 0) || bool_decide (spaceId = None));
        rewrite ?string_app_assoc;
        match goal with
        | |- context [(SynologyPhotosClient.baseUrl client ++ ?rest)%string] =>
            destruct (startsWith_http (SynologyPhotosClient.baseUrl client) rest Hhttp)
              as [-> ->]
        end; done. }
  by rewrite Hplain.
Qed.

Lemma getOriginalPhotoUrl_key_witness :
  ImageCache.getCacheKey (fun s => s)
    (SynologyPhotosClient.getOriginalPhotoUrl Samples.client 5 None) (Some 5) None
  = "original_5_0"%string.
Proof. exact (getOriginalPhotoUrl_key (fun s => s) Samples.client 5 None eq_refl). Defined.


(** ** The geocoding queue: one call per task *)

Section GeocodingCalls.
Import ExifExtractor.

Lemma runTask_one_request task w :
  exists t, requestTimes (runTask task w).2 = requestTimes w ++ [t].
Proof.
  unfold runTask, bind.
  pose proof (reverseGeocode_spec (lat task) (lon task) w) as Hgeo.
  destruct (reverseGeocode (lat task) (lon task) w) as [r w1]. simpl in Hgeo.
  destruct Hgeo as (_ & _ & _ & _ & _ & t & Ht & _).
  exists t. destruct r as [[full short]|]; simpl; [|done].
  destruct (updatePhotoAddress_spec (key task) full short w1) as [_ Htimes].
  simpl in Htimes. by rewrite Htimes.
Qed.

Lemma drain_requests fuel w :
  (length (geocodingQueue w) <= fuel)%nat ->
  length (requestTimes (drain fuel w))
  = (length (requestTimes w) + length (geocodingQueue w))%nat.
Proof.
  revert w. induction fuel as [|fuel IH]; intros w Hlen; simpl.
  - destruct (geocodingQueue w); [simpl; lia|simpl in Hlen; lia].
  - destruct (geocodingQueue w) as [|task rest] eqn:Hq; [simpl; lia|].
    pose proof (runTask_spec task (set_queue rest w)) as (Hq1 & _).
    destruct (runTask_one_request task (set_queue rest w)) as [t Ht].
    simpl in Hq1. rewrite IH by (rewrite Hq1; simpl in Hlen; lia).
    rewrite Ht, Hq1, length_app.
    change (requestTimes (set_queue rest w)) with (requestTimes w).
    cbn [length geocodingQueue set_queue]. lia.
Qed.

End GeocodingCalls.

(** X23. [processGeocodingQueue] empties the queue with one call of the
    service per queued task, whatever the service answers.  Where every
    answer is one after which [reverseGeocode] records the time of the call
    (every answer but a response below 400 whose body is present, carries no
    [error] and has no [display_name]), each call goes out at least 5000 ms
    after the call before. *)
Theorem processGeocodingQueue_one_call_each (w : ExifExtractor.World) :
  ExifExtractor.isProcessingGeocodingQueue w = false ->
  ExifExtractor.paced w ->
  ExifExtractor.geocodingQueue (ExifExtractor.processGeocodingQueue w) = []
  ∧ length (ExifExtractor.requestTimes (ExifExtractor.processGeocodingQueue w))
    = (length (ExifExtractor.requestTimes w)
       + length (ExifExtractor.geocodingQueue w))%nat
  ∧ ExifExtractor.isProcessingGeocodingQueue (ExifExtractor.processGeocodingQueue w)
    = false
  ∧ (Forall (fun x => ExifExtractor.stampsClock x = true) (ExifExtractor.exchanges w) ->
     ExifExtractor.spaced ExifExtractor.geocodingRateLimitMs
       (ExifExtractor.requestTimes (ExifExtractor.processGeocodingQueue w))).
Proof.
  intros Hidle Hpaced. split; [|split; [|split]].
  - unfold ExifExtractor.processGeocodingQueue. rewrite Hidle.
    by apply (drain_spec _ (ExifExtractor.set_processing true w)).
  - unfold ExifExtractor.processGeocodingQueue. rewrite Hidle.
    apply (drain_requests _ (ExifExtractor.set_processing true w)). done.
  - unfold ExifExtractor.processGeocodingQueue. by rewrite Hidle.
  - intros Hall. by apply processGeocodingQueue_paced.
Qed.

Lemma processGeocodingQueue_one_call_each_witness :
  ExifExtractor.paced Worlds.twoQueued
  ∧ ExifExtractor.geocodingQueue (ExifExtractor.processGeocodingQueue Worlds.twoQueued) = []
  ∧ length (ExifExtractor.requestTimes
              (ExifExtractor.processGeocodingQueue Worlds.twoQueued)) = 2%nat.
Proof.
  assert (ExifExtractor.paced Worlds.twoQueued) as Hpaced
    by (split; [exact I|apply List.Forall_nil]).
  split; [exact Hpaced|].
  destruct (processGeocodingQueue_one_call_each Worlds.twoQueued eq_refl Hpaced)
    as (Hempty & Hcount & _).
  split; [exact Hempty|exact Hcount].
Defined.

(** X24. The queue runs one task at a time.  Whatever the order in which
    callers push tasks and running tasks settle, at most one task is
    executing after every event, the processing flag is set exactly while
    one is, and with no task executing nothing is left pending. *)
Theorem geocodingQueue_single_flight (events : list ExifExtractor.Event) :
  (length (ExifExtractor.inFlight (ExifExtractor.run events)) <= 1)%nat
  ∧ (ExifExtractor.processing (ExifExtractor.run events) = true
     <-> length (ExifExtractor.inFlight (ExifExtractor.run events)) = 1%nat)
  ∧ (ExifExtractor.inFlight (ExifExtractor.run events) = [] ->
     ExifExtractor.pending (ExifExtractor.run events) = []).
Proof.
  destruct (run_singleFlight events) as [[[Hflag Hone]|(Hflag & Hpending & Hnone)] Hle].
  - split; [done|]. split; [done|]. intros Hnone. rewrite Hnone in Hone. done.
  - split; [done|]. split; [|done]. rewrite Hflag, Hnone. done.
Qed.

(** ** The metadata database with a file system that serves every call *)

Section DatabaseServed.
Import ExifExtractor.

(** What the database file stands for: the database it holds, or the empty
    database when there is no file. *)
Lemma loadMetadataDatabase_served w p database :
  metadataFilePath w = Some p -> faults w = [] ->
  files w !! p = Some (Json database) ∨ (files w !! p = None ∧ database = ∅) ->
  exists w1,
    loadMetadataDatabase w = (database, w1)
    ∧ files w1 = files w ∧ faults w1 = [] ∧ sameObject w w1.
Proof.
  intros Hp Hserved Hfile. unfold loadMetadataDatabase. rewrite Hp. unfold bind.
  destruct (readFile p w) as [r w1] eqn:Hread.
  destruct (readFile_spec p w r w1 Hread) as (Hobj & Hfiles & _ & _ & Hr).
  destruct (Hr Hserved) as [-> Hfaults].
  exists w1. destruct Hfile as [Hjson|[Hnone ->]].
  - by rewrite Hjson.
  - by rewrite Hnone.
Qed.

Lemma saveMetadataDatabase_stored w p database :
  metadataFilePath w = Some p -> faults w = [] ->
  let w' := (saveMetadataDatabase database w).2 in
  files w' !! p = Some (Json database) ∧ faults w' = [] ∧ sameObject w w'.
Proof.
  intros Hp Hserved.
  destruct (saveMetadataDatabase_served w p database Hp Hserved) as [Hfaults Hfile].
  destruct (saveMetadataDatabase_spec w p database Hp) as [Hobj _].
  done.
Qed.

Lemma enqueue_frame k (parsed : option (string * string)) w :
  let w' := (match parsed with
             | Some (la, lo) => enqueueGeocoding k la lo
             | None => ret tt
             end w).2 in
  files w' = files w ∧ faults w' = faults w ∧ metadataFilePath w' = metadataFilePath w
  ∧ geocodingQueue w'
    = geocodingQueue w
      ++ match parsed with
         | Some (la, lo) => [{| key := k; lat := la; lon := lo |}]
         | None => []
         end.
Proof.
  destruct parsed as [[la lo]|]; cbn; [done|]. by rewrite app_nil_r.
Qed.

Lemma sameObject_path w w' : sameObject w w' -> metadataFilePath w' = metadataFilePath w.
Proof. by intros [? _]. Qed.

Lemma sameObject_queue w w' : sameObject w w' -> geocodingQueue w' = geocodingQueue w.
Proof. by intros (_ & _ & ? & _). Qed.

(** [savePhotoMetadata] with a file system that serves every call. *)
Lemma savePhotoMetadata_served w p database sid space metadata :
  metadataFilePath w = Some p -> faults w = [] ->
  files w !! p = Some (Json database) ∨ (files w !! p = None ∧ database = ∅) ->
  JS.truthy (md_location metadata) || JS.truthy (md_captureDate metadata) = true ->
  let k := dbKey sid space in
  let w' := (savePhotoMetadata sid space metadata w).2 in
  metadataFilePath w' = Some p ∧ faults w' = []
  ∧ match database !! k with
    | Some existing =>
        files w' = files w
        ∧ geocodingQueue w'
          = geocodingQueue w
            ++ (if JS.truthy (location existing) && negb (JS.truthy (FullAddress existing))
                then tasksFor k (location existing) else [])
    | None =>
        files w' !! p = Some (Json (<[k := freshEntry sid space metadata]> database))
        ∧ geocodingQueue w'
          = geocodingQueue w
            ++ (if JS.truthy (md_location metadata)
                then tasksFor k (md_location metadata) else [])
    end.
Proof.
  intros Hp Hserved Hfile Huseful k.
  destruct (loadMetadataDatabase_served w p database Hp Hserved Hfile)
    as (w1 & Hload & Hfiles1 & Hfaults1 & Hobj1).
  unfold savePhotoMetadata. rewrite Hp.
  apply orb_true_iff in Huseful.
  assert (negb (JS.truthy (md_location metadata))
          && negb (JS.truthy (md_captureDate metadata)) = false) as ->.
  { destruct Huseful as [->| ->]; [done|apply andb_false_r]. }
  unfold bind. rewrite Hload. fold k.
  pose proof (sameObject_path _ _ Hobj1) as Hp1. rewrite Hp in Hp1.
  pose proof (sameObject_queue _ _ Hobj1) as Hq1.
  destruct (database !! k) as [existing|] eqn:Hk.
  - destruct (JS.truthy (location existing) && negb (JS.truthy (FullAddress existing))).
    + destruct (enqueue_frame k (parseLocation (default EmptyString (location existing))) w1)
        as (Hf & Hfa & Hpa & Hq).
      cbv zeta in Hf, Hfa, Hpa, Hq.
      rewrite Hpa, Hfa, Hf, Hq, Hq1, Hfiles1. unfold tasksFor, text.
      repeat split; try done; by destruct (parseLocation _) as [[??]|].
    + cbn. rewrite app_nil_r. done.
  - destruct (saveMetadataDatabase_stored w1 p (<[k := freshEntry sid space metadata]> database)
                Hp1 Hfaults1) as (Hfile2 & Hfaults2 & Hobj2).
    cbv zeta in Hfile2, Hfaults2, Hobj2.
    change {| location := md_location metadata; captureDate := md_captureDate metadata;
              address := None; FullAddress := None; ShortAddress := None;
              synologyId := sid; spaceId := space |}
      with (freshEntry sid space metadata).
    destruct (saveMetadataDatabase _ w1) as [[] w2]. cbn [snd] in *.
    pose proof (sameObject_path _ _ Hobj2) as Hp2. rewrite Hp1 in Hp2.
    pose proof (sameObject_queue _ _ Hobj2) as Hq2.
    destruct (JS.truthy (md_location metadata)).
    + destruct (enqueue_frame k (parseLocation (default EmptyString (md_location metadata))) w2)
        as (Hf & Hfa & Hpa & Hq).
      cbv zeta in Hf, Hfa, Hpa, Hq.
      rewrite Hpa, Hfa, Hf, Hq, Hq2, Hq1. unfold tasksFor, text.
      repeat split; try done; by destruct (parseLocation _) as [[??]|].
    + cbn. rewrite app_nil_r, Hq2, Hq1. done.
Qed.

End DatabaseServed.

Section DatabaseRoundTrip.
Import ExifExtractor.
Variable getTime : string -> option Z.

Lemma loadMetadataFromDatabase_served w p database sid space :
  metadataFilePath w = Some p -> faults w = [] ->
  files w !! p = Some (Json database) ∨ (files w !! p = None ∧ database = ∅) ->
  (loadMetadataFromDatabase getTime sid space w).1
  = option_map (toExifMetadata getTime) (database !! dbKey sid space).
Proof.
  intros Hp Hserved Hfile.
  destruct (loadMetadataDatabase_served w p database Hp Hserved Hfile)
    as (w1 & Hload & _).
  unfold loadMetadataFromDatabase. rewrite Hp. unfold bind. rewrite Hload.
  by destruct (database !! dbKey sid space).
Qed.

Lemma updatePhotoAddress_served w p database k full short :
  metadataFilePath w = Some p -> faults w = [] ->
  files w !! p = Some (Json database) ∨ (files w !! p = None ∧ database = ∅) ->
  let w' := (updatePhotoAddress k full short w).2 in
  metadataFilePath w' = Some p ∧ faults w' = []
  ∧ geocodingQueue w' = geocodingQueue w
  ∧ match database !! k with
    | Some e => files w' !! p = Some (Json (<[k := withAddress e full short]> database))
    | None => files w' = files w
    end.
Proof.
  intros Hp Hserved Hfile.
  destruct (loadMetadataDatabase_served w p database Hp Hserved Hfile)
    as (w1 & Hload & Hfiles1 & Hfaults1 & Hobj1).
  pose proof (sameObject_path _ _ Hobj1) as Hp1. rewrite Hp in Hp1.
  pose proof (sameObject_queue _ _ Hobj1) as Hq1.
  unfold updatePhotoAddress. rewrite Hp. unfold bind. rewrite Hload.
  destruct (database !! k) as [e|]; [|done].
  destruct (saveMetadataDatabase_stored w1 p (<[k := withAddress e full short]> database)
              Hp1 Hfaults1) as (Hfile2 & Hfaults2 & Hobj2).
  cbv zeta in Hfile2, Hfaults2, Hobj2.
  pose proof (sameObject_path _ _ Hobj2) as Hp2. rewrite Hp1 in Hp2.
  pose proof (sameObject_queue _ _ Hobj2) as Hq2.
  cbv zeta. unfold withAddress in *. rewrite Hp2, Hfaults2, Hq2, Hq1, Hfile2. done.
Qed.

Lemma checkAndLogGeocodingUrl_spec w w1 p database sid space loc :
  metadataFilePath w = Some p ->
  loadMetadataDatabase w = (database, w1) ->
  let k := dbKey sid space in
  let w' := (checkAndLogGeocodingUrl sid space loc w).2 in
  files w' = files w1 ∧ faults w' = faults w1
  ∧ geocodingQueue w'
    = geocodingQueue w1
      ++ match database !! k with
         | Some e =>
             if JS.truthy (location e) && negb (JS.truthy (FullAddress e))
             then tasksFor k (Some loc) else []
         | None => []
         end.
Proof.
  intros Hp Hload k. unfold checkAndLogGeocodingUrl. rewrite Hp. unfold bind.
  rewrite Hload. fold k.
  destruct (database !! k) as [e|]; [|by cbn; rewrite app_nil_r].
  destruct (JS.truthy (location e) && negb (JS.truthy (FullAddress e)));
    [|by cbn; rewrite app_nil_r].
  destruct (enqueue_frame k (parseLocation loc) w1) as (Hf & Hfa & _ & Hq).
  cbv zeta in Hf, Hfa, Hq. rewrite Hf, Hfa, Hq. unfold tasksFor, text.
  change (default EmptyString (Some loc)) with loc.
  by destruct (parseLocation loc) as [[??]|].
Qed.

End DatabaseRoundTrip.

(** X25. What [savePhotoMetadata] has saved, [loadMetadataFromDatabase]
    returns.  With a file system that serves every call, after
    [savePhotoMetadata] for a photo with a location or a capture date the
    database answers for that photo: with the record that was there before
    the call where there was one (the call does not overwrite it), and
    otherwise with the capture date of the metadata, with its location where
    the location parses into two numbers, and without an address. *)
Theorem savePhotoMetadata_round_trip (getTime : string -> option Z)
    (w : ExifExtractor.World) (p : string)
    (database : gmap string ExifExtractor.PhotoMetadataEntry)
    (sid : Z) (space : option Z) (metadata : ExifExtractor.ExifMetadata) :
  ExifExtractor.metadataFilePath w = Some p ->
  ExifExtractor.faults w = [] ->
  ExifExtractor.files w !! p = Some (ExifExtractor.Json database)
  ∨ (ExifExtractor.files w !! p = None ∧ database = ∅) ->
  JS.truthy (ExifExtractor.md_location metadata)
  || JS.truthy (ExifExtractor.md_captureDate metadata) = true ->
  let w' := (ExifExtractor.savePhotoMetadata sid space metadata w).2 in
  let fresh := ExifExtractor.freshEntry sid space metadata in
  (ExifExtractor.loadMetadataFromDatabase getTime sid space w').1
  = Some (ExifExtractor.toExifMetadata getTime
            (default fresh (database !! ExifExtractor.dbKey sid space)))
  ∧ ExifExtractor.dm_captureDate (ExifExtractor.toExifMetadata getTime fresh)
    = ExifExtractor.whenTruthy (ExifExtractor.md_captureDate metadata)
  ∧ ExifExtractor.dm_location (ExifExtractor.toExifMetadata getTime fresh)
    = (if JS.truthy (ExifExtractor.md_location metadata)
       then match ExifExtractor.parseLocation
                    (default EmptyString (ExifExtractor.md_location metadata)) with
            | Some _ => ExifExtractor.md_location metadata
            | None => None
            end
       else None)
  ∧ ExifExtractor.dm_FullAddress (ExifExtractor.toExifMetadata getTime fresh) = None.
Proof.
  intros Hp Hserved Hfile Huseful w' fresh.
  split; [|split; [done|split; [|done]]].
  - destruct (savePhotoMetadata_served w p database sid space metadata
                Hp Hserved Hfile Huseful) as (Hp' & Hfaults' & Hcase).
    cbv zeta in Hcase. fold w' in Hp', Hfaults', Hcase.
    destruct (database !! ExifExtractor.dbKey sid space) as [existing|] eqn:Hk.
    + destruct Hcase as [Hfiles' _].
      rewrite (loadMetadataFromDatabase_served getTime w' p database)
        by (try done; by rewrite Hfiles').
      by rewrite Hk.
    + destruct Hcase as [Hfile' _].
      rewrite (loadMetadataFromDatabase_served getTime w' p _ sid space Hp' Hfaults'
                 (or_introl Hfile')).
      by rewrite lookup_insert_eq.
  - cbn. by destruct (JS.truthy (ExifExtractor.md_location metadata)).
Qed.

Lemma savePhotoMetadata_round_trip_witness :
  ExifExtractor.dm_location
    <$> (ExifExtractor.loadMetadataFromDatabase (fun _ => None) 99 None
           (ExifExtractor.savePhotoMetadata 99 None Worlds.paris Worlds.intact).2).1
  = Some (Some "48.856600, 2.352200"%string).
Proof.
  destruct (savePhotoMetadata_round_trip (fun _ => None) Worlds.intact Worlds.dbPath
              Worlds.twoRecords 99 None Worlds.paris eq_refl eq_refl
              (or_introl eq_refl) eq_refl) as [Hload _].
  cbv zeta in Hload. rewrite Hload. vm_compute. reflexivity.
Defined.

(** X26. [updatePhotoAddress], with a file system that serves every call,
    stores the two addresses in the record of the key and leaves every other
    record as it is; [loadMetadataFromDatabase] then returns them.  For a key
    that the database does not hold, no file is touched.  The queue is not
    touched in either case. *)
Theorem updatePhotoAddress_stores (getTime : string -> option Z)
    (w : ExifExtractor.World) (p : string)
    (database : gmap string ExifExtractor.PhotoMetadataEntry)
    (sid : Z) (space : option Z) (full short : string) :
  ExifExtractor.metadataFilePath w = Some p ->
  ExifExtractor.faults w = [] ->
  ExifExtractor.files w !! p = Some (ExifExtractor.Json database) ->
  let k := ExifExtractor.dbKey sid space in
  let w' := (ExifExtractor.updatePhotoAddress k full short w).2 in
  ExifExtractor.geocodingQueue w' = ExifExtractor.geocodingQueue w
  ∧ match database !! k with
    | Some e =>
        (exists stored,
           ExifExtractor.files w' !! p = Some (ExifExtractor.Json stored)
           ∧ stored !! k = Some (ExifExtractor.withAddress e full short)
           ∧ forall other, other ≠ k -> stored !! other = database !! other)
        ∧ (exists found,
             (ExifExtractor.loadMetadataFromDatabase getTime sid space w').1 = Some found
             ∧ ExifExtractor.dm_FullAddress found = ExifExtractor.whenTruthy (Some full)
             ∧ ExifExtractor.dm_ShortAddress found = ExifExtractor.whenTruthy (Some short)
             ∧ ExifExtractor.dm_captureDate found
               = ExifExtractor.whenTruthy (ExifExtractor.captureDate e))
    | None =>
        ExifExtractor.files w' = ExifExtractor.files w
        ∧ (ExifExtractor.loadMetadataFromDatabase getTime sid space w').1 = None
    end.
Proof.
  intros Hp Hserved Hfile k w'.
  destruct (updatePhotoAddress_served w p database k full short Hp Hserved
              (or_introl Hfile)) as (Hp' & Hfaults' & Hq' & Hcase).
  cbv zeta in Hp', Hfaults', Hq', Hcase. fold w' in Hp', Hfaults', Hq', Hcase.
  split; [done|].
  destruct (database !! k) as [e|] eqn:Hk.
  - split.
    + eexists. split; [exact Hcase|]. split; [apply lookup_insert_eq|].
      intros other Hother. by apply lookup_insert_ne.
    + rewrite (loadMetadataFromDatabase_served getTime w' p _ sid space Hp' Hfaults'
                 (or_introl Hcase)).
      fold k. rewrite lookup_insert_eq. eexists. split; [reflexivity|]. done.
  - split; [done|].
    rewrite (loadMetadataFromDatabase_served getTime w' p database)
      by (try done; left; by rewrite Hcase).
    fold k. by rewrite Hk.
Qed.

Lemma updatePhotoAddress_stores_witness :
  ExifExtractor.files
    (ExifExtractor.updatePhotoAddress "42_0" "Berlin, Deutschland" "Berlin - Deutschland"
       Worlds.intact).2 !! Worlds.dbPath
  = Some (ExifExtractor.Json
            (<[ "42_0"%string :=
                  ExifExtractor.withAddress Worlds.berlin "Berlin, Deutschland"
                    "Berlin - Deutschland" ]> Worlds.twoRecords)).
Proof.
  destruct (updatePhotoAddress_stores (fun _ => None) Worlds.intact Worlds.dbPath
              Worlds.twoRecords 42 None "Berlin, Deutschland" "Berlin - Deutschland"
              eq_refl eq_refl eq_refl) as [_ H].
  vm_compute. reflexivity.
Defined.

(** X27. A photo with a stored address is not geocoded again.  Once
    [updatePhotoAddress] has stored a non-empty full address for a photo,
    neither [savePhotoMetadata] nor [checkAndLogGeocodingUrl] for that photo
    pushes a task, whatever metadata or location they are called with. *)
Theorem geocoded_once (w : ExifExtractor.World) (p : string)
    (database : gmap string ExifExtractor.PhotoMetadataEntry)
    (sid : Z) (space : option Z) (full short loc : string)
    (metadata : ExifExtractor.ExifMetadata) (e : ExifExtractor.PhotoMetadataEntry) :
  ExifExtractor.metadataFilePath w = Some p ->
  ExifExtractor.faults w = [] ->
  ExifExtractor.files w !! p = Some (ExifExtractor.Json database) ->
  database !! ExifExtractor.dbKey sid space = Some e ->
  JS.nonempty full = true ->
  let w' := (ExifExtractor.updatePhotoAddress (ExifExtractor.dbKey sid space) full short
               w).2 in
  ExifExtractor.geocodingQueue (ExifExtractor.savePhotoMetadata sid space metadata w').2
  = ExifExtractor.geocodingQueue w
  ∧ ExifExtractor.geocodingQueue
      (ExifExtractor.checkAndLogGeocodingUrl sid space loc w').2
    = ExifExtractor.geocodingQueue w.
Proof.
  intros Hp Hserved Hfile Hk Hfull w'.
  destruct (updatePhotoAddress_served w p database (ExifExtractor.dbKey sid space)
              full short Hp Hserved (or_introl Hfile)) as (Hp' & Hfaults' & Hq' & Hcase).
  cbv zeta in Hp', Hfaults', Hq', Hcase. fold w' in Hp', Hfaults', Hq', Hcase.
  rewrite Hk in Hcase.
  set (stored := <[ExifExtractor.dbKey sid space := ExifExtractor.withAddress e full short]>
                   database) in Hcase.
  assert (stored !! ExifExtractor.dbKey sid space
          = Some (ExifExtractor.withAddress e full short)) as Hstored
    by apply lookup_insert_eq.
  split.
  - destruct (decide (JS.truthy (ExifExtractor.md_location metadata)
                      || JS.truthy (ExifExtractor.md_captureDate metadata) = true))
      as [Huseful|Huseless].
    + destruct (savePhotoMetadata_served w' p stored sid space metadata Hp' Hfaults'
                  (or_introl Hcase) Huseful) as (_ & _ & Hsaved).
      cbv zeta in Hsaved. rewrite Hstored in Hsaved. destruct Hsaved as [_ Hq].
      rewrite Hq, Hq'. cbn [ExifExtractor.withAddress ExifExtractor.FullAddress JS.truthy].
      rewrite Hfull, andb_false_r. apply app_nil_r.
    + rewrite savePhotoMetadata_returns_early; [done|].
      right. apply not_true_is_false, orb_false_iff in Huseless. done.
  - destruct (loadMetadataDatabase_served w' p stored Hp' Hfaults' (or_introl Hcase))
      as (w1 & Hload & _ & _ & Hobj1).
    destruct (checkAndLogGeocodingUrl_spec w' w1 p stored sid space loc Hp' Hload)
      as (_ & _ & Hq).
    cbv zeta in Hq. rewrite Hq, Hstored, (sameObject_queue _ _ Hobj1), Hq'.
    cbn [ExifExtractor.withAddress ExifExtractor.FullAddress JS.truthy].
    rewrite Hfull, andb_false_r. apply app_nil_r.
Qed.

Lemma geocoded_once_witness :
  ExifExtractor.geocodingQueue
    (ExifExtractor.savePhotoMetadata 42 None Worlds.dateOnly
       (ExifExtractor.updatePhotoAddress (ExifExtractor.dbKey 42 None) "Berlin, Deutschland"
          "Berlin - Deutschland" Worlds.intact).2).2
  = [].
Proof.
  destruct (geocoded_once Worlds.intact Worlds.dbPath Worlds.twoRecords 42 None
              "Berlin, Deutschland" "Berlin - Deutschland" "52.52, 13.405" Worlds.dateOnly
              Worlds.berlin eq_refl eq_refl eq_refl eq_refl eq_refl) as [H _].
  exact H.
Defined.

(** X28. [checkAndLogGeocodingUrl] loads the database and pushes at most
    one task: a task is pushed exactly when the database holds a record for
    the photo, the record has a location and no full address, and the
    location passed by the caller parses into two numbers; the coordinates
    of the task are those of the location passed, not those of the record.
    No file is written after the load. *)
Theorem checkAndLogGeocodingUrl_effect (w w1 : ExifExtractor.World) (p : string)
    (database : gmap string ExifExtractor.PhotoMetadataEntry)
    (sid : Z) (space : option Z) (loc : string) :
  ExifExtractor.metadataFilePath w = Some p ->
  ExifExtractor.loadMetadataDatabase w = (database, w1) ->
  let k := ExifExtractor.dbKey sid space in
  let w' := (ExifExtractor.checkAndLogGeocodingUrl sid space loc w).2 in
  ExifExtractor.files w' = ExifExtractor.files w1
  ∧ ExifExtractor.geocodingQueue w'
    = ExifExtractor.geocodingQueue w1
      ++ match database !! k with
         | Some e =>
             if JS.truthy (ExifExtractor.location e)
                && negb (JS.truthy (ExifExtractor.FullAddress e))
             then ExifExtractor.tasksFor k (Some loc) else []
         | None => []
         end.
Proof.
  intros Hp Hload k w'.
  destruct (checkAndLogGeocodingUrl_spec w w1 p database sid space loc Hp Hload)
    as (Hfiles & _ & Hq).
  done.
Qed.

Lemma checkAndLogGeocodingUrl_effect_witness :
  ExifExtractor.geocodingQueue
    (ExifExtractor.checkAndLogGeocodingUrl 42 None "48.85, 2.35" Worlds.intact).2
  = [ {| ExifExtractor.key := "42_0"; ExifExtractor.lat := "48.85";
         ExifExtractor.lon := "2.35" |} ]%string.
Proof.
  destruct (checkAndLogGeocodingUrl_effect Worlds.intact
              (ExifExtractor.loadMetadataDatabase Worlds.intact).2 Worlds.dbPath
              Worlds.twoRecords 42 None "48.85, 2.35" eq_refl eq_refl) as [_ H].
  cbv zeta in H. rewrite H. vm_compute. reflexivity.
Defined.

(** ** Locations: what the extractors write, [parseLocation] reads *)

Section LocationText.
Import ExifExtractor.

Lemma chars_app (a b : string) :
  list_ascii_of_string (a ++ b) = list_ascii_of_string a ++ list_ascii_of_string b.
Proof. induction a as [|c a IH]; [done|]. rewrite append_cons. cbn. by rewrite IH. Qed.

Lemma append_nil_r (a : string) : (a ++ EmptyString)%string = a.
Proof. induction a as [|c a IH]; [done|]. by rewrite append_cons, IH. Qed.

Lemma split_aux_last (sep : ascii) (s : string) (cur : list ascii) :
  sep ∉ list_ascii_of_string s ->
  JS.split_aux sep s cur = [string_of_list_ascii (rev cur ++ list_ascii_of_string s)].
Proof.
  revert cur. induction s as [|c s IH]; intros cur Hs.
  - cbn. by rewrite app_nil_r.
  - cbn [JS.split_aux list_ascii_of_string] in *.
    apply not_elem_of_cons in Hs as [Hc Hs].
    destruct (Ascii.eqb_spec c sep) as [->|_]; [done|].
    rewrite IH by done. cbn [rev]. by rewrite <- app_assoc.
Qed.

Lemma split_aux_part (sep : ascii) (a r : string) (cur : list ascii) :
  sep ∉ list_ascii_of_string a ->
  JS.split_aux sep (a ++ String sep r) cur
  = string_of_list_ascii (rev cur ++ list_ascii_of_string a) :: JS.split_aux sep r [].
Proof.
  revert cur. induction a as [|c a IH]; intros cur Ha.
  - rewrite append_nil. cbn. rewrite Ascii.eqb_refl. by rewrite app_nil_r.
  - rewrite append_cons. cbn [JS.split_aux list_ascii_of_string] in *.
    apply not_elem_of_cons in Ha as [Hc Ha].
    destruct (Ascii.eqb_spec c sep) as [->|_]; [done|].
    rewrite IH by done. cbn [rev]. by rewrite <- app_assoc.
Qed.

Lemma inNumeral_plain c : inNumeral c -> c ≠ ","%char ∧ JS.is_space c = false.
Proof.
  intros [Hd|[->| ->]]; [|done..].
  unfold JS.is_digit, JS.is_space in *.
  split; [by intros ->|].
  apply andb_true_iff in Hd as [Hlo%Nat.leb_le Hhi%Nat.leb_le].
  repeat (apply orb_false_iff; split); try apply andb_false_iff;
    try (apply Nat.eqb_neq; lia).
  right. apply Nat.leb_gt. lia.
Qed.

Lemma digits_chars s :
  digits s = true ->
  Forall (fun c => JS.is_digit c = true) (list_ascii_of_string s)
  ∧ exists c r, s = String c r ∧ JS.is_digit c = true.
Proof.
  unfold digits. intros [Hne Hall]%andb_true_iff.
  rewrite forallb_forall in Hall.
  assert (Forall (fun c => JS.is_digit c = true) (list_ascii_of_string s)) as Hchars.
  { apply Forall_forall. intros c Hc. by apply Hall, list_elem_of_In. }
  split; [done|]. destruct s as [|c r]; [done|].
  exists c, r. split; [done|]. cbn in Hchars. by apply Forall_cons in Hchars as [? _].
Qed.

Lemma fixed_chars negative int frac :
  digits int = true -> digits frac = true ->
  Forall inNumeral (list_ascii_of_string (fixed negative int frac)).
Proof.
  intros [Hint _]%digits_chars [Hfrac _]%digits_chars.
  unfold fixed. rewrite !chars_app.
  repeat apply Forall_app_2.
  - destruct negative; cbn; [|constructor]. constructor; [|constructor]. right. by left.
  - eapply Forall_impl; [exact Hint|]. by left.
  - cbn. constructor; [|constructor]. right. by right.
  - eapply Forall_impl; [exact Hfrac|]. by left.
Qed.

Lemma trimStart_plain c r : JS.is_space c = false -> JS.trimStart (String c r) = String c r.
Proof. intros Hc. cbn. by rewrite Hc. Qed.

Lemma trimEnd_plain (s : string) (l : list ascii) (d : ascii) :
  list_ascii_of_string s = l ++ [d] -> JS.is_space d = false -> JS.trimEnd s = s.
Proof.
  intros Hs Hd. unfold JS.trimEnd, JS.rev_string at 2. rewrite Hs, rev_unit.
  cbn [string_of_list_ascii]. rewrite trimStart_plain by done.
  unfold JS.rev_string. cbn [list_ascii_of_string rev].
  rewrite list_ascii_of_string_of_list_ascii, rev_involutive.
  rewrite <- Hs. apply string_of_list_ascii_of_string.
Qed.

Lemma fixed_first negative int frac :
  digits int = true ->
  exists c r, fixed negative int frac = String c r ∧ JS.is_space c = false
              ∧ (negative = false -> JS.is_digit c = true).
Proof.
  intros (_ & c & r & -> & Hc)%digits_chars. unfold fixed.
  destruct negative.
  - eexists _, _. split; [reflexivity|]. done.
  - rewrite append_nil, append_cons. eexists _, _. split; [reflexivity|].
    split; [|done]. by apply inNumeral_plain; left.
Qed.

Lemma fixed_last negative int frac :
  digits frac = true ->
  exists l d, list_ascii_of_string (fixed negative int frac) = l ++ [d]
              ∧ JS.is_space d = false.
Proof.
  intros [Hfrac (c & r & Hshape & _)]%digits_chars.
  unfold fixed. rewrite !chars_app.
  destruct (list_ascii_of_string frac) as [|x l _] eqn:Hchars using rev_ind.
  { rewrite Hshape in Hchars. discriminate Hchars. }
  apply Forall_app in Hfrac as [_ Hx]. apply Forall_cons in Hx as [Hx _].
  eexists _, x. rewrite !app_assoc. split; [reflexivity|].
  by apply inNumeral_plain; left.
Qed.

Lemma trim_fixed negative int frac :
  digits int = true -> digits frac = true ->
  JS.trim (fixed negative int frac) = fixed negative int frac
  ∧ JS.trim (String " " (fixed negative int frac)) = fixed negative int frac.
Proof.
  intros Hint Hfrac.
  destruct (fixed_first negative int frac Hint) as (c & r & Hshape & Hc & _).
  destruct (fixed_last negative int frac Hfrac) as (l & d & Hchars & Hd).
  unfold JS.trim. cbn [JS.trimStart JS.is_space]. cbn.
  rewrite Hshape, trimStart_plain by done. rewrite <- Hshape.
  split; by apply (trimEnd_plain _ l d).
Qed.

Lemma span_digits_all (s : string) :
  forallb JS.is_digit (list_ascii_of_string s) = true ->
  JS.span_digits s = (s, EmptyString).
Proof.
  induction s as [|c s IH]; [done|]. cbn. intros [Hc Hs]%andb_true_iff.
  by rewrite Hc, IH.
Qed.

Lemma span_digits_stop (s : string) (c : ascii) (r : string) :
  forallb JS.is_digit (list_ascii_of_string s) = true -> JS.is_digit c = false ->
  JS.span_digits (s ++ String c r) = (s, String c r).
Proof.
  induction s as [|x s IH]; intros Hs Hc.
  - rewrite append_nil. cbn. by rewrite Hc.
  - rewrite append_cons. cbn in Hs |- *. apply andb_true_iff in Hs as [Hx Hs].
    by rewrite Hx, IH.
Qed.

Lemma parseFloat_fixed negative int frac :
  digits int = true -> digits frac = true ->
  JS.parseFloat (fixed negative int frac) = Some (fixed negative int frac).
Proof.
  intros Hint Hfrac.
  destruct (fixed_first negative int frac Hint) as (c & r & Hshape & Hc & _).
  pose proof Hint as [Hne_int Hall_int]%andb_true_iff.
  pose proof Hfrac as [Hne_frac Hall_frac]%andb_true_iff.
  destruct (digits_chars int Hint) as (_ & ci & ri & Hint_shape & Hci).
  unfold JS.parseFloat. rewrite Hshape, trimStart_plain by done. rewrite <- Hshape.
  assert (JS.read_sign (fixed negative int frac)
          = ((if negative then "-" else "")%string, (int ++ "." ++ frac)%string)) as ->.
  { unfold fixed. destruct negative; [done|].
    rewrite append_nil, Hint_shape, append_cons. cbn [JS.read_sign].
    destruct (Ascii.eqb_spec ci "-") as [->|_]; [discriminate Hci|].
    destruct (Ascii.eqb_spec ci "+") as [->|_]; [discriminate Hci|]. done. }
  assert (String.prefix "Infinity" (int ++ "." ++ frac) = false) as ->.
  { rewrite Hint_shape, append_cons. cbn [String.prefix].
    destruct (ascii_dec "I" ci) as [<-|]; [discriminate Hci|done]. }
  change ("." ++ frac)%string with (String "." frac).
  rewrite span_digits_stop by done.
  rewrite Ascii.eqb_refl, span_digits_all by done.
  rewrite Hne_int, Hne_frac. cbn [orb JS.read_exponent].
  unfold fixed. by rewrite append_nil_r.
Qed.

End LocationText.

(** X29. Every location text of the form that the extractors write is read
    back by [parseLocation].  The extractors write a location as the two
    coordinates in fixed notation, separated by a comma and a blank; for
    every two such numerals [parseLocation] returns these two numerals, so
    that the geocoding task of the record asks for exactly the coordinates
    that were written. *)
Theorem parseLocation_reads_fixed (south west : bool) (lat latFraction lon lonFraction : string) :
  ExifExtractor.digits lat = true ->
  ExifExtractor.digits latFraction = true ->
  ExifExtractor.digits lon = true ->
  ExifExtractor.digits lonFraction = true ->
  let latitude := ExifExtractor.fixed south lat latFraction in
  let longitude := ExifExtractor.fixed west lon lonFraction in
  ExifExtractor.parseLocation (latitude ++ ", " ++ longitude) = Some (latitude, longitude)
  ∧ forall k,
      ExifExtractor.tasksFor k (Some (latitude ++ ", " ++ longitude)%string)
      = [ {| ExifExtractor.key := k; ExifExtractor.lat := latitude;
             ExifExtractor.lon := longitude |} ].
Proof.
  intros Hlat HlatF Hlon HlonF latitude longitude.
  assert (ExifExtractor.parseLocation (latitude ++ ", " ++ longitude)
          = Some (latitude, longitude)) as Hparse.
  { unfold ExifExtractor.parseLocation, JS.split.
    assert (forall s, Forall ExifExtractor.inNumeral (list_ascii_of_string s) ->
                      ","%char ∉ list_ascii_of_string s) as Hnocomma.
    { intros s Hs Hin. rewrite Forall_forall in Hs.
      by destruct (inNumeral_plain _ (Hs _ Hin)). }
    change (", " ++ longitude)%string with (String "," (String " " longitude)).
    rewrite split_aux_part by (apply Hnocomma; by apply fixed_chars).
    rewrite split_aux_last.
    2:{ cbn. apply not_elem_of_cons. split; [done|].
        apply Hnocomma. by apply fixed_chars. }
    cbn [rev app map].
    rewrite !string_of_list_ascii_of_string.
    unfold latitude, longitude.
    destruct (trim_fixed south lat latFraction Hlat HlatF) as [-> _].
    destruct (trim_fixed west lon lonFraction Hlon HlonF) as [_ ->].
    by rewrite !parseFloat_fixed. }
  split; [exact Hparse|].
  intros k. unfold ExifExtractor.tasksFor, ExifExtractor.text.
  change (default EmptyString (Some (latitude ++ ", " ++ longitude)%string))
    with (latitude ++ ", " ++ longitude)%string.
  by rewrite Hparse.
Qed.

Lemma parseLocation_reads_fixed_witness :
  ExifExtractor.parseLocation "48.856600, -2.352200"
  = Some ("48.856600"%string, "-2.352200"%string).
Proof.
  destruct (parseLocation_reads_fixed false true "48" "856600" "2" "352200"
              eq_refl eq_refl eq_refl eq_refl) as [H _].
  exact H.
Defined.
